(** * A Rocq model of [puyo_game.py]

    The development embeds the simulation core of the game: the board
    ([GameGrid]), the falling pair ([PuyoPair]) and the controller
    ([PuyoGame]).  Rendering, fonts, the window and the clock are left out:
    they do not touch the state the theorems are about.  The one redraw the
    core itself calls, inside [process_chains], is modelled as far as it can
    raise ([draw], [process_chains_redraw_loop]).

    Conventions.
    - Python integers are [Z]; colours are the integers the source stores in
      the grid ([0] is the empty cell, [1..5] the five colours).
    - The grid is the source's list of rows, [grid[y][x]], row [0] on top.
    - A Python [set] of coordinate tuples is a [gset (Z * Z)].
    - [None] stands for a raised exception ([IndexError], or [RecursionError]
      when the recursion budget of the flood fill is used up) or for a loop
      that used up its iteration budget; the theorems show which budgets are
      enough.
    - [random.randint(1, 5)] is read from an oracle [rnd : nat -> Z] that
      lists the values the calls return, in order; the state counts how many
      were drawn. *)

From Stdlib Require Import ZArith Lia.
From stdpp Require Import base numbers option list sets gmap.

Set Warnings "-clear-no-such-hyp".

Open Scope Z_scope.

(** ** Constants *)

Definition GRID_WIDTH : Z := 6.
Definition GRID_HEIGHT : Z := 12.

(** ** Python list indexing

    [l[i]] for a possibly negative [i]: indices [-len .. -1] count from the
    end, anything outside [-len .. len-1] raises [IndexError]. *)

Definition py_get {A} (l : list A) (i : Z) : option A :=
  if bool_decide (0 ≤ i) then l !! Z.to_nat i
  else if bool_decide (- Z.of_nat (length l) ≤ i)
       then l !! Z.to_nat (Z.of_nat (length l) + i)
       else None.

(** [enumerate(l)] with the index as a Python integer. *)
Definition enumerate {A} (l : list A) : list (Z * A) :=
  imap (λ i a, (Z.of_nat i, a)) l.

(** ** Position and PuyoPair *)

Record Position := mkPosition { pos_x : Z; pos_y : Z }.

(** [Position.__add__] *)
Definition pos_add (a b : Position) : Position :=
  mkPosition (pos_x a + pos_x b) (pos_y a + pos_y b).

Record PuyoPair := mkPuyoPair {
  main_puyo : Position;
  sub_puyo : Position;
  main_color : Z;
  sub_color : Z;
  rotation_state : Z
}.

(** [PuyoPair.__init__]; the default anchor is
    [(GRID_WIDTH // 2 - 1, 0)]. *)
Definition new_pair (color1 color2 x y : Z) : PuyoPair :=
  mkPuyoPair (mkPosition x y) (mkPosition (x + 1) y) color1 color2 0.

Definition new_pair_default (color1 color2 : Z) : PuyoPair :=
  new_pair color1 color2 (GRID_WIDTH / 2 - 1) 0.

Definition offsets : list Position :=
  [ mkPosition 1 0; mkPosition 0 1; mkPosition (-1) 0; mkPosition 0 (-1) ].

(** [get_positions]: [offsets[self.rotation_state]] is a Python list access.
    The rotation state is always reduced modulo 4 by the two rotate methods
    (see [rotate_clockwise_range]), so the access is in range; outside
    [-4 .. 3], where Python raises, the model falls back to a zero offset
    ([get_positions_checked] is the access with its error). *)
Definition get_positions (p : PuyoPair) : Position * Position :=
  let sub_pos :=
    pos_add (main_puyo p)
            (default (mkPosition 0 0) (py_get offsets (rotation_state p))) in
  (main_puyo p, sub_pos).

Definition set_rotation (p : PuyoPair) (r : Z) : PuyoPair :=
  mkPuyoPair (main_puyo p) (sub_puyo p) (main_color p) (sub_color p) r.

Definition set_main (p : PuyoPair) (m : Position) : PuyoPair :=
  mkPuyoPair m (sub_puyo p) (main_color p) (sub_color p) (rotation_state p).

Definition rotate_clockwise (p : PuyoPair) : PuyoPair :=
  set_rotation p ((rotation_state p + 1) mod 4).

Definition rotate_counter_clockwise (p : PuyoPair) : PuyoPair :=
  set_rotation p ((rotation_state p - 1) mod 4).

(** [move] only updates the anchor; [sub_puyo] keeps the value the
    constructor gave it, as in the source. *)
Definition move (p : PuyoPair) (dx dy : Z) : PuyoPair :=
  set_main p (mkPosition (pos_x (main_puyo p) + dx) (pos_y (main_puyo p) + dy)).

(** ** GameGrid *)

Record GameGrid := mkGameGrid {
  width : Z;
  height : Z;
  grid : list (list Z)
}.

(** [GameGrid.__init__] *)
Definition new_grid (w h : Z) : GameGrid :=
  mkGameGrid w h (replicate (Z.to_nat h) (replicate (Z.to_nat w) 0)).

Definition default_grid : GameGrid := new_grid GRID_WIDTH GRID_HEIGHT.

(** The grids the constructor builds, and every grid the methods make of
    them, are rectangular: [height] rows of [width] cells. *)
Definition wf (g : GameGrid) : Prop :=
  length (grid g) = Z.to_nat (height g) ∧
  Forall (λ row, length row = Z.to_nat (width g)) (grid g).

Definition in_bounds (g : GameGrid) (x y : Z) : Prop :=
  0 ≤ x < width g ∧ 0 ≤ y < height g.

(** [self.grid[y][x]] at a place where the source has checked the bounds or
    iterates over [range(height)] and [range(width)]: on a well-formed grid
    the cell exists, and the default is never returned. *)
Definition cell (g : GameGrid) (x y : Z) : Z :=
  default 0 (grid g !! Z.to_nat y ≫= λ row, row !! Z.to_nat x).

(** [self.grid[y][x] = v], under the same proviso. *)
Definition set_cell (g : GameGrid) (x y v : Z) : GameGrid :=
  mkGameGrid (width g) (height g)
             (alter (λ row, <[Z.to_nat x := v]> row) (Z.to_nat y) (grid g)).

Definition is_valid_position (g : GameGrid) (x y : Z) : bool :=
  bool_decide (0 ≤ x < width g) && bool_decide (0 ≤ y < height g)
  && bool_decide (cell g x y = 0).

Definition can_place_pair (g : GameGrid) (p : PuyoPair) : bool :=
  let '(main_pos, sub_pos) := get_positions p in
  is_valid_position g (pos_x main_pos) (pos_y main_pos)
  && is_valid_position g (pos_x sub_pos) (pos_y sub_pos).

Definition place_puyo (g : GameGrid) (x y color : Z) : GameGrid :=
  if bool_decide (0 ≤ x < width g ∧ 0 ≤ y < height g)
  then set_cell g x y color
  else g.

(** [apply_gravity], one column: the first loop walks the column from the
    bottom row up, collects the non-zero cells and zeroes every cell; the
    second writes the collected cells back from the bottom row up. *)
Definition gravity_collect (x : Z) (acc : list Z * GameGrid) (y : Z)
  : list Z * GameGrid :=
  let '(puyos, g) := acc in
  ((if bool_decide (cell g x y ≠ 0) then puyos ++ [cell g x y] else puyos),
   set_cell g x y 0).

Definition gravity_column (g : GameGrid) (x : Z) : GameGrid :=
  let '(puyos, g1) :=
    foldl (gravity_collect x) ([], g) (reverse (seqZ 0 (height g))) in
  foldl (λ g1 '(i, puyo), set_cell g1 x (height g - 1 - i) puyo)
        g1 (enumerate puyos).

Definition apply_gravity (g : GameGrid) : GameGrid :=
  foldl gravity_column g (seqZ 0 (width g)).

(** [find_connected_puyos]: the recursive flood fill.  [visited] is the
    caller's set, mutated by the call: the model returns it next to the
    result.  [depth] is the number of nested calls still allowed. *)
Definition directions : list (Z * Z) := [ (0, 1); (0, -1); (1, 0); (-1, 0) ].

Fixpoint find_connected_puyos (depth : nat) (g : GameGrid)
    (start_x start_y color : Z) (visited : gset (Z * Z))
  : option (gset (Z * Z) * gset (Z * Z)) :=
  match depth with
  | O => None
  | S d =>
    if bool_decide ((start_x, start_y) ∈ visited) then Some (∅, visited)
    else if bool_decide (start_x < 0 ∨ width g ≤ start_x ∨
                         start_y < 0 ∨ height g ≤ start_y ∨
                         cell g start_x start_y ≠ color)
    then Some (∅, visited)
    else
      let visited := {[ (start_x, start_y) ]} ∪ visited in
      foldl (λ acc '(dx, dy),
               '(connected, visited) ← acc;
               '(new_connected, visited) ←
                 find_connected_puyos d g (start_x + dx) (start_y + dy)
                                      color visited;
               Some (connected ∪ new_connected, visited))
            (Some ({[ (start_x, start_y) ]}, visited)) directions
  end.

(** The body of the double loop of [find_and_clear_groups]; the state is
    [(visited, to_clear, groups_cleared)]. *)
Definition scan_cell (depth : nat) (g : GameGrid)
    (acc : option (gset (Z * Z) * gset (Z * Z) * Z)) (x y : Z)
  : option (gset (Z * Z) * gset (Z * Z) * Z) :=
  '(visited, to_clear, groups_cleared) ← acc;
  if bool_decide (((x, y) ∉ visited) ∧ cell g x y ≠ 0) then
    '(connected, visited) ←
      find_connected_puyos depth g x y (cell g x y) visited;
    if bool_decide (4 ≤ Z.of_nat (size connected))
    then Some (visited, to_clear ∪ connected, groups_cleared + 1)
    else Some (visited, to_clear, groups_cleared)
  else Some (visited, to_clear, groups_cleared).

Definition scan_groups (depth : nat) (g : GameGrid)
  : option (gset (Z * Z) * gset (Z * Z) * Z) :=
  foldl (λ acc y, foldl (λ acc x, scan_cell depth g acc x y)
                        acc (seqZ 0 (width g)))
        (Some (∅, ∅, 0)) (seqZ 0 (height g)).

Definition clear_cells (g : GameGrid) (to_clear : gset (Z * Z)) : GameGrid :=
  foldl (λ g '(x, y), set_cell g x y 0) g (elements to_clear).

(** A flood fill never nests deeper than the number of cells plus one. *)
Definition fill_depth (g : GameGrid) : nat :=
  S (Z.to_nat (width g) * Z.to_nat (height g)).

(** [find_and_clear_groups] returns [(cleared_count, groups_cleared)] and
    leaves the cleared grid behind. *)
Definition find_and_clear_groups (g : GameGrid) : option (Z * Z * GameGrid) :=
  '(_, to_clear, groups_cleared) ← scan_groups (fill_depth g) g;
  let cleared_count := Z.of_nat (size to_clear) in
  Some (cleared_count, groups_cleared, clear_cells g to_clear).

Definition is_game_over (g : GameGrid) : bool :=
  bool_decide (Exists (λ x, cell g x 0 ≠ 0) (seqZ 0 (width g))).

(** ** PuyoGame

    The fields the simulation reads and writes.  [drawn] counts the calls of
    [random.randint] made so far. *)

Record PuyoGame := mkPuyoGame {
  pg_grid : GameGrid;
  current_pair : PuyoPair;
  next_pair : PuyoPair;
  score : Z;
  chain_count : Z;
  game_over : bool;
  fall_timer : Z;
  drawn : nat
}.

Definition fall_speed : Z := 500.
Definition soft_drop_speed : Z := 50.

Definition set_grid (st : PuyoGame) (g : GameGrid) : PuyoGame :=
  mkPuyoGame g (current_pair st) (next_pair st) (score st) (chain_count st)
             (game_over st) (fall_timer st) (drawn st).

Definition set_current (st : PuyoGame) (p : PuyoPair) : PuyoGame :=
  mkPuyoGame (pg_grid st) p (next_pair st) (score st) (chain_count st)
             (game_over st) (fall_timer st) (drawn st).

Definition set_chain (st : PuyoGame) (c : Z) : PuyoGame :=
  mkPuyoGame (pg_grid st) (current_pair st) (next_pair st) (score st) c
             (game_over st) (fall_timer st) (drawn st).

Definition set_score (st : PuyoGame) (s : Z) : PuyoGame :=
  mkPuyoGame (pg_grid st) (current_pair st) (next_pair st) s (chain_count st)
             (game_over st) (fall_timer st) (drawn st).

Definition set_timer (st : PuyoGame) (t : Z) : PuyoGame :=
  mkPuyoGame (pg_grid st) (current_pair st) (next_pair st) (score st)
             (chain_count st) (game_over st) t (drawn st).

(** [can_move_pair] and [can_rotate_pair] build a test pair from the current
    one and ask the grid. *)
Definition test_pair (st : PuyoGame) : PuyoPair :=
  let cur := current_pair st in
  set_rotation
    (new_pair (main_color cur) (sub_color cur)
              (pos_x (main_puyo cur)) (pos_y (main_puyo cur)))
    (rotation_state cur).

Definition can_move_pair (st : PuyoGame) (dx dy : Z) : bool :=
  can_place_pair (pg_grid st) (move (test_pair st) dx dy).

Definition can_rotate_pair (st : PuyoGame) (clockwise : bool) : bool :=
  can_place_pair (pg_grid st)
    (if clockwise then rotate_clockwise (test_pair st)
     else rotate_counter_clockwise (test_pair st)).

(** [place_current_pair].  The [while] loop reads
    [self.grid.grid[final_y + 1][pos.x]] without a bounds check on the
    column or on a negative row: a Python list access.  The loop runs at
    most [height - pos.y] times. *)
Definition py_cell (g : GameGrid) (x y : Z) : option Z :=
  row ← py_get (grid g) y; py_get row x.

Fixpoint settle_row (fuel : nat) (g : GameGrid) (x final_y : Z) : option Z :=
  if bool_decide (final_y + 1 < height g) then
    below ← py_cell g x (final_y + 1);
    if bool_decide (below = 0) then
      match fuel with
      | O => None
      | S fuel => settle_row fuel g x (final_y + 1)
      end
    else Some final_y
  else Some final_y.

Definition settle (g : GameGrid) (pos : Position) (color : Z)
  : option GameGrid :=
  final_y ← settle_row (Z.to_nat (height g - pos_y pos)) g
                       (pos_x pos) (pos_y pos);
  Some (place_puyo g (pos_x pos) final_y color).

Definition place_pair (g : GameGrid) (p : PuyoPair) : option GameGrid :=
  let '(main_pos, sub_pos) := get_positions p in
  g ← settle g main_pos (main_color p);
  settle g sub_pos (sub_color p).

Definition place_current_pair (st : PuyoGame) : option PuyoGame :=
  set_grid st <$> place_pair (pg_grid st) (current_pair st).

(** [process_chains].  [fuel] bounds the number of passes of the
    [while True] loop; the calls that wait and redraw are left out here:
    [process_chains_redraw_loop] is the loop with its redraw. *)
Fixpoint process_chains_loop (fuel : nat) (st : PuyoGame) : option PuyoGame :=
  match fuel with
  | O => None
  | S fuel =>
    '(cleared_count, groups_cleared, g) ←
      find_and_clear_groups (apply_gravity (pg_grid st));
    let st := set_grid st g in
    if bool_decide (cleared_count = 0) then Some st
    else
      let st := set_chain st (chain_count st + 1) in
      let base_score := cleared_count * 10 in
      let chain_bonus := Z.max 1 (chain_count st * 2) in
      let group_bonus := groups_cleared in
      process_chains_loop fuel
        (set_score st (score st + base_score * chain_bonus * group_bonus))
  end.

Definition chain_fuel (g : GameGrid) : nat :=
  S (Z.to_nat (width g * height g / 4)).

Definition process_chains (st : PuyoGame) : option PuyoGame :=
  process_chains_loop (chain_fuel (pg_grid st)) (set_chain st 0).

Inductive Key :=
  K_LEFT | K_RIGHT | K_DOWN | K_UP | K_z | K_x | K_c | K_r | K_other.

Inductive Event := KEYDOWN (key : Key) | OTHER_EVENT.

(** What the main loop feeds the game: an event or a clock tick with the
    state of the down key. *)
Inductive Input := IEvent (e : Event) | ITick (dt : Z) (down_held : bool).

Definition move_current (st : PuyoGame) (dx dy : Z) : PuyoGame :=
  set_current st (move (current_pair st) dx dy).

(** [while self.can_move_pair(0, 1): self.current_pair.move(0, 1)] *)
Fixpoint drop_loop (fuel : nat) (st : PuyoGame) : option PuyoGame :=
  if can_move_pair st 0 1 then
    match fuel with
    | O => None
    | S fuel => drop_loop fuel (move_current st 0 1)
    end
  else Some st.

Definition drop_fuel (st : PuyoGame) : nat :=
  Z.to_nat (height (pg_grid st) - pos_y (main_puyo (current_pair st))).

Section Random.

(** The values [random.randint(1, 5)] returns, call after call. *)
Variable rnd : nat → Z.

Definition generate_new_pair (st : PuyoGame) : PuyoPair * PuyoGame :=
  let color1 := rnd (drawn st) in
  let color2 := rnd (S (drawn st)) in
  (new_pair_default color1 color2,
   mkPuyoGame (pg_grid st) (current_pair st) (next_pair st) (score st)
              (chain_count st) (game_over st) (fall_timer st)
              (S (S (drawn st)))).

Definition spawn_new_pair (st : PuyoGame) : PuyoGame :=
  let cur := next_pair st in
  let '(nxt, st) := generate_new_pair st in
  let cur :=
    set_rotation (set_main cur (mkPosition (GRID_WIDTH / 2 - 1) 0)) 0 in
  let over :=
    if negb (can_place_pair (pg_grid st) cur) then true else game_over st in
  mkPuyoGame (pg_grid st) cur nxt (score st) (chain_count st) over
             (fall_timer st) (drawn st).

(** [PuyoGame.__init__] *)
Definition new_game : PuyoGame :=
  mkPuyoGame default_grid (new_pair_default (rnd 0%nat) (rnd 1%nat))
             (new_pair_default (rnd 2%nat) (rnd 3%nat)) 0 0 false 0 4.

Definition restart_game (st : PuyoGame) : PuyoGame :=
  let n := drawn st in
  mkPuyoGame default_grid (new_pair_default (rnd n) (rnd (S n)))
             (new_pair_default (rnd (S (S n))) (rnd (S (S (S n)))))
             0 0 false 0 (S (S (S (S n)))).

(** The landing sequence shared by the hard drop and the fall tick. *)
Definition land (st : PuyoGame) : option PuyoGame :=
  st ← place_current_pair st;
  st ← process_chains st;
  Some (spawn_new_pair st).

Definition handle_input (event : Event) (st : PuyoGame) : option PuyoGame :=
  match event with
  | KEYDOWN key =>
    if negb (game_over st) then
      match key with
      | K_LEFT =>
        Some (if can_move_pair st (-1) 0 then move_current st (-1) 0 else st)
      | K_RIGHT =>
        Some (if can_move_pair st 1 0 then move_current st 1 0 else st)
      | K_DOWN =>
        Some (if can_move_pair st 0 1 then move_current st 0 1 else st)
      | K_UP =>
        st ← drop_loop (drop_fuel st) st;
        land st
      | K_z | K_x =>
        Some (if can_rotate_pair st true
              then set_current st (rotate_clockwise (current_pair st))
              else st)
      | K_c =>
        Some (if can_rotate_pair st false
              then set_current st (rotate_counter_clockwise (current_pair st))
              else st)
      | _ => Some st
      end
    else
      match key with
      | K_r => Some (restart_game st)
      | _ => Some st
      end
  | OTHER_EVENT => Some st
  end.

(** [update(dt)]; [down_held] is [keys[pygame.K_DOWN]]. *)
Definition update (dt : Z) (down_held : bool) (st : PuyoGame)
  : option PuyoGame :=
  if game_over st then Some st
  else
    let current_fall_speed :=
      if down_held then soft_drop_speed else fall_speed in
    let st := set_timer st (fall_timer st + dt) in
    if bool_decide (current_fall_speed ≤ fall_timer st) then
      let st := set_timer st 0 in
      if can_move_pair st 0 1 then Some (move_current st 0 1)
      else land st
    else Some st.

Definition step (i : Input) (st : PuyoGame) : option PuyoGame :=
  match i with
  | IEvent e => handle_input e st
  | ITick dt down_held => update dt down_held st
  end.

Fixpoint run (inputs : list Input) (st : PuyoGame) : option PuyoGame :=
  match inputs with
  | [] => Some st
  | i :: inputs => st ← step i st; run inputs st
  end.

End Random.

(** ** Notions the statements use *)

(** Column [x] of the grid, top row first. *)
Definition column (g : GameGrid) (x : Z) : list Z :=
  cell g x <$> seqZ 0 (height g).

(** A column with its non-empty cells moved to the bottom in their order. *)
Definition compact (col : list Z) : list Z :=
  let kept := filter (λ c, c ≠ 0) col in
  replicate (length col - length kept)%nat 0 ++ kept.

(** The in-range coordinates, column by column, and the number of
    occupied cells. *)
Definition cells (g : GameGrid) : list (Z * Z) :=
  x ← seqZ 0 (width g); (λ y, (x, y)) <$> seqZ 0 (height g).

Definition occupied (g : GameGrid) : nat :=
  length (filter (λ p, cell g p.1 p.2 ≠ 0) (cells g)).

(** Groups.  Two cells are adjacent when one is directly above, below,
    left or right of the other; a step of colour [c] joins two adjacent
    in-range cells that both hold [c]; two cells are connected when steps
    of the first cell's colour lead from one to the other. *)
Definition adjacent (p q : Z * Z) : Prop :=
  q = (p.1, p.2 + 1) ∨ q = (p.1, p.2 - 1) ∨
  q = (p.1 + 1, p.2) ∨ q = (p.1 - 1, p.2).

Definition inside (g : GameGrid) (p : Z * Z) : Prop := in_bounds g p.1 p.2.

Definition color_at (g : GameGrid) (p : Z * Z) : Z := cell g p.1 p.2.

Definition link (g : GameGrid) (c : Z) (p q : Z * Z) : Prop :=
  adjacent p q ∧ inside g p ∧ inside g q ∧ color_at g p = c ∧ color_at g q = c.

Definition connected (g : GameGrid) (p q : Z * Z) : Prop :=
  rtc (link g (color_at g p)) p q.

(** A cell qualifies for clearing: it is in range, not empty, and at least
    four distinct cells are connected to it (its group has size >= 4). *)
Definition qualifies (g : GameGrid) (p : Z * Z) : Prop :=
  inside g p ∧ color_at g p ≠ 0 ∧
  ∃ l : list (Z * Z), NoDup l ∧ (4 ≤ length l)%nat ∧ ∀ q, q ∈ l → connected g p q.

(** A list of group representatives: distinct qualifying cells, no two in
    the same group, one for every qualifying cell. *)
Definition representatives (g : GameGrid) (reps : list (Z * Z)) : Prop :=
  NoDup reps ∧
  (∀ r, r ∈ reps → qualifies g r) ∧
  (∀ r r', r ∈ reps → r' ∈ reps → connected g r r' → r = r') ∧
  (∀ p, qualifies g p → ∃ r, r ∈ reps ∧ connected g r p).

(** The order in which [find_and_clear_groups] visits the cells: rows from
    the top, each row from the left. *)
Definition scan_order (g : GameGrid) : list (Z * Z) :=
  y ← seqZ 0 (height g); (λ x, (x, y)) <$> seqZ 0 (width g).

(** The index a Python list of length [n] reads for [i], if any. *)
Definition py_norm (n i : Z) : option Z :=
  if bool_decide (0 ≤ i < n) then Some i
  else if bool_decide (- n ≤ i < 0) then Some (n + i)
  else None.

(** The other order of settling, to compare [place_pair] with: the sub cell
    first, then the main cell.  The source only has the order of
    [place_pair]. *)
Definition place_pair_sub_first (g : GameGrid) (p : PuyoPair)
  : option GameGrid :=
  let '(main_pos, sub_pos) := get_positions p in
  g ← settle g sub_pos (sub_color p);
  settle g main_pos (main_color p).

(** The clearing passes of a chain: for each pass that clears something,
    its [(cleared_count, groups_cleared)], and the grid the loop ends on.
    [fuel] bounds the number of passes. *)
Fixpoint chain_passes (fuel : nat) (g : GameGrid)
  : option (list (Z * Z) * GameGrid) :=
  match fuel with
  | O => None
  | S fuel =>
    '(cleared_count, groups_cleared, g) ←
      find_and_clear_groups (apply_gravity g);
    if bool_decide (cleared_count = 0) then Some ([], g)
    else
      '(passes, g) ← chain_passes fuel g;
      Some ((cleared_count, groups_cleared) :: passes, g)
  end.

(** The points of a list of passes, the first of which is pass number
    [chain + 1]. *)
Fixpoint chain_score (chain : Z) (passes : list (Z * Z)) : Z :=
  match passes with
  | [] => 0
  | (cleared_count, groups_cleared) :: passes =>
    cleared_count * 10 * Z.max 1 ((chain + 1) * 2) * groups_cleared
    + chain_score (chain + 1) passes
  end.

#[global] Instance wf_dec (g : GameGrid) : Decision (wf g).
Proof. unfold wf. apply _. Defined.

(** A cell a puyo can occupy: in range and empty. *)
Definition occupiable (g : GameGrid) (x y : Z) : Prop :=
  in_bounds g x y ∧ cell g x y = 0.

(** ** Notions the proofs about the flood fill use *)

(** The in-range cells as a set, and the cells a fill can still visit. *)
Definition all_cells (g : GameGrid) : gset (Z * Z) := list_to_set (cells g).

Definition unvisited (g : GameGrid) (V : gset (Z * Z)) : nat :=
  size (all_cells g ∖ V).

(** [closed g F V]: every visited cell outside the frontier [F] has all
    its same-coloured in-range neighbours visited. *)
Definition closed (g : GameGrid) (F V : gset (Z * Z)) : Prop :=
  ∀ u v, u ∈ V → u ∉ F → adjacent u v → inside g v →
         color_at g v = color_at g u → v ∈ V.

Definition reach (g : GameGrid) (c : Z) (p q : Z * Z) : Prop :=
  inside g p ∧ color_at g p = c ∧ rtc (link g c) p q.

(** What a fill from [(x, y)] with [n] nested calls left guarantees. *)
Definition fill_ok (g : GameGrid) (c : Z)
    (rec : Z → Z → gset (Z * Z) → option (gset (Z * Z) * gset (Z * Z)))
    (n : nat) : Prop :=
  ∀ x y V F, (unvisited g V < n)%nat → closed g F V →
    ∃ R V', rec x y V = Some (R, V')
      ∧ V' = V ∪ R ∧ R ## V
      ∧ (∀ q, q ∈ R → reach g c (x, y) q)
      ∧ closed g F V'
      ∧ (inside g (x, y) → color_at g (x, y) = c → (x, y) ∈ V').

(** The invariant of the scan of [find_and_clear_groups] after the cells
    [done]; the state is [(visited, to_clear, groups_cleared)]. *)
Definition scan_inv (g : GameGrid) (done : list (Z * Z))
    (st : gset (Z * Z) * gset (Z * Z) * Z) : Prop :=
  let '(V, T, k) := st in
  closed g ∅ V
  ∧ (∀ u, u ∈ V → inside g u ∧ color_at g u ≠ 0)
  ∧ (∀ p, p ∈ done → color_at g p ≠ 0 → p ∈ V)
  ∧ T ⊆ V
  ∧ (∀ u, u ∈ V → u ∈ T ↔ qualifies g u)
  ∧ (T = ∅ ∨ 4 ≤ Z.of_nat (size T))
  ∧ ∃ reps : list (Z * Z),
      k = Z.of_nat (length reps) ∧ NoDup reps
      ∧ (∀ r, r ∈ reps → r ∈ T)
      ∧ (∀ r r', r ∈ reps → r' ∈ reps → connected g r r' → r = r')
      ∧ (∀ u, u ∈ T → ∃ r, r ∈ reps ∧ connected g r u).

(** The occupied cells as a set. *)
Definition occupied_set (g : GameGrid) : gset (Z * Z) :=
  list_to_set (filter (λ p, cell g p.1 p.2 ≠ 0) (cells g)).

(** When the scan of [settle_row] raises: the row below is outside the
    list from the start, or the column is. *)
Definition settle_raises (g : GameGrid) (x y : Z) : Prop :=
  y + 1 < height g ∧ (y + 1 < - height g ∨ ¬ (- width g ≤ x < width g)).

(** ** Boards and states of the examples *)

(** Two separate squares of four, colour 1 and colour 2, on the floor. *)
Definition two_groups_grid : GameGrid :=
  mkGameGrid 6 12
    (replicate 10%nat [0; 0; 0; 0; 0; 0]
     ++ [[1; 1; 0; 2; 2; 0]; [1; 1; 0; 2; 2; 0]]).

(** Column 2 filled from the floor up to row 1, colours alternating. *)
Definition stacked_column_grid : GameGrid :=
  foldl (λ g y, set_cell g 2 y (1 + y mod 2)) default_grid (seqZ 1 11).

(** A running game on a given board. *)
Definition game_on (g : GameGrid) (cur nxt : PuyoPair) : PuyoGame :=
  mkPuyoGame g cur nxt 0 0 false 0 0.

(** A pair standing upright on the floor of column 2: main in row 11, sub
    above it in row 10. *)
Definition upright_pair : PuyoPair := set_rotation (new_pair 1 2 2 11) 3.

(** A pair in the top row of column 2 with its sub cell above the board. *)
Definition overhanging_pair : PuyoPair := set_rotation (new_pair 3 4 2 0) 3.

Definition three_hard_drops : list Input :=
  [IEvent (KEYDOWN K_UP); IEvent (KEYDOWN K_UP); IEvent (KEYDOWN K_UP)].

(** ** Notions of the further properties *)

(** A board on which nothing floats: below a non-empty cell of a column
    there are only non-empty cells. *)
Definition settled (g : GameGrid) : Prop :=
  ∀ x y y', in_bounds g x y → y < y' < height g →
            cell g x y ≠ 0 → cell g x y' ≠ 0.

(** The sub cell of a pair, as [get_positions] computes it. *)
Definition sub_position (p : PuyoPair) : Position := (get_positions p).2.

(** The states the game keeps to: a rectangular board, rotation states in
    [0 .. 3], and, while the game is running, a current pair on free
    cells. *)
Definition game_ok (st : PuyoGame) : Prop :=
  wf (pg_grid st)
  ∧ 0 ≤ rotation_state (current_pair st) < 4
  ∧ (game_over st = false →
     can_place_pair (pg_grid st) (current_pair st) = true).

(** The inputs that leave a finished game as it is: everything but the
    restart key. *)
Definition is_restart (i : Input) : bool :=
  match i with
  | IEvent (KEYDOWN K_r) => true
  | _ => false
  end.

(** The colours of column [x] from the top, the empty cells left out. *)
Definition stack (g : GameGrid) (x : Z) : list Z :=
  filter (λ c, c ≠ 0) (column g x).

(** Colours as [random.randint(1, 5)] draws them: 0 to 5 on the board,
    1 to 5 in the two pairs. *)
Definition colors_ok (st : PuyoGame) : Prop :=
  (∀ x y, in_bounds (pg_grid st) x y → 0 ≤ cell (pg_grid st) x y ≤ 5)
  ∧ 1 ≤ main_color (current_pair st) ≤ 5
  ∧ 1 ≤ sub_color (current_pair st) ≤ 5
  ∧ 1 ≤ main_color (next_pair st) ≤ 5
  ∧ 1 ≤ sub_color (next_pair st) ≤ 5.

(** ** Notions of the claim on moves and rotations *)

#[global] Instance occupiable_dec (g : GameGrid) (x y : Z) :
  Decision (occupiable g x y).
Proof. unfold occupiable, in_bounds. apply _. Defined.

(** The sub cell of a pair with anchor [(x, y)], in the spec's words: right
    of, below, left of or above the anchor for rotation state 0, 1, 2, 3. *)
Definition sub_cell (x y r : Z) : Z * Z :=
  if bool_decide (r = 0) then (x + 1, y)
  else if bool_decide (r = 1) then (x, y + 1)
  else if bool_decide (r = 2) then (x - 1, y)
  else (x, y - 1).

(** [canPlacePair] in the spec's words, for a pair with anchor [(x, y)] in
    rotation state [r]: the anchor cell and the sub cell are both
    occupiable. *)
Definition pair_fits (g : GameGrid) (x y r : Z) : bool :=
  bool_decide (occupiable g x y
               ∧ occupiable g (sub_cell x y r).1 (sub_cell x y r).2).

(** The state with the live pair at anchor [(x, y)] in rotation state [r]
    and everything else as it was. *)
Definition with_pair (st : PuyoGame) (x y r : Z) : PuyoGame :=
  mkPuyoGame (pg_grid st)
    (mkPuyoPair (mkPosition x y) (sub_puyo (current_pair st))
                (main_color (current_pair st)) (sub_color (current_pair st))
                r)
    (next_pair st) (score st) (chain_count st) (game_over st)
    (fall_timer st) (drawn st).

(** A proposed placement of the live pair: committed when the pair fits
    there, and otherwise the state as it was. *)
Definition try_pair (st : PuyoGame) (x y r : Z) : PuyoGame :=
  if pair_fits (pg_grid st) x y r then with_pair st x y r else st.

(** The keys that move or turn the pair. *)
Definition pair_keys : list Key := [K_LEFT; K_RIGHT; K_DOWN; K_z; K_x; K_c].

(** A game whose spawn cell [(3, 0)] is taken. *)
Definition blocked_spawn_game : PuyoGame :=
  mkPuyoGame (set_cell default_grid 3 0 5) (new_pair_default 1 2)
             (new_pair_default 3 4) 70 2 false 120 6.

(** ** The redraw inside [process_chains]

    [process_chains] redraws the window after every clearing pass.  Of
    [draw], what can raise is modelled: the list accesses of [draw_grid]
    over the 12 rows and 6 columns of the window, the access
    [offsets[self.rotation_state]] of [get_positions], and the lookups
    [PUYO_COLORS[color]], which raise [KeyError] for a colour that is no key
    of the dictionary.  The pygame calls, which draw and do not touch the
    state, are left out. *)

(** The keys of [PUYO_COLORS]. *)
Definition PUYO_COLORS : list Z := [0; 1; 2; 3; 4; 5].

(** [draw_puyo], of which only the lookup can raise. *)
Definition draw_puyo (x y color : Z) : option unit :=
  if bool_decide (color ∈ PUYO_COLORS) then Some () else None.

(** [get_positions] with the [IndexError] of the list access. *)
Definition get_positions_checked (p : PuyoPair)
  : option (Position * Position) :=
  offset ← py_get offsets (rotation_state p);
  Some (main_puyo p, pos_add (main_puyo p) offset).

Definition draw_grid (st : PuyoGame) : option unit :=
  _ ← foldl (λ acc y,
               foldl (λ acc x,
                        _ ← acc;
                        color ← py_cell (pg_grid st) x y;
                        if bool_decide (color ≠ 0) then draw_puyo x y color
                        else Some ())
                     acc (seqZ 0 GRID_WIDTH))
            (Some ()) (seqZ 0 GRID_HEIGHT);
  if negb (game_over st) then
    '(main_pos, sub_pos) ← get_positions_checked (current_pair st);
    _ ← (if bool_decide (0 ≤ pos_y main_pos < GRID_HEIGHT)
         then draw_puyo (pos_x main_pos) (pos_y main_pos)
                        (main_color (current_pair st))
         else Some ());
    if bool_decide (0 ≤ pos_y sub_pos < GRID_HEIGHT)
    then draw_puyo (pos_x sub_pos) (pos_y sub_pos)
                   (sub_color (current_pair st))
    else Some ()
  else Some ().

Definition draw_next_puyo (st : PuyoGame) : option unit :=
  _ ← (if bool_decide (main_color (next_pair st) ∈ PUYO_COLORS)
       then Some () else None);
  if bool_decide (sub_color (next_pair st) ∈ PUYO_COLORS)
  then Some () else None.

(** [draw]; [draw_ui] and [draw_game_over] only render text. *)
Definition draw (st : PuyoGame) : option unit :=
  _ ← draw_grid st;
  draw_next_puyo st.

(** [process_chains] with its redraw. *)
Fixpoint process_chains_redraw_loop (fuel : nat) (st : PuyoGame)
  : option PuyoGame :=
  match fuel with
  | O => None
  | S fuel =>
    '(cleared_count, groups_cleared, g) ←
      find_and_clear_groups (apply_gravity (pg_grid st));
    let st := set_grid st g in
    if bool_decide (cleared_count = 0) then Some st
    else
      let st := set_chain st (chain_count st + 1) in
      let base_score := cleared_count * 10 in
      let chain_bonus := Z.max 1 (chain_count st * 2) in
      let group_bonus := groups_cleared in
      let st :=
        set_score st (score st + base_score * chain_bonus * group_bonus) in
      _ ← draw st;
      process_chains_redraw_loop fuel st
  end.

Definition process_chains_redraw (st : PuyoGame) : option PuyoGame :=
  process_chains_redraw_loop (chain_fuel (pg_grid st)) (set_chain st 0).

Section Redraw.

Variable rnd : nat → Z.

(** The landing sequence, [handle_input] and [update] with the
    [process_chains] that redraws. *)
Definition land_redraw (st : PuyoGame) : option PuyoGame :=
  st ← place_current_pair st;
  st ← process_chains_redraw st;
  Some (spawn_new_pair rnd st).

Definition handle_input_redraw (event : Event) (st : PuyoGame)
  : option PuyoGame :=
  match event with
  | KEYDOWN key =>
    if negb (game_over st) then
      match key with
      | K_LEFT =>
        Some (if can_move_pair st (-1) 0 then move_current st (-1) 0 else st)
      | K_RIGHT =>
        Some (if can_move_pair st 1 0 then move_current st 1 0 else st)
      | K_DOWN =>
        Some (if can_move_pair st 0 1 then move_current st 0 1 else st)
      | K_UP =>
        st ← drop_loop (drop_fuel st) st;
        land_redraw st
      | K_z | K_x =>
        Some (if can_rotate_pair st true
              then set_current st (rotate_clockwise (current_pair st))
              else st)
      | K_c =>
        Some (if can_rotate_pair st false
              then set_current st (rotate_counter_clockwise (current_pair st))
              else st)
      | _ => Some st
      end
    else
      match key with
      | K_r => Some (restart_game rnd st)
      | _ => Some st
      end
  | OTHER_EVENT => Some st
  end.

Definition update_redraw (dt : Z) (down_held : bool) (st : PuyoGame)
  : option PuyoGame :=
  if game_over st then Some st
  else
    let current_fall_speed :=
      if down_held then soft_drop_speed else fall_speed in
    let st := set_timer st (fall_timer st + dt) in
    if bool_decide (current_fall_speed ≤ fall_timer st) then
      let st := set_timer st 0 in
      if can_move_pair st 0 1 then Some (move_current st 0 1)
      else land_redraw st
    else Some st.

Definition step_redraw (i : Input) (st : PuyoGame) : option PuyoGame :=
  match i with
  | IEvent e => handle_input_redraw e st
  | ITick dt down_held => update_redraw dt down_held st
  end.

Fixpoint run_redraw (inputs : list Input) (st : PuyoGame)
  : option PuyoGame :=
  match inputs with
  | [] => Some st
  | i :: inputs => st ← step_redraw i st; run_redraw inputs st
  end.

End Redraw.

(** The states of the game as it is played: a state the game keeps to, on
    the 6 x 12 board the window shows, with colours as they are drawn. *)
Definition playable (st : PuyoGame) : Prop :=
  game_ok st ∧ colors_ok st
  ∧ width (pg_grid st) = GRID_WIDTH ∧ height (pg_grid st) = GRID_HEIGHT.

(** A board with a cell of colour 6, which no draw gives: two squares of
    four next to it. *)
Definition off_palette_game : PuyoGame :=
  game_on (set_cell two_groups_grid 5 11 6)
          (new_pair_default 1 2) (new_pair_default 3 4).

(** * Properties *)

(** ** Cells of a well-formed grid *)

Section GridFacts.

Implicit Types g : GameGrid.

Lemma wf_new_grid w h : wf (new_grid w h).
Proof.
  split; simpl.
  - by rewrite length_replicate.
  - apply Forall_replicate. by rewrite length_replicate.
Qed.

Lemma cell_new_grid w h x y : cell (new_grid w h) x y = 0.
Proof.
  unfold cell, new_grid; simpl.
  destruct (replicate (Z.to_nat h) (replicate (Z.to_nat w) 0) !! Z.to_nat y)
    as [row|] eqn:E; [|done].
  apply lookup_replicate in E as [-> _]. simpl.
  destruct (replicate (Z.to_nat w) 0 !! Z.to_nat x) as [c|] eqn:E'; [|done].
  by apply lookup_replicate in E' as [-> _].
Qed.

Lemma set_cell_wf g x y v : wf g → wf (set_cell g x y v).
Proof.
  intros [Hl Hr]. split; simpl.
  - by rewrite length_alter.
  - apply Forall_lookup. intros i row Hi.
    destruct (decide (i = Z.to_nat y)) as [->|Hne].
    + rewrite list_lookup_alter_eq in Hi.
      destruct (grid g !! Z.to_nat y) as [r|] eqn:E; simpl in Hi; [|done].
      injection Hi as <-.
      rewrite length_insert. by eapply (Forall_lookup_1 _ _ _ _ Hr).
    + rewrite list_lookup_alter_ne in Hi by done.
      by eapply (Forall_lookup_1 _ _ _ _ Hr).
Qed.

Lemma cell_set_cell g x y v x' y' :
  wf g → 0 ≤ x < width g → 0 ≤ y < height g → 0 ≤ x' → 0 ≤ y' →
  cell (set_cell g x y v) x' y' =
    if decide (x' = x ∧ y' = y) then v else cell g x' y'.
Proof.
  intros [Hl Hr] Hx Hy Hx' Hy'. unfold cell, set_cell; simpl.
  destruct (decide (y' = y)) as [->|Hny].
  - rewrite list_lookup_alter_eq.
    destruct (grid g !! Z.to_nat y) as [row|] eqn:E; simpl.
    + assert (length row = Z.to_nat (width g)) as Hrow
        by by eapply (Forall_lookup_1 _ _ _ _ Hr).
      destruct (decide (x' = x)) as [->|Hnx].
      * rewrite list_lookup_insert_eq by lia.
        by rewrite decide_True.
      * rewrite list_lookup_insert_ne by lia.
        rewrite decide_False; [done | by intros [? _]].
    + apply lookup_ge_None in E. lia.
  - rewrite list_lookup_alter_ne by lia.
    rewrite decide_False; [done | by intros [_ ?]].
Qed.

Lemma cell_set_cell_eq g x y v :
  wf g → 0 ≤ x < width g → 0 ≤ y < height g →
  cell (set_cell g x y v) x y = v.
Proof.
  intros. rewrite cell_set_cell by first [done|lia]. by rewrite decide_True.
Qed.

Lemma cell_set_cell_ne g x y v x' y' :
  wf g → 0 ≤ x < width g → 0 ≤ y < height g → 0 ≤ x' → 0 ≤ y' →
  (x', y') ≠ (x, y) →
  cell (set_cell g x y v) x' y' = cell g x' y'.
Proof.
  intros ????? Hne. rewrite cell_set_cell by first [done|lia].
  rewrite decide_False; [done | intros [-> ->]; by apply Hne].
Qed.

(** Two well-formed grids of the same size with the same cells are the
    same grid. *)
Lemma grid_ext g1 g2 :
  wf g1 → wf g2 → width g1 = width g2 → height g1 = height g2 →
  (∀ x y, in_bounds g1 x y → cell g1 x y = cell g2 x y) →
  g1 = g2.
Proof.
  destruct g1 as [w1 h1 r1], g2 as [w2 h2 r2]; simpl.
  intros [Hl1 Hr1] [Hl2 Hr2] -> -> Hc; simpl in *. f_equal.
  apply list_eq_same_length with (Z.to_nat h2); [done..|].
  intros i row1 row2 Hi H1 H2.
  assert (length row1 = Z.to_nat w2) as L1
    by by eapply (Forall_lookup_1 _ _ _ _ Hr1).
  assert (length row2 = Z.to_nat w2) as L2
    by by eapply (Forall_lookup_1 _ _ _ _ Hr2).
  apply list_eq_same_length with (Z.to_nat w2); [done..|].
  intros j c1 c2 Hj C1 C2.
  specialize (Hc (Z.of_nat j) (Z.of_nat i)).
  unfold cell, in_bounds in Hc; simpl in Hc.
  rewrite !Nat2Z.id, H1, H2 in Hc; simpl in Hc.
  rewrite C1, C2 in Hc; simpl in Hc. apply Hc. lia.
Qed.

Lemma place_puyo_wf g x y c : wf g → wf (place_puyo g x y c).
Proof.
  intros. unfold place_puyo. case_bool_decide; [by apply set_cell_wf | done].
Qed.

Lemma place_puyo_width g x y c : width (place_puyo g x y c) = width g.
Proof. unfold place_puyo. by case_bool_decide. Qed.

Lemma place_puyo_height g x y c : height (place_puyo g x y c) = height g.
Proof. unfold place_puyo. by case_bool_decide. Qed.

End GridFacts.

(** ** Gravity *)

Section Gravity.

Implicit Types g : GameGrid.

Lemma column_lookup g x y :
  0 ≤ y < height g → column g x !! Z.to_nat y = Some (cell g x y).
Proof.
  intros Hy. unfold column. rewrite list_lookup_fmap.
  rewrite lookup_seqZ_lt by lia. simpl. do 2 f_equal. lia.
Qed.

Lemma length_column g x : length (column g x) = Z.to_nat (height g).
Proof. unfold column. by rewrite length_fmap, length_seqZ. Qed.

(** The first loop: collect and zero the cells of the rows [ys]. *)
Lemma gravity_collect_spec x ys : ∀ g puyos,
  wf g → 0 ≤ x < width g → NoDup ys →
  Forall (λ y, 0 ≤ y < height g) ys →
  ∃ g', foldl (gravity_collect x) (puyos, g) ys
        = (puyos ++ filter (λ c, c ≠ 0) (cell g x <$> ys), g')
    ∧ wf g' ∧ width g' = width g ∧ height g' = height g
    ∧ ∀ x' y', 0 ≤ x' → 0 ≤ y' →
        cell g' x' y' = if decide (x' = x ∧ y' ∈ ys) then 0 else cell g x' y'.
Proof.
  induction ys as [|y ys IH]; intros g puyos Hwf Hx Hnd Hys.
  - exists g. simpl. rewrite app_nil_r. split_and!; try done.
    intros x' y' _ _. destruct (decide (x' = x ∧ y' ∈ [])) as [[_ H']|]; [|done].
    by inversion H'.
  - apply NoDup_cons in Hnd as [Hy Hnd].
    apply Forall_cons in Hys as [Hyr Hys].
    destruct (IH (set_cell g x y 0)
                (if bool_decide (cell g x y ≠ 0)
                 then puyos ++ [cell g x y] else puyos))
      as (g' & Hf & Hwf' & Hw & Hh & Hc);
      [by apply set_cell_wf | done | done | done |].
    exists g'. cbn [foldl].
    change (gravity_collect x (puyos, g) y)
      with (if bool_decide (cell g x y ≠ 0)
            then puyos ++ [cell g x y] else puyos, set_cell g x y 0).
    rewrite Hf.
    split; [|split_and!; try done].
    + f_equal. rewrite fmap_cons.
      assert (cell (set_cell g x y 0) x <$> ys = cell g x <$> ys) as ->.
      { apply list_fmap_ext. intros i y' Hi.
        apply cell_set_cell_ne; try done; try lia.
        - eapply Forall_lookup_1 in Hys; [|done]. simpl in Hys. lia.
        - intros [= ->]. apply Hy. by eapply list_elem_of_lookup_2. }
      case_bool_decide.
      * rewrite filter_cons_True by done. by rewrite <-app_assoc.
      * rewrite filter_cons_False; [done|]. intros Hne. by apply Hne.
    + intros x' y' Hx' Hy'. rewrite Hc by done.
      rewrite cell_set_cell by first [done|lia].
      destruct (decide (x' = x ∧ y' ∈ ys)) as [[-> Hin]|Hn].
      * rewrite decide_True; [done|]. split; [done|]. by right.
      * destruct (decide (x' = x ∧ y' = y)) as [[-> ->]|Hn'].
        -- rewrite decide_True; [done|]. split; [done|]. by left.
        -- rewrite decide_False; [done|]. intros [-> Hin].
           apply elem_of_cons in Hin as [->|Hin]; [by apply Hn'|by apply Hn].
Qed.

(** The second loop: write the collected cells from the bottom row up. *)
Lemma gravity_write_spec x h puyos : ∀ g,
  wf g → 0 ≤ x < width g → h = height g →
  (length puyos ≤ Z.to_nat h)%nat →
  ∃ g', foldl (λ g1 '(i, puyo), set_cell g1 x (h - 1 - i) puyo)
              g (enumerate puyos) = g'
    ∧ wf g' ∧ width g' = width g ∧ height g' = height g
    ∧ ∀ x' y', 0 ≤ x' → 0 ≤ y' < h →
        cell g' x' y' =
          if decide (x' = x)
          then default (cell g x' y') (puyos !! Z.to_nat (h - 1 - y'))
          else cell g x' y'.
Proof.
  induction puyos as [|p puyos IH] using rev_ind; intros g Hwf Hx -> Hlen.
  - exists g. simpl. split_and!; try done.
    intros. by case_decide.
  - rewrite length_app in Hlen. simpl in Hlen.
    destruct (IH g) as (g1 & Hf & Hwf1 & Hw1 & Hh1 & Hc1);
      [done|done|done|lia|].
    unfold enumerate in *. rewrite imap_app, foldl_app, Hf. simpl.
    rewrite Nat.add_0_r.
    eexists. split; [done|].
    split; [by apply set_cell_wf|]. split; [done|]. split; [done|].
    intros x' y' Hx' Hy'.
    rewrite cell_set_cell by first [done|lia]. rewrite Hc1 by done.
    destruct (decide (x' = x)) as [->|Hne].
    + destruct (decide (y' = height g - 1 - Z.of_nat (length puyos)))
        as [->|Hny].
      * rewrite decide_True by done.
        replace (Z.to_nat (height g - 1 -
                  (height g - 1 - Z.of_nat (length puyos))))
          with (length puyos) by lia.
        by rewrite list_lookup_middle.
      * rewrite decide_False by (intros [_ ?]; done).
        destruct (decide (Z.to_nat (height g - 1 - y') < length puyos)%nat).
        -- by rewrite lookup_app_l by done.
        -- rewrite !(proj2 (lookup_ge_None _ _)); [done| |lia].
           rewrite length_app. simpl. lia.
    + rewrite decide_False; [done|]. by intros [? _].
Qed.

Lemma compact_lookup col i :
  (i < length col)%nat →
  compact col !! i =
    Some (default 0 (reverse (filter (λ c, c ≠ 0) col)
                       !! (length col - 1 - i)%nat)).
Proof.
  intros Hi. unfold compact.
  set (F := filter (λ c, c ≠ 0) col).
  assert (length F ≤ length col)%nat as HF by apply length_filter.
  destruct (decide (i < length col - length F)%nat) as [Hlt|Hge].
  - rewrite lookup_app_l by (rewrite length_replicate; lia).
    rewrite lookup_replicate_2 by done.
    rewrite (proj2 (lookup_ge_None _ _)); [done|].
    rewrite length_reverse. lia.
  - rewrite lookup_app_r by (rewrite length_replicate; lia).
    rewrite length_replicate.
    rewrite reverse_lookup by lia.
    replace (length F - S (length col - 1 - i))%nat
      with (i - (length col - length F))%nat by lia.
    destruct (F !! (i - (length col - length F))%nat) eqn:E; [done|].
    apply lookup_ge_None in E. lia.
Qed.

Lemma gravity_column_spec g x :
  wf g → 0 ≤ x < width g →
  wf (gravity_column g x)
  ∧ width (gravity_column g x) = width g
  ∧ height (gravity_column g x) = height g
  ∧ column (gravity_column g x) x = compact (column g x)
  ∧ ∀ x', 0 ≤ x' → x' ≠ x →
      column (gravity_column g x) x' = column g x'.
Proof.
  intros Hwf Hx. unfold gravity_column.
  destruct (gravity_collect_spec x (reverse (seqZ 0 (height g))) g [])
    as (g1 & Hf & Hwf1 & Hw1 & Hh1 & Hc1); [done|done| | |].
  { rewrite reverse_Permutation. apply NoDup_seqZ. }
  { apply Forall_reverse, Forall_seqZ. intros; lia. }
  rewrite Hf. simpl app.
  rewrite fmap_reverse, filter_reverse. fold (column g x).
  set (F := filter (λ c, c ≠ 0) (column g x)).
  assert (length F ≤ Z.to_nat (height g))%nat as HF.
  { unfold F. etrans; [apply length_filter|]. by rewrite length_column. }
  destruct (gravity_write_spec x (height g) (reverse F) g1)
    as (g2 & Hf2 & Hwf2 & Hw2 & Hh2 & Hc2);
    [done|lia|done|rewrite length_reverse; lia|].
  rewrite Hf2.
  split; [done|]. split; [congruence|]. split; [congruence|].
  assert (∀ y, 0 ≤ y < height g → y ∈ reverse (seqZ 0 (height g))) as Hin.
  { intros y Hy. apply elem_of_reverse, elem_of_seqZ. lia. }
  split.
  - apply list_eq_same_length with (Z.to_nat (height g)).
    { unfold compact. fold F. rewrite length_app, length_replicate.
      rewrite length_column. lia. }
    { rewrite length_column. lia. }
    intros i a b Hi Ha Hb.
    rewrite compact_lookup in Hb by (rewrite length_column; lia).
    rewrite length_column in Hb. fold F in Hb.
    replace i with (Z.to_nat (Z.of_nat i)) in Ha by lia.
    rewrite column_lookup in Ha by lia.
    rewrite Hc2, decide_True in Ha by first [done|lia].
    rewrite Hc1, decide_True in Ha by (try split; try apply Hin; lia).
    replace (Z.to_nat (height g - 1 - Z.of_nat i))
      with (Z.to_nat (height g) - 1 - i)%nat in Ha by lia.
    congruence.
  - intros x' Hx' Hne. unfold column. rewrite Hh2, Hh1.
    apply list_fmap_ext. intros i y Hy.
    apply lookup_seqZ in Hy as [-> Hy].
    rewrite Hc2, decide_False by first [done|lia].
    rewrite Hc1, decide_False; [done| |lia|lia]. by intros [? _].
Qed.

Lemma apply_gravity_fold xs : ∀ g,
  wf g → NoDup xs → Forall (λ x, 0 ≤ x < width g) xs →
  wf (foldl gravity_column g xs)
  ∧ width (foldl gravity_column g xs) = width g
  ∧ height (foldl gravity_column g xs) = height g
  ∧ ∀ x, 0 ≤ x →
      column (foldl gravity_column g xs) x =
        if decide (x ∈ xs) then compact (column g x) else column g x.
Proof.
  induction xs as [|x0 xs IH]; intros g Hwf Hnd Hxs.
  - simpl. by split_and!.
  - apply NoDup_cons in Hnd as [Hx0 Hnd].
    apply Forall_cons in Hxs as [Hx0r Hxs].
    destruct (gravity_column_spec g x0) as (Hwf1 & Hw1 & Hh1 & Hc1 & Hc1');
      [done..|].
    destruct (IH (gravity_column g x0)) as (Hwf2 & Hw2 & Hh2 & Hc2);
      [done|done|by rewrite Hw1|].
    cbn [foldl]. split_and!; try congruence.
    intros x Hx. rewrite Hc2 by done.
    destruct (decide (x = x0)) as [->|Hne].
    + rewrite decide_False by done. rewrite decide_True by by left. done.
    + rewrite Hc1' by done.
      destruct (decide (x ∈ xs)).
      * rewrite decide_True by by right. done.
      * rewrite decide_False; [done|].
        intros [->|?]%elem_of_cons; done.
Qed.

Lemma apply_gravity_spec g :
  wf g →
  wf (apply_gravity g)
  ∧ width (apply_gravity g) = width g
  ∧ height (apply_gravity g) = height g
  ∧ ∀ x, 0 ≤ x < width g →
      column (apply_gravity g) x = compact (column g x).
Proof.
  intros Hwf. unfold apply_gravity.
  destruct (apply_gravity_fold (seqZ 0 (width g)) g)
    as (Hwf' & Hw & Hh & Hc); [done|apply NoDup_seqZ| |].
  { apply Forall_seqZ. intros; lia. }
  split_and!; try done.
  intros x Hx. rewrite Hc by lia. rewrite decide_True; [done|].
  apply elem_of_seqZ. lia.
Qed.

Lemma apply_gravity_wf g : wf g → wf (apply_gravity g).
Proof. intros H. by apply apply_gravity_spec. Qed.

Lemma apply_gravity_width g : wf g → width (apply_gravity g) = width g.
Proof. intros H. by apply apply_gravity_spec. Qed.

Lemma apply_gravity_height g : wf g → height (apply_gravity g) = height g.
Proof. intros H. by apply apply_gravity_spec. Qed.

(** What compaction does to a column. *)
Lemma filter_nonzero_idemp (col : list Z) :
  filter (λ c, c ≠ 0) (filter (λ c, c ≠ 0) col) = filter (λ c, c ≠ 0) col.
Proof.
  induction col as [|a col IH]; [done|].
  destruct (decide (a ≠ 0)).
  - rewrite !(filter_cons_True _ a) by done. by rewrite IH.
  - by rewrite !(filter_cons_False _ a) by done.
Qed.

Lemma filter_nonzero_zeros n :
  filter (λ c : Z, c ≠ 0) (replicate n 0) = [].
Proof.
  induction n as [|n IH]; [done|]. simpl.
  by rewrite filter_cons_False by (intros H; by apply H).
Qed.

Lemma compact_filter col :
  filter (λ c, c ≠ 0) (compact col) = filter (λ c, c ≠ 0) col.
Proof.
  unfold compact. cbv zeta.
  by rewrite filter_app, filter_nonzero_zeros, filter_nonzero_idemp.
Qed.

Lemma compact_perm col : compact col ≡ₚ col.
Proof.
  unfold compact. cbv zeta. induction col as [|a col IH]; [done|].
  pose proof (length_filter (λ c, c ≠ 0) col) as Hle.
  destruct (decide (a ≠ 0)) as [Ha|Ha].
  - rewrite filter_cons_True by done. simpl.
    rewrite <-Permutation_middle. by constructor.
  - rewrite filter_cons_False by done.
    cbn [length]. rewrite Nat.sub_succ_l by done. simpl.
    replace a with 0; [by constructor|].
    destruct (decide (a = 0)); [done|]. by destruct Ha.
Qed.

Lemma compact_settled col i j a b :
  compact col !! i = Some a → compact col !! j = Some b →
  (i < j)%nat → a ≠ 0 → b ≠ 0.
Proof.
  unfold compact. cbv zeta.
  set (F := filter (λ c, c ≠ 0) col).
  set (n := (length col - length F)%nat).
  intros Hi Hj Hij Ha.
  assert (n ≤ i)%nat as Hni.
  { destruct (decide (n ≤ i)%nat); [done|].
    rewrite lookup_app_l in Hi by (rewrite length_replicate; lia).
    apply lookup_replicate in Hi as [-> _]. done. }
  rewrite lookup_app_r in Hj by (rewrite length_replicate; lia).
  apply list_elem_of_lookup_2 in Hj.
  by apply list_elem_of_filter in Hj as [? _].
Qed.

(** Counting the occupied cells column by column. *)
Lemma length_filter_bind {A B} (P : B → Prop) `{∀ b, Decision (P b)}
    (f : A → list B) (l : list A) :
  length (filter P (l ≫= f))
  = sum_list ((λ a, length (filter P (f a))) <$> l).
Proof.
  induction l as [|a l IH]; [done|].
  rewrite bind_cons, filter_app, length_app, IH. done.
Qed.

Lemma length_filter_column g x (ys : list Z) :
  length (filter (λ p, cell g p.1 p.2 ≠ 0) ((λ y, (x, y)) <$> ys))
  = length (filter (λ c, c ≠ 0) (cell g x <$> ys)).
Proof.
  induction ys as [|y ys IH]; [done|]. rewrite !fmap_cons.
  destruct (decide (cell g x y ≠ 0)).
  - rewrite !filter_cons_True by done. simpl. by rewrite IH.
  - by rewrite !filter_cons_False by done.
Qed.

Lemma occupied_columns g :
  occupied g
  = sum_list ((λ x, length (filter (λ c, c ≠ 0) (column g x)))
                <$> seqZ 0 (width g)).
Proof.
  unfold occupied, cells. rewrite length_filter_bind. f_equal.
  apply list_fmap_ext. intros i x _. apply length_filter_column.
Qed.

Lemma apply_gravity_occupied g :
  wf g → occupied (apply_gravity g) = occupied g.
Proof.
  intros Hwf. destruct (apply_gravity_spec g Hwf) as (_ & Hw & _ & Hc).
  rewrite !occupied_columns, Hw. f_equal.
  apply list_fmap_ext. intros i x Hx. apply lookup_seqZ in Hx as [-> Hx].
  rewrite Hc by lia. by rewrite compact_filter.
Qed.

End Gravity.

(** ** The flood fill *)

Section FloodFill.

Variable g : GameGrid.

Lemma elem_of_cells p : p ∈ cells g ↔ inside g p.
Proof.
  unfold cells, inside, in_bounds. destruct p as [x y]; simpl. split.
  - intros (x' & Hy & Hx)%list_elem_of_bind.
    apply list_elem_of_fmap in Hy as (y' & [= -> ->] & Hy).
    apply elem_of_seqZ in Hx, Hy. lia.
  - intros [Hx Hy]. apply list_elem_of_bind. exists x. split.
    + apply list_elem_of_fmap. exists y. split; [done|].
      apply elem_of_seqZ. lia.
    + apply elem_of_seqZ. lia.
Qed.

Lemma NoDup_cells : NoDup (cells g).
Proof.
  unfold cells. apply NoDup_bind.
  - intros x1 x2 p _ _ (y1 & -> & _)%list_elem_of_fmap
                       (y2 & [= -> _] & _)%list_elem_of_fmap. done.
  - intros x _. apply NoDup_fmap_2; [|apply NoDup_seqZ].
    by intros y1 y2 [= ->].
  - apply NoDup_seqZ.
Qed.

Lemma elem_of_all_cells p : p ∈ (all_cells g) ↔ inside g p.
Proof. unfold all_cells. rewrite elem_of_list_to_set. apply elem_of_cells. Qed.

Lemma unvisited_add p V :
  inside g p → p ∉ V → (unvisited g ({[p]} ∪ V) < unvisited g V)%nat.
Proof.
  intros Hp HpV. unfold unvisited. apply subset_size.
  apply elem_of_all_cells in Hp. set_solver.
Qed.

Lemma unvisited_mono V V' : V ⊆ V' → (unvisited g V' ≤ unvisited g V)%nat.
Proof. intros HV. unfold unvisited. apply subseteq_size. set_solver. Qed.

Lemma unvisited_bound V :
  (unvisited g V < fill_depth g)%nat.
Proof.
  unfold unvisited, fill_depth. apply Nat.lt_succ_r.
  etrans; [apply (subseteq_size _ (all_cells g)); set_solver|].
  unfold all_cells. rewrite size_list_to_set by apply NoDup_cells.
  unfold cells. rewrite <-(length_seqZ 0 (width g)).
  induction (seqZ 0 (width g)) as [|x xs IH]; [done|].
  rewrite bind_cons, length_app, length_fmap, length_seqZ. simpl. lia.
Qed.

Lemma closed_self V : closed g V V.
Proof. intros u v Hu Hn. done. Qed.

Variable c : Z.

Lemma reach_inside p q : reach g c p q → inside g q ∧ color_at g q = c.
Proof.
  intros (Hp & Hc & Hr). induction Hr as [|p p' q Hl Hr IH]; [done|].
  destruct Hl as (_ & _ & ? & _ & ?). by apply IH.
Qed.

(** The loop over the four directions. *)
Lemma visit_neighbours rec n x y V F dirs :
  fill_ok g c rec n →
  inside g (x, y) → color_at g (x, y) = c →
  (∀ d, d ∈ dirs → adjacent (x, y) (x + d.1, y + d.2)) →
  ∀ R0 V0,
    (unvisited g V0 < n)%nat → V0 = V ∪ R0 → R0 ## V →
    (∀ q, q ∈ R0 → reach g c (x, y) q) →
    closed g (F ∪ {[ (x, y) ]}) V0 →
    ∃ R V',
      foldl (λ acc '(dx, dy),
               '(connected, visited) ← acc;
               '(new_connected, visited) ← rec (x + dx) (y + dy) visited;
               Some (connected ∪ new_connected, visited))
            (Some (R0, V0)) dirs = Some (R, V')
      ∧ V' = V ∪ R ∧ R ## V ∧ R0 ⊆ R
      ∧ (∀ q, q ∈ R → reach g c (x, y) q)
      ∧ closed g (F ∪ {[ (x, y) ]}) V'
      ∧ (∀ d, d ∈ dirs → inside g (x + d.1, y + d.2) →
           color_at g (x + d.1, y + d.2) = c → (x + d.1, y + d.2) ∈ V').
Proof.
  intros Hrec Hp Hpc. induction dirs as [|[dx dy] dirs IH];
    intros Hadj R0 V0 Hn HV0 Hdisj Hreach Hcl.
  - exists R0, V0. simpl. split_and!; try done. by inversion 1.
  - destruct (Hrec (x + dx) (y + dy) V0 (F ∪ {[ (x, y) ]}) Hn Hcl)
      as (R1 & V1 & Hcall & HV1 & Hdisj1 & Hreach1 & Hcl1 & Hin1).
    destruct (IH (λ d Hd, Hadj d (list_elem_of_further _ _ _ Hd))
                (R0 ∪ R1) V1)
      as (R & V' & Hfold & HV' & Hdisj' & Hsub & Hreach' & Hcl' & Hin').
    + eapply Nat.le_lt_trans; [apply unvisited_mono|exact Hn]. set_solver.
    + set_solver.
    + set_solver.
    + intros q [Hq|Hq]%elem_of_union; [by apply Hreach|].
      destruct (Hreach1 q Hq) as (Hn1 & Hc1 & Hr1).
      split_and!; try done.
      eapply rtc_l; [|exact Hr1]. split_and!; try done.
      apply (Hadj (dx, dy)). by left.
    + done.
    + exists R, V'. cbn [foldl mbind option_bind]. rewrite Hcall.
      cbn [mbind option_bind].
      split_and!; try done; [set_solver|].
      intros d [->|Hd]%elem_of_cons Hdi Hdc.
      * simpl in *. set_solver.
      * by apply Hin'.
Qed.

Lemma adjacent_directions x y d :
  d ∈ directions → adjacent (x, y) (x + d.1, y + d.2).
Proof.
  unfold directions, adjacent. rewrite !elem_of_cons, elem_of_nil. simpl.
  intros [ -> | [ -> | [ -> | [ -> | Hf ] ] ] ]; simpl;
    rewrite ?Z.add_0_r; tauto.
Qed.

Lemma adjacent_inv x y q :
  adjacent (x, y) q → ∃ d, d ∈ directions ∧ q = (x + d.1, y + d.2).
Proof.
  unfold directions, adjacent. simpl.
  intros [ -> | [ -> | [ -> | -> ] ] ].
  - exists (0, 1). split; [set_solver|]. simpl. f_equal; lia.
  - exists (0, -1). split; [set_solver|]. simpl. f_equal; lia.
  - exists (1, 0). split; [set_solver|]. simpl. f_equal; lia.
  - exists (-1, 0). split; [set_solver|]. simpl. f_equal; lia.
Qed.

Lemma find_connected_puyos_ok depth :
  fill_ok g c (λ x y V, find_connected_puyos depth g x y c V) depth.
Proof.
  induction depth as [|d IH]; intros x y V F Hn Hcl; [lia|].
  cbn [find_connected_puyos].
  case_bool_decide as Hvis.
  { exists ∅, V. split_and!; try done; set_solver. }
  case_bool_decide as Hout.
  { exists ∅, V. split_and!; try done; [set_solver..|].
    unfold inside, in_bounds, color_at; simpl. intros ? ?. lia. }
  assert (inside g (x, y)) as Hin.
  { unfold inside, in_bounds; simpl. lia. }
  assert (color_at g (x, y) = c) as Hc.
  { unfold color_at; simpl. destruct (decide (cell g x y = c)); [done|].
    destruct Hout. auto. }
  destruct (visit_neighbours _ d x y V F directions IH Hin Hc
              (adjacent_directions x y) {[ (x, y) ]} ({[ (x, y) ]} ∪ V))
    as (R & V' & Hfold & HV' & Hdisj & Hsub & Hreach & Hcl' & Hnb).
  - pose proof (unvisited_add (x, y) V Hin Hvis). lia.
  - set_solver.
  - set_solver.
  - intros q ->%elem_of_singleton. by split_and!.
  - intros u v Hu HuF Hadj Hv Hcol. set_solver.
  - exists R, V'. split_and!; try done.
    + intros u v Hu HuF Hadj Hv Hcol.
      destruct (decide (u = (x, y))) as [->|Hne].
      * apply adjacent_inv in Hadj as (dd & Hd & ->).
        apply Hnb; [done|done|congruence].
      * apply (Hcl' u v); try done. set_solver.
    + intros _ _. set_solver.
Qed.

End FloodFill.

(** ** Connected cells *)

Section Connected.

Variable g : GameGrid.

Lemma adjacent_sym p q : adjacent p q → adjacent q p.
Proof.
  destruct p as [x y], q as [x' y']. unfold adjacent; simpl.
  intros [ [= -> ->] | [ [= -> ->] | [ [= -> ->] | [= -> ->] ] ] ].
  - right; left. f_equal; lia.
  - left. f_equal; lia.
  - do 3 right. f_equal; lia.
  - do 2 right; left. f_equal; lia.
Qed.

Lemma link_sym c p q : link g c p q → link g c q p.
Proof.
  intros (? & ? & ? & ? & ?). split_and!; try done. by apply adjacent_sym.
Qed.

Lemma rtc_link_sym c p q : rtc (link g c) p q → rtc (link g c) q p.
Proof.
  induction 1 as [|p p' q Hl _ IH]; [done|].
  eapply rtc_r; [exact IH|]. by apply link_sym.
Qed.

Lemma rtc_link_ends c p q :
  rtc (link g c) p q →
  p = q ∨ (inside g p ∧ color_at g p = c ∧ inside g q ∧ color_at g q = c).
Proof.
  induction 1 as [|p p' q Hl _ IH]; [by left|]. right.
  destruct Hl as (_ & ? & ? & ? & ?).
  destruct IH as [<-|(_ & _ & ? & ?)]; by split_and!.
Qed.

Lemma connected_refl p : connected g p p.
Proof. apply rtc_refl. Qed.

Lemma connected_sym p q : connected g p q → connected g q p.
Proof.
  unfold connected. intros H.
  destruct (rtc_link_ends _ _ _ H) as [<-|(_ & _ & _ & ->)]; [done|].
  by apply rtc_link_sym.
Qed.

Lemma connected_trans p q r :
  connected g p q → connected g q r → connected g p r.
Proof.
  unfold connected. intros H1 H2.
  destruct (rtc_link_ends _ _ _ H1) as [<-|(_ & _ & _ & Hc)]; [done|].
  rewrite Hc in H2. by etrans.
Qed.

Lemma connected_inside p q :
  inside g p → connected g p q →
  inside g q ∧ color_at g q = color_at g p.
Proof.
  intros Hp H. destruct (rtc_link_ends _ _ _ H) as [<-|(_ & _ & ? & ?)]; done.
Qed.

Lemma qualifies_connected p q :
  connected g p q → qualifies g p → qualifies g q.
Proof.
  intros Hpq (Hin & Hcol & l & Hnd & Hlen & Hl).
  destruct (connected_inside p q Hin Hpq) as [Hq Hc].
  split_and!; [done|congruence|].
  exists l. split_and!; try done.
  intros u Hu. eapply connected_trans; [by apply connected_sym|by apply Hl].
Qed.

(** A set that holds exactly the cells connected to [p] has at least four
    elements iff [p]'s group has at least four cells. *)
Lemma group_size (R : gset (Z * Z)) p :
  (∀ q, q ∈ R ↔ connected g p q) →
  4 ≤ Z.of_nat (size R) ↔
  ∃ l : list (Z * Z),
    NoDup l ∧ (4 ≤ length l)%nat ∧ ∀ q, q ∈ l → connected g p q.
Proof.
  intros HR. split.
  - intros Hsz. exists (elements R). split_and!.
    + apply NoDup_elements.
    + unfold size, set_size in Hsz. simpl in Hsz. lia.
    + intros q Hq. apply HR. by apply elem_of_elements.
  - intros (l & Hnd & Hlen & Hl).
    assert (list_to_set l ⊆ R) as Hsub.
    { intros q Hq. apply HR, Hl. by apply elem_of_list_to_set in Hq. }
    apply subseteq_size in Hsub.
    rewrite size_list_to_set in Hsub by done. lia.
Qed.

(** A fill started on an unvisited cell, with every visited group
    complete, returns exactly the group of the start cell. *)
Lemma fill_component V x y :
  closed g ∅ V → (x, y) ∉ V → inside g (x, y) →
  ∃ R V',
    find_connected_puyos (fill_depth g) g x y (cell g x y) V = Some (R, V')
    ∧ V' = V ∪ R ∧ R ## V ∧ closed g ∅ V'
    ∧ ∀ q, q ∈ R ↔ connected g (x, y) q.
Proof.
  intros Hcl HpV Hin.
  destruct (find_connected_puyos_ok g (cell g x y) (fill_depth g) x y V ∅)
    as (R & V' & Hcall & HV' & Hdisj & Hreach & Hcl' & Hp);
    [apply unvisited_bound|done|].
  exists R, V'. split_and!; try done.
  assert ((x, y) ∈ R) as HpR.
  { specialize (Hp Hin eq_refl). set_solver. }
  assert (∀ u v, u ∈ R → link g (cell g x y) u v → v ∈ R) as Hstep.
  { intros u v Hu (Hadj & Hui & Hvi & Huc & Hvc).
    assert (v ∈ V') as Hv.
    { apply (Hcl' u v); try done; [set_solver|congruence]. }
    assert (v ∉ V); [|set_solver].
    intros HvV. assert (u ∈ V); [|set_solver].
    apply (Hcl v u); try done; [by apply adjacent_sym|congruence]. }
  intros q. split.
  - intros Hq. by destruct (Hreach q Hq) as (_ & _ & ?).
  - unfold connected, color_at. simpl. intros Hr.
    assert (∀ a b, rtc (link g (cell g x y)) a b → a ∈ R → b ∈ R) as Hall.
    { induction 1 as [|u v w Hl _ IH]; [done|].
      intros Hu. apply IH. by eapply Hstep. }
    by eapply Hall.
Qed.

End Connected.

(** ** The scan over the board *)

Section Scan.

Variable g : GameGrid.

Lemma foldl_bind {A B C} (f : A → C → A) (k : B → list C) (l : list B) a :
  foldl f a (l ≫= k) = foldl (λ a b, foldl f a (k b)) a l.
Proof.
  revert a. induction l as [|b l IH]; intros a; [done|].
  rewrite bind_cons, foldl_app. apply IH.
Qed.

Lemma scan_groups_flat depth :
  scan_groups depth g
  = foldl (λ acc p, scan_cell depth g acc p.1 p.2)
          (Some (∅, ∅, 0)) (scan_order g).
Proof.
  unfold scan_groups, scan_order. rewrite foldl_bind.
  generalize (Some (∅ : gset (Z * Z), ∅ : gset (Z * Z), 0)).
  induction (seqZ 0 (height g)) as [|y ys IH]; intros acc; [done|].
  cbn [foldl]. rewrite foldl_fmap. apply IH.
Qed.

Lemma elem_of_scan_order p : p ∈ scan_order g ↔ inside g p.
Proof.
  unfold scan_order, inside, in_bounds. destruct p as [x y]; simpl. split.
  - intros (y' & Hx & Hy)%list_elem_of_bind.
    apply list_elem_of_fmap in Hx as (x' & [= -> ->] & Hx).
    apply elem_of_seqZ in Hx, Hy. lia.
  - intros [Hx Hy]. apply list_elem_of_bind. exists y. split.
    + apply list_elem_of_fmap. exists x. split; [done|].
      apply elem_of_seqZ. lia.
    + apply elem_of_seqZ. lia.
Qed.

Lemma scan_inv_init : scan_inv g [] (∅, ∅, 0).
Proof.
  unfold scan_inv. split_and!; try set_solver.
  - intros u v Hu. set_solver.
  - exists []. split_and!; try set_solver. constructor.
Qed.

Lemma scan_cell_step done V T k x y :
  scan_inv g done (V, T, k) → inside g (x, y) →
  ∃ st', scan_cell (fill_depth g) g (Some (V, T, k)) x y = Some st'
         ∧ scan_inv g (done ++ [(x, y)]) st'.
Proof.
  intros (Hcl & HV & Hdone & HTV & HT & Hsz & reps & Hk & Hnd & HrT
          & Hsep & Hcov) Hin.
  unfold scan_cell. cbn [mbind option_bind].
  case_bool_decide as Hcond.
  - destruct Hcond as [HpV Hcol].
    destruct (fill_component g V x y Hcl HpV Hin)
      as (R & V' & Hcall & HV' & Hdisj & Hcl' & Hcomp).
    rewrite Hcall. cbn [mbind option_bind].
    assert ((x, y) ∈ R) as HpR by (apply Hcomp, connected_refl).
    assert (∀ u, u ∈ R → inside g u ∧ color_at g u ≠ 0) as HRin.
    { intros u Hu%Hcomp.
      destruct (connected_inside g _ _ Hin Hu) as [? Hc].
      split; [done|]. by rewrite Hc. }
    assert (∀ u, u ∈ R → qualifies g u ↔ qualifies g (x, y)) as HRq.
    { intros u Hu%Hcomp. split; apply qualifies_connected; [|done].
      by apply connected_sym. }
    assert (4 ≤ Z.of_nat (size R) ↔ qualifies g (x, y)) as HRsz.
    { rewrite (group_size g R (x, y) Hcomp). unfold qualifies.
      split; [by intros ?; split_and!|by intros (_ & _ & ?)]. }
    assert (∀ p, p ∈ done ++ [(x, y)] → color_at g p ≠ 0 → p ∈ V')
      as Hdone'.
    { intros p [Hp| ->%list_elem_of_singleton]%elem_of_app Hpc.
      - specialize (Hdone p Hp Hpc). set_solver.
      - set_solver. }
    assert (∀ u, u ∈ V' → inside g u ∧ color_at g u ≠ 0) as HV'in.
    { intros u Hu. rewrite HV' in Hu.
      apply elem_of_union in Hu as [Hu|Hu]; [by apply HV|by apply HRin]. }
    case_bool_decide as Hbig.
    + eexists. split; [done|]. unfold scan_inv.
      split_and!; try done.
      * set_solver.
      * intros u Hu. rewrite HV' in Hu.
        apply elem_of_union in Hu as [Hu|Hu].
        -- rewrite <-(HT u Hu). set_solver.
        -- rewrite (HRq u Hu), <-HRsz. set_solver.
      * right. etrans; [exact Hbig|].
        apply inj_le, subseteq_size. set_solver.
      * exists ((x, y) :: reps). split_and!.
        -- rewrite Hk. simpl length. lia.
        -- constructor; [|done]. intros Hr%HrT. set_solver.
        -- intros r [->|Hr]%elem_of_cons; [set_solver|].
           specialize (HrT r Hr). set_solver.
        -- intros r r' [->|Hr]%elem_of_cons [->|Hr']%elem_of_cons Hc;
             try done.
           ++ apply Hcomp in Hc. specialize (HrT r' Hr'). set_solver.
           ++ apply connected_sym, Hcomp in Hc.
              specialize (HrT r Hr). set_solver.
           ++ by apply Hsep.
        -- intros u [Hu|Hu]%elem_of_union.
           ++ destruct (Hcov u Hu) as (r & Hr & Hc).
              exists r. split; [by right|done].
           ++ exists (x, y). split; [by left|by apply Hcomp].
    + eexists. split; [done|]. unfold scan_inv.
      split_and!; try done.
      * set_solver.
      * intros u Hu. rewrite HV' in Hu.
        apply elem_of_union in Hu as [Hu|Hu]; [by apply HT|].
        rewrite (HRq u Hu), <-HRsz. set_solver.
      * by exists reps.
  - eexists. split; [done|]. unfold scan_inv.
    split_and!; try done.
    + intros p [Hp| ->%list_elem_of_singleton]%elem_of_app Hpc.
      * by apply Hdone.
      * destruct (decide ((x, y) ∈ V)); [done|]. destruct Hcond. done.
    + by exists reps.
Qed.

Lemma scan_fold l : ∀ done st,
  scan_inv g done st → (∀ p, p ∈ l → inside g p) →
  ∃ st', foldl (λ acc p, scan_cell (fill_depth g) g acc p.1 p.2)
               (Some st) l = Some st'
         ∧ scan_inv g (done ++ l) st'.
Proof.
  induction l as [|[x y] l IH]; intros done st Hinv Hl.
  - exists st. by rewrite app_nil_r.
  - destruct st as [[V T] k].
    destruct (scan_cell_step done V T k x y Hinv) as (st' & Hs & Hinv');
      [apply Hl; by left|].
    destruct (IH (done ++ [(x, y)]) st' Hinv') as (st'' & Hf & Hinv'').
    { intros p Hp. apply Hl. by right. }
    exists st''. cbn [foldl fst snd]. rewrite Hs.
    by rewrite <-app_assoc in Hinv''.
Qed.

(** The result of the scan: [to_clear] holds exactly the qualifying
    cells, and [groups_cleared] counts their groups. *)
Lemma scan_groups_spec :
  ∃ V T reps,
    scan_groups (fill_depth g) g = Some (V, T, Z.of_nat (length reps))
    ∧ (∀ p, p ∈ T ↔ qualifies g p)
    ∧ (T = ∅ ∨ 4 ≤ Z.of_nat (size T))
    ∧ representatives g reps.
Proof.
  destruct (scan_fold (scan_order g) [] (∅, ∅, 0) scan_inv_init
              (λ p, proj1 (elem_of_scan_order p)))
    as ([[V T] k] & Hf & Hinv).
  destruct Hinv as (Hcl & HV & Hdone & HTV & HT & Hsz & reps & Hk & Hnd
                    & HrT & Hsep & Hcov).
  assert (∀ p, p ∈ T ↔ qualifies g p) as HTq.
  { intros p. split.
    - intros Hp. apply HT; [|done]. by apply HTV.
    - intros Hq. apply HT; [|done]. destruct Hq as (Hin & Hc & _).
      apply Hdone; [|done]. by apply elem_of_scan_order. }
  exists V, T, reps. rewrite scan_groups_flat, Hf, Hk.
  unfold representatives. split_and!; try done.
  - intros r Hr. by apply HTq, HrT.
  - intros p Hp. by apply Hcov, HTq.
Qed.

End Scan.

(** ** Clearing the marked cells *)

Section Clearing.

Implicit Types g : GameGrid.

Lemma clear_list_spec (l : list (Z * Z)) : ∀ g,
  wf g → (∀ p, p ∈ l → inside g p) →
  wf (foldl (λ g '(x, y), set_cell g x y 0) g l)
  ∧ width (foldl (λ g '(x, y), set_cell g x y 0) g l) = width g
  ∧ height (foldl (λ g '(x, y), set_cell g x y 0) g l) = height g
  ∧ ∀ x y, 0 ≤ x → 0 ≤ y →
      cell (foldl (λ g '(x, y), set_cell g x y 0) g l) x y
      = if decide ((x, y) ∈ l) then 0 else cell g x y.
Proof.
  induction l as [|[x0 y0] l IH]; intros g Hwf Hl.
  - simpl. by split_and!.
  - assert (inside g (x0, y0)) as [Hx0 Hy0] by (apply Hl; by left).
    simpl in Hx0, Hy0.
    destruct (IH (set_cell g x0 y0 0)) as (Hwf' & Hw & Hh & Hc).
    { by apply set_cell_wf. }
    { intros p Hp. apply (Hl p). by right. }
    cbn [foldl]. split_and!; try done.
    intros x y Hx Hy. rewrite Hc by done.
    rewrite cell_set_cell by first [done|lia].
    destruct (decide ((x, y) ∈ l)) as [Hin|Hnin].
    + rewrite decide_True by by right. done.
    + destruct (decide (x = x0 ∧ y = y0)) as [[-> ->]|Hne].
      * rewrite decide_True by by left. done.
      * rewrite decide_False; [done|].
        intros [[= -> ->]|?]%elem_of_cons; [by apply Hne|done].
Qed.

Lemma clear_cells_spec g (T : gset (Z * Z)) :
  wf g → (∀ p, p ∈ T → inside g p) →
  wf (clear_cells g T)
  ∧ width (clear_cells g T) = width g
  ∧ height (clear_cells g T) = height g
  ∧ ∀ x y, 0 ≤ x → 0 ≤ y →
      cell (clear_cells g T) x y
      = if decide ((x, y) ∈ T) then 0 else cell g x y.
Proof.
  intros Hwf HT. unfold clear_cells.
  destruct (clear_list_spec (elements T) g Hwf) as (Hwf' & Hw & Hh & Hc).
  { intros p Hp. by apply HT, elem_of_elements. }
  split_and!; try done.
  intros x y Hx Hy. rewrite Hc by done.
  destruct (decide ((x, y) ∈ T)) as [Hin|Hnin].
  - rewrite decide_True; [done|]. by apply elem_of_elements.
  - rewrite decide_False; [done|]. by rewrite elem_of_elements.
Qed.

Lemma clear_cells_empty g : clear_cells g ∅ = g.
Proof. unfold clear_cells. by rewrite elements_empty. Qed.

Lemma elem_of_occupied_set g p :
  p ∈ occupied_set g ↔ inside g p ∧ color_at g p ≠ 0.
Proof.
  unfold occupied_set. rewrite elem_of_list_to_set, list_elem_of_filter.
  rewrite elem_of_cells. unfold color_at. tauto.
Qed.

Lemma occupied_size g : occupied g = size (occupied_set g).
Proof.
  unfold occupied, occupied_set. symmetry. apply size_list_to_set.
  apply NoDup_filter, NoDup_cells.
Qed.

Lemma clear_cells_occupied g (T : gset (Z * Z)) :
  wf g → (∀ p, p ∈ T → inside g p ∧ color_at g p ≠ 0) →
  (occupied (clear_cells g T) + size T = occupied g)%nat.
Proof.
  intros Hwf HT.
  destruct (clear_cells_spec g T Hwf) as (Hwf' & Hw & Hh & Hc).
  { intros p Hp. by apply HT. }
  assert (T ⊆ occupied_set g) as Hsub.
  { intros p Hp. by apply elem_of_occupied_set, HT. }
  assert (occupied_set (clear_cells g T) = occupied_set g ∖ T) as Heq.
  { apply set_eq. intros [x y].
    rewrite elem_of_difference, !elem_of_occupied_set.
    unfold inside, in_bounds, color_at. rewrite Hw, Hh. simpl.
    split.
    - intros [[Hx Hy] Hcol]. rewrite Hc in Hcol by lia.
      destruct (decide ((x, y) ∈ T)); done.
    - intros [[[Hx Hy] Hcol] Hn]. split; [done|].
      rewrite Hc by lia. by rewrite decide_False. }
  rewrite !occupied_size, Heq, size_difference by done.
  apply subseteq_size in Hsub. lia.
Qed.

(** [find_and_clear_groups] in one statement. *)
Lemma find_and_clear_groups_spec g :
  ∃ (T : gset (Z * Z)) (reps : list (Z * Z)),
    find_and_clear_groups g
    = Some (Z.of_nat (size T), Z.of_nat (length reps), clear_cells g T)
    ∧ (∀ p, p ∈ T ↔ qualifies g p)
    ∧ (T = ∅ ∨ 4 ≤ Z.of_nat (size T))
    ∧ representatives g reps.
Proof.
  destruct (scan_groups_spec g) as (V & T & reps & Hs & HT & Hsz & Hreps).
  exists T, reps. unfold find_and_clear_groups. rewrite Hs. by simpl.
Qed.

Lemma qualifies_occupied g p :
  qualifies g p → inside g p ∧ color_at g p ≠ 0.
Proof. by intros (? & ? & _). Qed.

(** After a clear no group of four is left. *)
Lemma clear_cells_no_group g (T : gset (Z * Z)) :
  wf g → (∀ p, p ∈ T ↔ qualifies g p) →
  ∀ p, ¬ qualifies (clear_cells g T) p.
Proof.
  intros Hwf HT p (Hin & Hcol & l & Hnd & Hlen & Hl).
  destruct (clear_cells_spec g T Hwf) as (Hwf' & Hw & Hh & Hc).
  { intros q Hq. by apply qualifies_occupied, HT. }
  set (g' := clear_cells g T) in *.
  assert (∀ q, inside g' q → color_at g' q ≠ 0 →
               (q ∉ T) ∧ inside g q ∧ color_at g q = color_at g' q) as Hkeep.
  { intros [x y] [Hx Hy] Hq. unfold color_at in *. simpl in *.
    rewrite Hc in Hq |- * by lia.
    destruct (decide ((x, y) ∈ T)); [done|].
    split_and!; try done. unfold inside, in_bounds. simpl. lia. }
  destruct (Hkeep p Hin Hcol) as (HpT & Hin0 & Hcol0).
  apply HpT, HT. split_and!; [done|congruence|].
  exists l. split_and!; try done.
  intros q Hq. specialize (Hl q Hq). unfold connected in *.
  rewrite Hcol0. eapply rtc_subrel; [|exact Hl].
  intros u v (Hadj & Hu & Hv & Huc & Hvc).
  destruct (Hkeep u Hu) as (_ & ? & ?); [congruence|].
  destruct (Hkeep v Hv) as (_ & ? & ?); [congruence|].
  split_and!; try done; congruence.
Qed.

End Clearing.

(** ** Settling a pair *)

Section Settle.

Implicit Types g : GameGrid.

Lemma py_get_norm {A} (l : list A) (i : Z) :
  py_get l i = n ← py_norm (Z.of_nat (length l)) i; l !! Z.to_nat n.
Proof.
  unfold py_get, py_norm. repeat case_bool_decide; simpl; try done; try lia.
  apply lookup_ge_None. lia.
Qed.

Lemma py_norm_range n i k : py_norm n i = Some k → 0 ≤ k < n.
Proof.
  unfold py_norm. repeat case_bool_decide; intros [= <-]; lia.
Qed.

Lemma py_norm_max n i : py_norm (Z.max 0 n) i = py_norm n i.
Proof.
  unfold py_norm. repeat case_bool_decide; try done; try lia.
  f_equal. lia.
Qed.

Lemma py_cell_norm g x y :
  wf g →
  py_cell g x y
  = yn ← py_norm (height g) y; xn ← py_norm (width g) x;
    Some (cell g xn yn).
Proof.
  intros [Hl Hr]. unfold py_cell. rewrite py_get_norm, Hl.
  replace (Z.of_nat (Z.to_nat (height g))) with (Z.max 0 (height g)) by lia.
  rewrite py_norm_max.
  destruct (py_norm (height g) y) as [yn|] eqn:Ey; [|done]. simpl.
  apply py_norm_range in Ey.
  destruct (grid g !! Z.to_nat yn) as [row|] eqn:Erow.
  - simpl. assert (length row = Z.to_nat (width g)) as Hrow
      by by eapply (Forall_lookup_1 _ _ _ _ Hr).
    rewrite py_get_norm, Hrow.
    replace (Z.of_nat (Z.to_nat (width g))) with (Z.max 0 (width g)) by lia.
    rewrite py_norm_max.
    destruct (py_norm (width g) x) as [xn|] eqn:Ex; [|done]. simpl.
    apply py_norm_range in Ex. unfold cell. rewrite Erow. simpl.
    destruct (row !! Z.to_nat xn) eqn:Ecell; [done|].
    apply lookup_ge_None in Ecell. lia.
  - apply lookup_ge_None in Erow. lia.
Qed.

Lemma py_cell_in_bounds g x y :
  wf g → in_bounds g x y → py_cell g x y = Some (cell g x y).
Proof.
  intros Hwf [Hx Hy]. rewrite py_cell_norm by done. unfold py_norm.
  by rewrite !bool_decide_eq_true_2 by done.
Qed.

(** The scan only looks at one column. *)
Lemma settle_row_ext fuel g g' x : ∀ y,
  wf g → wf g' → width g' = width g → height g' = height g →
  (∀ xn yn, py_norm (width g) x = Some xn → 0 ≤ yn < height g →
            cell g' xn yn = cell g xn yn) →
  settle_row fuel g' x y = settle_row fuel g x y.
Proof.
  induction fuel as [|n IH]; intros y Hwf Hwf' Hw Hh Hcol;
    cbn [settle_row]; rewrite Hh; case_bool_decide; try done;
    rewrite !py_cell_norm, Hw, Hh by done;
    destruct (py_norm (height g) (y + 1)) as [yn|] eqn:Ey; try done;
    destruct (py_norm (width g) x) as [xn|] eqn:Ex; try done;
    simpl; apply py_norm_range in Ey; rewrite Hcol by done;
    case_bool_decide; try done.
  by apply IH.
Qed.

Lemma settle_row_None fuel g x : ∀ y,
  wf g → height g - y ≤ Z.of_nat fuel →
  settle_row fuel g x y = None ↔ settle_raises g x y.
Proof.
  unfold settle_raises.
  induction fuel as [|n IH]; intros y Hwf Hfuel; cbn [settle_row].
  - case_bool_decide as Hy; [lia|]. split; [done|lia].
  - case_bool_decide as Hy; [|split; [done|lia]].
    rewrite py_cell_norm by done.
    destruct (py_norm (height g) (y + 1)) as [yn|] eqn:Ey; simpl.
    + destruct (py_norm (width g) x) as [xn|] eqn:Ex; simpl.
      * assert (- height g ≤ y + 1 ∧ - width g ≤ x < width g) as Hok.
        { revert Ey Ex. unfold py_norm.
          repeat case_bool_decide; intros; simplify_eq; lia. }
        case_bool_decide.
        -- rewrite IH by first [done|lia]. lia.
        -- split; [done|lia].
      * split; [intros _|done]. split; [done|]. right.
        revert Ex. unfold py_norm. repeat case_bool_decide; try done. lia.
    + split; [intros _|done]. split; [done|]. left.
      revert Ey. unfold py_norm. repeat case_bool_decide; try done. lia.
Qed.

Lemma settle_width g pos c g' : settle g pos c = Some g' → width g' = width g.
Proof.
  unfold settle. destruct (settle_row _ _ _ _); [|done].
  intros [= <-]. apply place_puyo_width.
Qed.

Lemma settle_height g pos c g' :
  settle g pos c = Some g' → height g' = height g.
Proof.
  unfold settle. destruct (settle_row _ _ _ _); [|done].
  intros [= <-]. apply place_puyo_height.
Qed.

Lemma settle_wf g pos c g' : wf g → settle g pos c = Some g' → wf g'.
Proof.
  unfold settle. destruct (settle_row _ _ _ _); [|done].
  intros ? [= <-]. by apply place_puyo_wf.
Qed.

Lemma settle_raises_dims g g' x y :
  width g' = width g → height g' = height g →
  settle_raises g' x y ↔ settle_raises g x y.
Proof. unfold settle_raises. by intros -> ->. Qed.

(** A cell whose column is outside the grid is never written: settling it
    either raises or leaves the grid as it is. *)
Lemma settle_outside g pos c :
  wf g → ¬ (0 ≤ pos_x pos < width g) →
  settle g pos c
  = if decide (settle_raises g (pos_x pos) (pos_y pos)) then None
    else Some g.
Proof.
  intros Hwf Hx. unfold settle.
  pose proof (settle_row_None (Z.to_nat (height g - pos_y pos)) g
                (pos_x pos) (pos_y pos) Hwf) as HN.
  destruct (settle_row _ _ _ _) as [fy|] eqn:E; simpl.
  - rewrite decide_False.
    + unfold place_puyo. rewrite bool_decide_eq_false_2; [done|].
      by intros [? _].
    + intros Hr. apply HN in Hr; [done|lia].
  - rewrite decide_True; [done|]. apply HN; [lia|done].
Qed.

Lemma place_puyo_cell g x y c x' y' :
  wf g → 0 ≤ x' → 0 ≤ y' →
  cell (place_puyo g x y c) x' y'
  = if decide (in_bounds g x y ∧ x' = x ∧ y' = y) then c else cell g x' y'.
Proof.
  intros Hwf Hx' Hy'. unfold place_puyo, in_bounds. case_bool_decide as Hb.
  - destruct Hb as [Hx Hy]. rewrite cell_set_cell by done.
    destruct (decide (x' = x ∧ y' = y)) as [Heq|Hne].
    + by rewrite decide_True.
    + rewrite decide_False; [done|]. by intros [_ ?].
  - rewrite decide_False; [done|]. by intros [? _].
Qed.

Lemma place_puyo_commute g x1 y1 c1 x2 y2 c2 :
  wf g → x1 ≠ x2 →
  place_puyo (place_puyo g x1 y1 c1) x2 y2 c2
  = place_puyo (place_puyo g x2 y2 c2) x1 y1 c1.
Proof.
  intros Hwf Hne. apply grid_ext.
  - by do 2 apply place_puyo_wf.
  - by do 2 apply place_puyo_wf.
  - by rewrite !place_puyo_width.
  - by rewrite !place_puyo_height.
  - intros x y [Hx Hy].
    rewrite !place_puyo_cell by first [by apply place_puyo_wf|done|lia].
    unfold in_bounds. rewrite !place_puyo_width, !place_puyo_height.
    repeat case_decide; try done; lia.
Qed.

(** Settling a cell in an in-range column [x] reads and writes that
    column only. *)
Lemma settle_row_place g x1 y1 c1 x2 y2 fuel :
  wf g → x1 ≠ x2 → 0 ≤ x2 < width g →
  settle_row fuel (place_puyo g x1 y1 c1) x2 y2 = settle_row fuel g x2 y2.
Proof.
  intros Hwf Hne Hx2. apply settle_row_ext.
  - done.
  - by apply place_puyo_wf.
  - apply place_puyo_width.
  - apply place_puyo_height.
  - intros xn yn Hn Hyn. unfold py_norm in Hn.
    rewrite bool_decide_eq_true_2 in Hn by done. injection Hn as <-.
    rewrite place_puyo_cell by first [done|lia].
    rewrite decide_False; [done|]. intros (_ & ? & _). by apply Hne.
Qed.

(** Two cells in different columns can be settled in either order. *)
Lemma settle_commute g m s mc sc :
  wf g → pos_x m ≠ pos_x s →
  (g1 ← settle g m mc; settle g1 s sc)
  = (g1 ← settle g s sc; settle g1 m mc).
Proof.
  intros Hwf Hne.
  destruct (decide (0 ≤ pos_x s < width g)) as [Hs|Hs].
  - destruct (decide (0 ≤ pos_x m < width g)) as [Hm|Hm].
    + unfold settle.
      destruct (settle_row _ g (pos_x m) (pos_y m)) as [fm|] eqn:Em;
        destruct (settle_row _ g (pos_x s) (pos_y s)) as [fs|] eqn:Es;
        cbn [mbind option_bind];
        rewrite ?place_puyo_height, ?settle_row_place by done;
        rewrite ?Em, ?Es; cbn [mbind option_bind]; try done.
      f_equal. by apply place_puyo_commute.
    + rewrite (settle_outside g m) by done.
      destruct (settle g s sc) as [g1|] eqn:E1; cbn [mbind option_bind].
      * rewrite (settle_outside g1 m);
          [|by eapply settle_wf|by erewrite settle_width].
        destruct (decide (settle_raises g (pos_x m) (pos_y m))) as [Hr|Hr].
        -- rewrite decide_True; [done|].
           eapply settle_raises_dims; [..|exact Hr];
             [by eapply settle_width|by eapply settle_height].
        -- cbn [mbind option_bind]. rewrite E1, decide_False; [done|].
           intros Hr'. apply Hr.
           eapply settle_raises_dims; [..|exact Hr'];
             symmetry; [by eapply settle_width|by eapply settle_height].
      * by destruct (decide _).
  - rewrite (settle_outside g s) by done.
    destruct (settle g m mc) as [g1|] eqn:E1; cbn [mbind option_bind].
    + rewrite (settle_outside g1 s);
        [|by eapply settle_wf|by erewrite settle_width].
      destruct (decide (settle_raises g (pos_x s) (pos_y s))) as [Hr|Hr].
      * rewrite decide_True; [done|].
        eapply settle_raises_dims; [..|exact Hr];
          [by eapply settle_width|by eapply settle_height].
      * cbn [mbind option_bind]. rewrite E1, decide_False; [done|].
        intros Hr'. apply Hr.
        eapply settle_raises_dims; [..|exact Hr'];
          symmetry; [by eapply settle_width|by eapply settle_height].
    + by destruct (decide _).
Qed.

End Settle.

(** ** The chain loop *)

Section Chains.

Implicit Types (g : GameGrid) (st : PuyoGame).

Lemma find_and_clear_groups_wf g cleared groups g' :
  wf g → find_and_clear_groups g = Some (cleared, groups, g') →
  wf g' ∧ width g' = width g ∧ height g' = height g.
Proof.
  intros Hwf Hf.
  destruct (find_and_clear_groups_spec g) as (T & reps & Hs & HT & _).
  rewrite Hs in Hf. injection Hf as _ _ <-.
  destruct (clear_cells_spec g T Hwf) as (? & ? & ? & _); [|done].
  intros p Hp. by apply qualifies_occupied, HT.
Qed.

(** One pass either clears nothing or at least four cells, and the
    number of occupied cells drops by what it clears. *)
Lemma clear_pass g :
  wf g →
  ∃ cleared groups g',
    find_and_clear_groups g = Some (cleared, groups, g')
    ∧ (cleared = 0 ∨ 4 ≤ cleared)
    ∧ Z.of_nat (occupied g') = Z.of_nat (occupied g) - cleared.
Proof.
  intros Hwf.
  destruct (find_and_clear_groups_spec g) as (T & reps & Hs & HT & Hsz & _).
  exists (Z.of_nat (size T)), (Z.of_nat (length reps)), (clear_cells g T).
  split_and!; [done| |].
  - destruct Hsz as [->|?]; [left|by right]. by rewrite size_empty.
  - pose proof (clear_cells_occupied g T Hwf) as Ho. rewrite <-Ho; [lia|].
    intros p Hp. by apply qualifies_occupied, HT.
Qed.

Lemma occupied_bound g :
  (occupied g ≤ Z.to_nat (width g) * Z.to_nat (height g))%nat.
Proof.
  unfold occupied. etrans; [apply length_filter|].
  unfold cells. rewrite <-(length_seqZ 0 (width g)).
  induction (seqZ 0 (width g)) as [|x xs IH]; [done|].
  rewrite bind_cons, length_app, length_fmap, length_seqZ. simpl. lia.
Qed.

Lemma chain_passes_total fuel : ∀ g,
  wf g → (occupied g < 4 * fuel)%nat →
  ∃ passes g',
    chain_passes fuel g = Some (passes, g')
    ∧ (4 * length passes ≤ occupied g)%nat
    ∧ Forall (λ pass, 4 ≤ pass.1) passes.
Proof.
  induction fuel as [|n IH]; intros g Hwf Hocc; [lia|].
  cbn [chain_passes].
  pose proof (apply_gravity_wf g Hwf) as Hwf1.
  pose proof (apply_gravity_occupied g Hwf) as Hocc1.
  destruct (clear_pass (apply_gravity g) Hwf1)
    as (cleared & groups & g' & Hs & Hc & Ho).
  rewrite Hs. cbn [mbind option_bind].
  case_bool_decide as Hz.
  - exists [], g'. split_and!; [done|simpl; lia|constructor].
  - destruct Hc as [?|Hc]; [done|].
    destruct (find_and_clear_groups_wf _ _ _ _ Hwf1 Hs) as (Hwf' & _ & _).
    destruct (IH g' Hwf') as (passes & g'' & Hp & Hlen & Hall); [lia|].
    rewrite Hp. cbn [mbind option_bind].
    exists ((cleared, groups) :: passes), g''.
    split_and!; [done|simpl; lia|by constructor].
Qed.

Lemma chain_fuel_enough g : (occupied g < 4 * chain_fuel g)%nat.
Proof.
  pose proof (occupied_bound g) as Hb. unfold chain_fuel.
  set (m := (Z.to_nat (width g) * Z.to_nat (height g))%nat) in *.
  assert (Z.of_nat m / 4 ≤ Z.of_nat (Z.to_nat (width g * height g / 4)))
    as Hdiv.
  { destruct (decide (0 ≤ width g ∧ 0 ≤ height g)) as [[? ?]|Hneg].
    - unfold m. rewrite Nat2Z.inj_mul, !Z2Nat.id; try done.
      apply Z.div_pos; nia.
    - assert (m = 0%nat) as -> by (unfold m; nia).
      change (Z.of_nat 0 / 4) with 0. lia. }
  pose proof (Z.mul_succ_div_gt (Z.of_nat m) 4 ltac:(lia)) as Hgt.
  assert (0 ≤ Z.of_nat m / 4) by (apply Z.div_pos; lia).
  lia.
Qed.

(** The loop of [process_chains] follows the passes: it adds their points
    and counts them. *)
Lemma process_chains_loop_passes fuel : ∀ st,
  process_chains_loop fuel st
  = '(passes, g) ← chain_passes fuel (pg_grid st);
    Some (mkPuyoGame g (current_pair st) (next_pair st)
            (score st + chain_score (chain_count st) passes)
            (chain_count st + Z.of_nat (length passes))
            (game_over st) (fall_timer st) (drawn st)).
Proof.
  induction fuel as [|n IH]; intros st; [done|].
  cbn [process_chains_loop chain_passes].
  destruct (find_and_clear_groups (apply_gravity (pg_grid st)))
    as [[[cleared groups] g']|]; [|done].
  cbn [mbind option_bind]. case_bool_decide.
  - cbn [mbind option_bind chain_score length]. unfold set_grid. simpl.
    do 2 f_equal; lia.
  - rewrite IH. simpl.
    destruct (chain_passes n g') as [[passes g'']|]; [|done].
    cbn [mbind option_bind chain_score length]. do 2 f_equal; lia.
Qed.

End Chains.

(** ** The controller *)

Section Controller.

Implicit Types (g : GameGrid) (st : PuyoGame) (p : PuyoPair).

(** Only the anchor and the rotation state of a pair matter to the grid. *)
Lemma can_place_pair_ext g p q :
  main_puyo p = main_puyo q → rotation_state p = rotation_state q →
  can_place_pair g p = can_place_pair g q.
Proof. unfold can_place_pair, get_positions. by intros -> ->. Qed.

Lemma can_move_pair_current st dx dy :
  can_move_pair st dx dy
  = can_place_pair (pg_grid st) (move (current_pair st) dx dy).
Proof.
  unfold can_move_pair. apply can_place_pair_ext; [|done].
  unfold move, test_pair. simpl. done.
Qed.

Lemma can_rotate_pair_current st clockwise :
  can_rotate_pair st clockwise
  = can_place_pair (pg_grid st)
      (if clockwise then rotate_clockwise (current_pair st)
       else rotate_counter_clockwise (current_pair st)).
Proof.
  unfold can_rotate_pair.
  destruct clockwise; apply can_place_pair_ext; simpl; try done;
    by destruct (main_puyo (current_pair st)).
Qed.

Lemma rotate_clockwise_range p : 0 ≤ rotation_state (rotate_clockwise p) < 4.
Proof. simpl. apply Z.mod_pos_bound. lia. Qed.

Lemma rotate_counter_clockwise_range p :
  0 ≤ rotation_state (rotate_counter_clockwise p) < 4.
Proof. simpl. apply Z.mod_pos_bound. lia. Qed.

(** The hard drop never runs out of budget: every step down takes the
    anchor one row closer to the floor. *)
Lemma drop_loop_total fuel : ∀ st,
  height (pg_grid st) - pos_y (main_puyo (current_pair st)) ≤ Z.of_nat fuel →
  ∃ st', drop_loop fuel st = Some st' ∧ pg_grid st' = pg_grid st
         ∧ can_move_pair st' 0 1 = false.
Proof.
  induction fuel as [|n IH]; intros st Hfuel; cbn [drop_loop];
    destruct (can_move_pair st 0 1) eqn:Em; try by exists st.
  - rewrite can_move_pair_current in Em. unfold can_place_pair in Em.
    simpl in Em. apply andb_true_iff in Em as [Em _].
    unfold is_valid_position in Em.
    rewrite !andb_true_iff, !bool_decide_eq_true in Em. lia.
  - destruct (IH (move_current st 0 1)) as (st' & Hd & Hg & Hc).
    + rewrite can_move_pair_current in Em. unfold can_place_pair in Em.
      simpl in Em. apply andb_true_iff in Em as [Em _].
      unfold is_valid_position in Em.
      rewrite !andb_true_iff, !bool_decide_eq_true in Em. simpl. lia.
    + by exists st'.
Qed.

(** The random source only enters through the values it returns. *)
Lemma spawn_new_pair_ext rnd1 rnd2 st :
  (∀ n, rnd1 n = rnd2 n) → spawn_new_pair rnd1 st = spawn_new_pair rnd2 st.
Proof. intros H. unfold spawn_new_pair, generate_new_pair. by rewrite !H. Qed.

Lemma restart_game_ext rnd1 rnd2 st :
  (∀ n, rnd1 n = rnd2 n) → restart_game rnd1 st = restart_game rnd2 st.
Proof. intros H. unfold restart_game. by rewrite !H. Qed.

Lemma land_ext rnd1 rnd2 st :
  (∀ n, rnd1 n = rnd2 n) → land rnd1 st = land rnd2 st.
Proof.
  intros H. unfold land. destruct (place_current_pair st) as [st1|]; [|done].
  simpl. destruct (process_chains st1) as [st2|]; [|done]. simpl.
  by rewrite (spawn_new_pair_ext rnd1 rnd2).
Qed.

Lemma step_ext rnd1 rnd2 i st :
  (∀ n, rnd1 n = rnd2 n) → step rnd1 i st = step rnd2 i st.
Proof.
  intros H. destruct i as [[key|]|dt down]; simpl; [|done|].
  - destruct (negb (game_over st)), key; try done.
    + destruct (drop_loop _ _); [|done]. simpl. by apply land_ext.
    + by rewrite (restart_game_ext rnd1 rnd2).
  - unfold update. destruct (game_over st); [done|].
    case_bool_decide; [|done]. destruct (can_move_pair _ _ _); [done|].
    by apply land_ext.
Qed.

Lemma run_ext rnd1 rnd2 inputs : ∀ st,
  (∀ n, rnd1 n = rnd2 n) → run rnd1 inputs st = run rnd2 inputs st.
Proof.
  induction inputs as [|i inputs IH]; intros st H; [done|].
  cbn [run]. rewrite (step_ext rnd1 rnd2) by done.
  destruct (step rnd2 i st); [|done]. simpl. by apply IH.
Qed.

End Controller.

(** * The claims *)

Lemma wf_decide (g : GameGrid) : bool_decide (wf g) = true → wf g.
Proof. apply bool_decide_eq_true_1. Qed.

Lemma find_and_clear_groups_none (g : GameGrid) :
  (∀ p, ¬ qualifies g p) → find_and_clear_groups g = Some (0, 0, g).
Proof.
  intros Hno.
  destruct (find_and_clear_groups_spec g) as (T & reps & Hs & HT & _ & Hreps).
  assert (T = ∅) as ->.
  { apply set_eq. intros p. rewrite HT. split; [by intros ?%Hno|set_solver]. }
  assert (reps = []) as ->.
  { destruct reps as [|r reps]; [done|]. destruct Hreps as (_ & Hq & _).
    destruct (Hno r). apply Hq. by left. }
  by rewrite Hs, size_empty, clear_cells_empty.
Qed.

(** C2: [apply_gravity] compacts every column on its own.  Column [x] of
    the result is the compaction of column [x] of the input, so that no
    empty cell lies below a non-empty one, the non-empty cells keep their
    top-to-bottom order, and the column holds the same colours as before,
    as many times each. *)
Theorem apply_gravity_compacts (g : GameGrid) (x : Z) :
  wf g → 0 ≤ x < width g →
  column (apply_gravity g) x = compact (column g x)
  ∧ (∀ y y', 0 ≤ y → y < y' → y' < height g →
       cell (apply_gravity g) x y ≠ 0 → cell (apply_gravity g) x y' ≠ 0)
  ∧ filter (λ c, c ≠ 0) (column (apply_gravity g) x)
    = filter (λ c, c ≠ 0) (column g x)
  ∧ column (apply_gravity g) x ≡ₚ column g x.
Proof.
  intros Hwf Hx.
  destruct (apply_gravity_spec g Hwf) as (Hwf' & Hw & Hh & Hc).
  specialize (Hc x Hx). split_and!.
  - done.
  - intros y y' Hy Hyy' Hy' Hne.
    pose proof (column_lookup (apply_gravity g) x y) as L1.
    pose proof (column_lookup (apply_gravity g) x y') as L2.
    rewrite Hh, Hc in L1, L2.
    eapply (compact_settled _ (Z.to_nat y) (Z.to_nat y'));
      [apply L1|apply L2| |done]; lia.
  - rewrite Hc. apply compact_filter.
  - rewrite Hc. apply compact_perm.
Qed.

Lemma apply_gravity_compacts_witness :
  column (apply_gravity two_groups_grid) 3 = compact (column two_groups_grid 3)
  ∧ (∀ y y', 0 ≤ y → y < y' → y' < height two_groups_grid →
       cell (apply_gravity two_groups_grid) 3 y ≠ 0 →
       cell (apply_gravity two_groups_grid) 3 y' ≠ 0)
  ∧ filter (λ c, c ≠ 0) (column (apply_gravity two_groups_grid) 3)
    = filter (λ c, c ≠ 0) (column two_groups_grid 3)
  ∧ column (apply_gravity two_groups_grid) 3 ≡ₚ column two_groups_grid 3.
Proof.
  apply (apply_gravity_compacts two_groups_grid 3).
  - apply wf_decide. vm_compute. reflexivity.
  - simpl. lia.
Defined.

(** C1: [find_and_clear_groups] clears exactly the cells that belong to a
    group of at least four connected cells of one non-empty colour, returns
    how many cells it cleared and how many such groups there are, returns
    [(0, 0)] when there is none, and leaves every other cell as it was. *)
Theorem find_and_clear_groups_correct (g : GameGrid) :
  wf g →
  ∃ (to_clear : gset (Z * Z)) (reps : list (Z * Z)) (g' : GameGrid),
    find_and_clear_groups g
    = Some (Z.of_nat (size to_clear), Z.of_nat (length reps), g')
    ∧ wf g' ∧ width g' = width g ∧ height g' = height g
    ∧ (∀ p, p ∈ to_clear ↔ qualifies g p)
    ∧ (∀ x y, in_bounds g x y →
         cell g' x y = if decide ((x, y) ∈ to_clear) then 0 else cell g x y)
    ∧ representatives g reps
    ∧ ((∀ p, ¬ qualifies g p) →
         find_and_clear_groups g = Some (0, 0, g)).
Proof.
  intros Hwf.
  destruct (find_and_clear_groups_spec g) as (T & reps & Hs & HT & _ & Hreps).
  destruct (clear_cells_spec g T Hwf) as (Hwf' & Hw & Hh & Hc).
  { intros p Hp. by apply qualifies_occupied, HT. }
  exists T, reps, (clear_cells g T). split_and!; try done.
  - intros x y [Hx Hy]. apply Hc; lia.
  - apply find_and_clear_groups_none.
Qed.

Lemma find_and_clear_groups_correct_witness :
  ∃ (to_clear : gset (Z * Z)) (reps : list (Z * Z)) (g' : GameGrid),
    find_and_clear_groups two_groups_grid
    = Some (Z.of_nat (size to_clear), Z.of_nat (length reps), g')
    ∧ wf g' ∧ width g' = width two_groups_grid
    ∧ height g' = height two_groups_grid
    ∧ (∀ p, p ∈ to_clear ↔ qualifies two_groups_grid p)
    ∧ (∀ x y, in_bounds two_groups_grid x y →
         cell g' x y
         = if decide ((x, y) ∈ to_clear) then 0 else cell two_groups_grid x y)
    ∧ representatives two_groups_grid reps
    ∧ ((∀ p, ¬ qualifies two_groups_grid p) →
         find_and_clear_groups two_groups_grid = Some (0, 0, two_groups_grid)).
Proof.
  apply (find_and_clear_groups_correct two_groups_grid).
  apply wf_decide. vm_compute. reflexivity.
Defined.

(** C9: a second [find_and_clear_groups] right after the first returns
    [(0, 0)] and changes nothing: the first call leaves no group of four. *)
Theorem find_and_clear_groups_twice (g : GameGrid) :
  wf g →
  ∃ cleared groups g',
    find_and_clear_groups g = Some (cleared, groups, g')
    ∧ find_and_clear_groups g' = Some (0, 0, g')
    ∧ ∀ p, ¬ qualifies g' p.
Proof.
  intros Hwf.
  destruct (find_and_clear_groups_spec g) as (T & reps & Hs & HT & _).
  pose proof (clear_cells_no_group g T Hwf HT) as Hno.
  eexists _, _, _. split_and!; [exact Hs| |exact Hno].
  by apply find_and_clear_groups_none.
Qed.

Lemma find_and_clear_groups_twice_witness :
  ∃ cleared groups g',
    find_and_clear_groups two_groups_grid = Some (cleared, groups, g')
    ∧ find_and_clear_groups g' = Some (0, 0, g')
    ∧ ∀ p, ¬ qualifies g' p.
Proof.
  apply (find_and_clear_groups_twice two_groups_grid).
  apply wf_decide. vm_compute. reflexivity.
Defined.

Lemma chain_passes_mono (fuel fuel' : nat) : ∀ g r,
  chain_passes fuel g = Some r → (fuel ≤ fuel')%nat →
  chain_passes fuel' g = Some r.
Proof.
  revert fuel'. induction fuel as [|n IH]; intros fuel' g r Hr Hle; [done|].
  destruct fuel' as [|n']; [lia|]. cbn [chain_passes] in *.
  destruct (find_and_clear_groups (apply_gravity g))
    as [[[cleared groups] g']|]; [|done].
  cbn [mbind option_bind] in *. case_bool_decide; [done|].
  destruct (chain_passes n g') as [r'|] eqn:E; [|done].
  rewrite (IH n' g' r' E) by lia. done.
Qed.

(** C7: the loop of [process_chains] terminates.  Gravity keeps the number
    of occupied cells; a pass of [find_and_clear_groups] clears nothing (the
    loop stops) or at least four cells, and the count drops by what it
    clears; so the loop returns for every budget of at least
    [width * height / 4 + 1] passes, with at most a quarter of the number
    of cells as chain count, 18 on the 6 x 12 board. *)
Theorem process_chains_terminates (st : PuyoGame) :
  wf (pg_grid st) →
  occupied (apply_gravity (pg_grid st)) = occupied (pg_grid st)
  ∧ (∃ cleared groups g',
       find_and_clear_groups (apply_gravity (pg_grid st))
       = Some (cleared, groups, g')
       ∧ (cleared = 0 ∨ 4 ≤ cleared)
       ∧ Z.of_nat (occupied g') = Z.of_nat (occupied (pg_grid st)) - cleared)
  ∧ ∃ st',
      process_chains st = Some st'
      ∧ (∀ fuel, (chain_fuel (pg_grid st) ≤ fuel)%nat →
           process_chains_loop fuel (set_chain st 0) = Some st')
      ∧ 0 ≤ chain_count st'
      ∧ 4 * chain_count st'
        ≤ Z.of_nat (Z.to_nat (width (pg_grid st))
                    * Z.to_nat (height (pg_grid st)))
      ∧ (width (pg_grid st) = 6 → height (pg_grid st) = 12 →
         chain_count st' ≤ 18).
Proof.
  intros Hwf. set (g := pg_grid st) in *.
  pose proof (apply_gravity_occupied g Hwf) as Hgrav.
  split_and!; [done| |].
  - destruct (clear_pass (apply_gravity g) (apply_gravity_wf g Hwf))
      as (cleared & groups & g' & Hs & Hc & Ho).
    exists cleared, groups, g'. by rewrite <-Hgrav.
  - destruct (chain_passes_total (chain_fuel g) g Hwf (chain_fuel_enough g))
      as (passes & g' & Hp & Hlen & _).
    pose proof (occupied_bound g) as Hb.
    eexists. split_and!.
    + unfold process_chains. rewrite process_chains_loop_passes.
      change (pg_grid (set_chain st 0)) with g. fold g.
      rewrite Hp. simpl. reflexivity.
    + intros fuel Hfuel. rewrite process_chains_loop_passes.
      change (pg_grid (set_chain st 0)) with g.
      rewrite (chain_passes_mono _ fuel g _ Hp Hfuel). simpl. reflexivity.
    + simpl. lia.
    + simpl. lia.
    + simpl. intros Hw Hh. rewrite Hw, Hh in Hb. simpl in Hb. lia.
Qed.

Lemma process_chains_terminates_witness :
  occupied (apply_gravity two_groups_grid) = occupied two_groups_grid
  ∧ ∃ st',
      process_chains
        (game_on two_groups_grid (new_pair_default 1 2) (new_pair_default 3 4))
      = Some st'
      ∧ chain_count st' ≤ 18.
Proof.
  destruct (process_chains_terminates
              (game_on two_groups_grid (new_pair_default 1 2)
                       (new_pair_default 3 4)))
    as (Hg & _ & st' & Hp & _ & _ & _ & H18).
  - apply wf_decide. vm_compute. reflexivity.
  - split; [exact Hg|]. exists st'. split; [exact Hp|]. by apply H18.
Defined.

(** C3: every pass of [process_chains] that clears something adds
    [cleared_count * 10 * max(1, chain_count * 2) * groups_cleared] to the
    score, with the chain count reset to 0 before the loop and stepped once
    before the points of each clearing pass are added; two squares of four
    cleared in one pass as chain 1 give 8 * 10 * 2 * 2 = 320. *)
Theorem process_chains_score (st : PuyoGame) :
  wf (pg_grid st) →
  (∀ fuel cleared groups g',
     find_and_clear_groups (apply_gravity (pg_grid st))
     = Some (cleared, groups, g') →
     cleared ≠ 0 →
     process_chains_loop (S fuel) st
     = process_chains_loop fuel
         (mkPuyoGame g' (current_pair st) (next_pair st)
            (score st
             + cleared * 10 * Z.max 1 ((chain_count st + 1) * 2) * groups)
            (chain_count st + 1)
            (game_over st) (fall_timer st) (drawn st)))
  ∧ (∃ passes g',
       chain_passes (chain_fuel (pg_grid st)) (pg_grid st) = Some (passes, g')
       ∧ Forall (λ pass, 4 ≤ pass.1) passes
       ∧ process_chains st
         = Some (mkPuyoGame g' (current_pair st) (next_pair st)
                   (score st + chain_score 0 passes)
                   (Z.of_nat (length passes))
                   (game_over st) (fall_timer st) (drawn st)))
  ∧ find_and_clear_groups (apply_gravity two_groups_grid)
    = Some (8, 2, default_grid)
  ∧ process_chains
      (game_on two_groups_grid (new_pair_default 1 2) (new_pair_default 3 4))
    = Some (mkPuyoGame default_grid (new_pair_default 1 2)
              (new_pair_default 3 4) 320 1 false 0 0).
Proof.
  intros Hwf. split_and!.
  - intros fuel cleared groups g' Hs Hne. cbn [process_chains_loop].
    rewrite Hs. cbn [mbind option_bind].
    by rewrite bool_decide_eq_false_2 by done.
  - destruct (chain_passes_total (chain_fuel (pg_grid st)) (pg_grid st) Hwf
                (chain_fuel_enough _)) as (passes & g' & Hp & _ & Hall).
    exists passes, g'. split_and!; [done|done|].
    unfold process_chains. rewrite process_chains_loop_passes.
    change (pg_grid (set_chain st 0)) with (pg_grid st).
    rewrite Hp. simpl. done.
  - vm_compute. reflexivity.
  - vm_compute. reflexivity.
Qed.

Lemma process_chains_score_witness :
  ∃ passes g',
    chain_passes (chain_fuel two_groups_grid) two_groups_grid
    = Some (passes, g')
    ∧ process_chains
        (game_on two_groups_grid (new_pair_default 1 2) (new_pair_default 3 4))
      = Some (mkPuyoGame g' (new_pair_default 1 2) (new_pair_default 3 4)
                (0 + chain_score 0 passes) (Z.of_nat (length passes))
                false 0 0).
Proof.
  destruct (process_chains_score
              (game_on two_groups_grid (new_pair_default 1 2)
                       (new_pair_default 3 4)))
    as (_ & (passes & g' & Hp & _ & Hs) & _).
  - apply wf_decide. vm_compute. reflexivity.
  - exists passes, g'. split; [exact Hp|exact Hs].
Defined.

Lemma settle_row_unfold (fuel : nat) (g : GameGrid) (x y : Z) :
  settle_row fuel g x y
  = if bool_decide (y + 1 < height g) then
      below ← py_cell g x (y + 1);
      if bool_decide (below = 0) then
        match fuel with
        | O => None
        | S fuel => settle_row fuel g x (y + 1)
        end
      else Some y
    else Some y.
Proof. by destruct fuel. Qed.

(** The scan of an in-range column from row [y]: it stops on the first row
    at or below [y] whose lower neighbour is the floor or an occupied
    cell, having passed empty cells only. *)
Lemma settle_row_scan (fuel : nat) (g : GameGrid) (x : Z) : ∀ y,
  wf g → 0 ≤ x < width g → -1 ≤ y → height g - y ≤ Z.of_nat fuel →
  ∃ fy, settle_row fuel g x y = Some fy
        ∧ y ≤ fy
        ∧ (y < height g → fy < height g)
        ∧ (∀ y', y < y' ≤ fy → cell g x y' = 0)
        ∧ (fy + 1 < height g → cell g x (fy + 1) ≠ 0).
Proof.
  induction fuel as [|n IH]; intros y Hwf Hx Hy Hfuel;
    rewrite settle_row_unfold; case_bool_decide as Hlt; try lia.
  - exists y. split_and!; try done; lia.
  - rewrite py_cell_in_bounds by (done || (split; lia)).
    cbn [mbind option_bind]. case_bool_decide as Hz.
    + destruct (IH (y + 1) Hwf Hx) as (fy & Hs & Hle & Hh & Hzero & Hstop);
        [lia..|].
      exists fy. split_and!; try done; try lia.
      intros y' Hy'. destruct (decide (y' = y + 1)) as [->|?]; [done|].
      apply Hzero. lia.
    + exists y. split_and!; try done; lia.
  - exists y. split_and!; try done; lia.
Qed.

Lemma get_positions_rotation (p : PuyoPair) :
  0 ≤ rotation_state p < 4 →
  get_positions p
  = (main_puyo p,
     if bool_decide (rotation_state p = 0)
     then mkPosition (pos_x (main_puyo p) + 1) (pos_y (main_puyo p))
     else if bool_decide (rotation_state p = 1)
     then mkPosition (pos_x (main_puyo p)) (pos_y (main_puyo p) + 1)
     else if bool_decide (rotation_state p = 2)
     then mkPosition (pos_x (main_puyo p) - 1) (pos_y (main_puyo p))
     else mkPosition (pos_x (main_puyo p)) (pos_y (main_puyo p) - 1)).
Proof.
  intros Hr. unfold get_positions. f_equal.
  assert (rotation_state p = 0 ∨ rotation_state p = 1
          ∨ rotation_state p = 2 ∨ rotation_state p = 3) as Hcases by lia.
  destruct Hcases as [-> | [-> | [-> | ->]]]; simpl; unfold pos_add; simpl;
    f_equal; lia.
Qed.

(** C4, the counterexample: an upright pair on the floor of an empty board.
    Main first leaves both colours in the column; sub first lets the sub
    cell fall to the floor, where the main cell then overwrites it. *)
Lemma place_pair_order_matters :
  place_pair default_grid upright_pair
  ≠ place_pair_sub_first default_grid upright_pair.
Proof. vm_compute. discriminate. Qed.

(** What the scan has read when it returns [fy]: empty cells in the rows
    it passed, and below [fy] the floor or an occupied cell. *)
Lemma settle_row_reads (fuel : nat) (g : GameGrid) (x : Z) : ∀ y fy,
  settle_row fuel g x y = Some fy →
  y ≤ fy
  ∧ (∀ y', y < y' ≤ fy → py_cell g x y' = Some 0)
  ∧ (fy + 1 < height g → ∃ below, py_cell g x (fy + 1) = Some below ∧ below ≠ 0).
Proof.
  induction fuel as [|n IH]; intros y fy; rewrite settle_row_unfold;
    (case_bool_decide as Hlt; [|intros [= <-]; split_and!; [lia|lia|done]]);
    (destruct (py_cell g x (y + 1)) as [below|] eqn:Eb; [|done]);
    cbn [mbind option_bind]; (case_bool_decide as Hz; [|]); try done.
  - intros [= <-]. split_and!; [lia|lia|]. intros _. by exists below.
  - intros Hs. destruct (IH _ _ Hs) as (Hle & Hzero & Hstop).
    split_and!; [lia| |done].
    intros y' Hy'. destruct (decide (y' = y + 1)) as [->|?].
    + by rewrite Eb, Hz.
    + apply Hzero. lia.
  - intros [= <-]. split_and!; [lia|lia|]. intros _. by exists below.
Qed.

(** C4, amended: [place_pair] settles the main cell, then the sub cell on
    the grid the main cell left.  Each cell scans down from its row while
    the row below is above the floor and the cell read there is empty, and
    is written where the scan stops; for a cell inside the board the cell
    read is the one directly below.  When the two cells are in different
    columns (rotation states 0 and 2) the final grid is the same in either
    order. *)
Theorem place_pair_order_columns (g : GameGrid) (p : PuyoPair) :
  wf g → rotation_state p = 0 ∨ rotation_state p = 2 →
  place_pair g p
  = (g1 ← settle g (get_positions p).1 (main_color p);
     settle g1 (get_positions p).2 (sub_color p))
  ∧ place_pair g p = place_pair_sub_first g p
  ∧ (∀ pos c g',
       settle g pos c = Some g' →
       ∃ fy, g' = place_puyo g (pos_x pos) fy c
             ∧ pos_y pos ≤ fy
             ∧ (∀ y', pos_y pos < y' ≤ fy →
                  py_cell g (pos_x pos) y' = Some 0)
             ∧ (fy + 1 < height g →
                ∃ below, py_cell g (pos_x pos) (fy + 1) = Some below
                         ∧ below ≠ 0))
  ∧ (∀ pos c,
       settle g pos c = None ↔ settle_raises g (pos_x pos) (pos_y pos))
  ∧ ∀ pos c,
      in_bounds g (pos_x pos) (pos_y pos) →
      ∃ fy, settle g pos c = Some (set_cell g (pos_x pos) fy c)
            ∧ pos_y pos ≤ fy < height g
            ∧ (∀ y', pos_y pos < y' ≤ fy → cell g (pos_x pos) y' = 0)
            ∧ (fy + 1 < height g → cell g (pos_x pos) (fy + 1) ≠ 0).
Proof.
  intros Hwf Hrot. split_and!.
  - unfold place_pair. by destruct (get_positions p).
  - unfold place_pair, place_pair_sub_first.
    rewrite get_positions_rotation by lia.
    apply settle_commute; [done|].
    destruct Hrot as [-> | ->]; simpl; lia.
  - intros pos c g'. unfold settle.
    destruct (settle_row _ g (pos_x pos) (pos_y pos)) as [fy|] eqn:Es; [|done].
    cbn [mbind option_bind]. intros [= <-]. exists fy.
    split; [done|]. by eapply settle_row_reads.
  - intros pos c. unfold settle.
    rewrite <-(settle_row_None (Z.to_nat (height g - pos_y pos)) g
                 (pos_x pos) (pos_y pos) Hwf) by lia.
    by destruct (settle_row _ g (pos_x pos) (pos_y pos)).
  - intros pos c [Hx Hy]. unfold settle.
    destruct (settle_row_scan (Z.to_nat (height g - pos_y pos)) g (pos_x pos)
                (pos_y pos) Hwf Hx) as (fy & Hs & Hle & Hh & Hzero & Hstop);
      [lia..|].
    exists fy. rewrite Hs. cbn [mbind option_bind]. split_and!; try done.
    + unfold place_puyo. rewrite bool_decide_eq_true_2; [done|]. lia.
    + lia.
Qed.

Lemma place_pair_order_columns_witness :
  place_pair two_groups_grid (new_pair 3 4 2 0)
  = place_pair_sub_first two_groups_grid (new_pair 3 4 2 0).
Proof.
  apply (place_pair_order_columns two_groups_grid (new_pair 3 4 2 0)).
  - apply wf_decide. vm_compute. reflexivity.
  - left. reflexivity.
Defined.

Lemma set_cell_occupied (g : GameGrid) (x y v : Z) :
  wf g → in_bounds g x y → cell g x y = 0 → v ≠ 0 →
  occupied (set_cell g x y v) = S (occupied g).
Proof.
  intros Hwf [Hx Hy] Hz Hv.
  assert (occupied_set (set_cell g x y v) = {[ (x, y) ]} ∪ occupied_set g)
    as Heq.
  { apply set_eq. intros [x' y'].
    rewrite elem_of_union, elem_of_singleton, !elem_of_occupied_set.
    unfold inside, in_bounds, color_at. simpl. split.
    - intros [[Hx' Hy'] Hc]. rewrite cell_set_cell in Hc by first [done|lia].
      destruct (decide (x' = x ∧ y' = y)) as [[-> ->]|?]; [by left|by right].
    - intros [[= -> ->]|[[Hx' Hy'] Hc]].
      + split; [done|]. by rewrite cell_set_cell_eq.
      + split; [done|]. rewrite cell_set_cell by first [done|lia].
        destruct (decide (x' = x ∧ y' = y)) as [[-> ->]|?]; done. }
  rewrite !occupied_size, Heq, size_union, size_singleton; [done|].
  intros q ->%elem_of_singleton [_ Hq]%elem_of_occupied_set.
  by apply Hq.
Qed.

(** C10: a pair with its sub cell above the board (rotation state 3, anchor
    in row 0) over a column that is full below row 0.  The main cell is
    written into row 0; the scan for the sub cell starts at row -1, sees
    the main cell in row 0 and stops at -1; [place_puyo] ignores row -1.
    No exception is raised, the sub colour is written nowhere, and the
    board gains one occupied cell, not two. *)
Theorem place_pair_drops_sub_cell (g : GameGrid) (p : PuyoPair) (x : Z) :
  wf g → rotation_state p = 3 → main_puyo p = mkPosition x 0 →
  0 ≤ x < width g → 1 < height g →
  cell g x 0 = 0 → cell g x 1 ≠ 0 → main_color p ≠ 0 →
  settle_row (Z.to_nat (height g + 1)) (set_cell g x 0 (main_color p)) x (-1)
  = Some (-1)
  ∧ place_puyo (set_cell g x 0 (main_color p)) x (-1) (sub_color p)
    = set_cell g x 0 (main_color p)
  ∧ place_pair g p = Some (set_cell g x 0 (main_color p))
  ∧ occupied (set_cell g x 0 (main_color p)) = S (occupied g)
  ∧ ∀ x' y', in_bounds g x' y' → (x', y') ≠ (x, 0) →
      cell (set_cell g x 0 (main_color p)) x' y' = cell g x' y'.
Proof.
  intros Hwf Hrot Hmain Hx Hh Htop Hbelow Hmc.
  set (g1 := set_cell g x 0 (main_color p)).
  assert (wf g1) as Hwf1 by by apply set_cell_wf.
  assert (settle_row (Z.to_nat (height g + 1)) g1 x (-1) = Some (-1)) as Hsub.
  { rewrite settle_row_unfold.
    rewrite bool_decide_eq_true_2 by (simpl; lia).
    rewrite py_cell_in_bounds by (done || (split; simpl; lia)).
    cbn [mbind option_bind]. unfold g1.
    rewrite cell_set_cell_eq by first [done|lia].
    by rewrite bool_decide_eq_false_2. }
  assert (place_puyo g1 x (-1) (sub_color p) = g1) as Hplace.
  { unfold place_puyo. rewrite bool_decide_eq_false_2; [done|]. lia. }
  split_and!; try done.
  - assert (settle g (mkPosition x 0) (main_color p) = Some g1) as Hm.
    { unfold settle. simpl pos_x. simpl pos_y. rewrite settle_row_unfold.
      rewrite bool_decide_eq_true_2 by lia.
      rewrite py_cell_in_bounds by (done || (split; lia)).
      cbn [mbind option_bind].
      rewrite bool_decide_eq_false_2 by done. cbn [mbind option_bind].
      unfold place_puyo. by rewrite bool_decide_eq_true_2 by lia. }
    unfold place_pair. rewrite get_positions_rotation by lia.
    rewrite Hrot, Hmain. simpl bool_decide. cbv iota. simpl pos_x. simpl pos_y.
    rewrite Hm. cbn [mbind option_bind]. unfold settle. simpl pos_x. simpl pos_y.
    replace (Z.to_nat (height g1 - (0 - 1))) with (Z.to_nat (height g + 1))
      by (simpl; lia).
    change (0 - 1) with (-1). rewrite Hsub. cbn [mbind option_bind].
    by rewrite Hplace.
  - apply set_cell_occupied; try done. split; lia.
  - intros x' y' [Hx' Hy'] Hne. apply cell_set_cell_ne; try done; lia.
Qed.

Lemma place_pair_drops_sub_cell_witness :
  place_pair stacked_column_grid overhanging_pair
  = Some (set_cell stacked_column_grid 2 0 3)
  ∧ occupied (set_cell stacked_column_grid 2 0 3)
    = S (occupied stacked_column_grid).
Proof.
  destruct (place_pair_drops_sub_cell stacked_column_grid overhanging_pair 2)
    as (_ & _ & Hp & Ho & _).
  - apply wf_decide. vm_compute. reflexivity.
  - reflexivity.
  - reflexivity.
  - split; by vm_compute.
  - by vm_compute.
  - vm_compute. reflexivity.
  - vm_compute. discriminate.
  - vm_compute. discriminate.
  - split; [exact Hp|exact Ho].
Defined.

Lemma is_valid_position_occupiable (g : GameGrid) (x y : Z) :
  is_valid_position g x y = true ↔ occupiable g x y.
Proof.
  unfold is_valid_position, occupiable, in_bounds.
  rewrite !andb_true_iff, !bool_decide_eq_true. tauto.
Qed.

Lemma is_valid_position_decide (g : GameGrid) (x y : Z) :
  is_valid_position g x y = bool_decide (occupiable g x y).
Proof.
  destruct (is_valid_position g x y) eqn:E; symmetry.
  - by apply bool_decide_eq_true, is_valid_position_occupiable.
  - apply bool_decide_eq_false. intros H%is_valid_position_occupiable.
    congruence.
Qed.

Lemma can_place_pair_fits (g : GameGrid) (p : PuyoPair) :
  0 ≤ rotation_state p < 4 →
  can_place_pair g p
  = pair_fits g (pos_x (main_puyo p)) (pos_y (main_puyo p))
              (rotation_state p).
Proof.
  intros Hr. destruct p as [[x y] s mc sc r]. simpl in Hr |- *.
  unfold pair_fits. rewrite bool_decide_and, <-!is_valid_position_decide.
  unfold can_place_pair, get_positions, sub_cell. simpl.
  assert (r = 0 ∨ r = 1 ∨ r = 2 ∨ r = 3) as [-> | [-> | [-> | ->]]] by lia;
    simpl; by rewrite ?Z.add_0_r.
Qed.

(** C5: a proposed move or rotation is committed iff the pair fits at the
    proposed place, and in no other way.  For a live pair with anchor
    [(x, y)] and rotation state [r] in [0 .. 3]: [can_place_pair] is the
    spec's test that the anchor cell and the sub cell (right, below, left,
    above for state 0, 1, 2, 3) are both in range and empty;
    [can_move_pair dx dy] asks it for anchor [(x + dx, y + dy)] and state
    [r], [can_rotate_pair] for anchor [(x, y)] and state [(r + 1) mod 4] or
    [(r - 1) mod 4].  While the game runs, left, right and down give the
    state with the anchor at [(x - 1, y)], [(x + 1, y)], [(x, y + 1)] and
    the same rotation state, z and x the state with the same anchor and
    rotation state [(r + 1) mod 4], c with [(r - 1) mod 4], when the pair
    fits there, and the state exactly as it was when it does not: no other
    placement is tried.  Colours, board, score and the rest are untouched
    either way.  When the game is over these keys change nothing. *)
Theorem moves_and_rotations_commit (rnd : nat → Z) (st : PuyoGame)
    (x y r : Z) :
  main_puyo (current_pair st) = mkPosition x y →
  rotation_state (current_pair st) = r →
  0 ≤ r < 4 →
  (∀ g p, 0 ≤ rotation_state p < 4 →
     can_place_pair g p
     = pair_fits g (pos_x (main_puyo p)) (pos_y (main_puyo p))
                 (rotation_state p))
  ∧ (∀ dx dy,
       can_move_pair st dx dy = pair_fits (pg_grid st) (x + dx) (y + dy) r)
  ∧ can_rotate_pair st true = pair_fits (pg_grid st) x y ((r + 1) mod 4)
  ∧ can_rotate_pair st false = pair_fits (pg_grid st) x y ((r - 1) mod 4)
  ∧ (game_over st = false →
     handle_input rnd (KEYDOWN K_LEFT) st = Some (try_pair st (x - 1) y r)
     ∧ handle_input rnd (KEYDOWN K_RIGHT) st = Some (try_pair st (x + 1) y r)
     ∧ handle_input rnd (KEYDOWN K_DOWN) st = Some (try_pair st x (y + 1) r)
     ∧ handle_input rnd (KEYDOWN K_z) st
       = Some (try_pair st x y ((r + 1) mod 4))
     ∧ handle_input rnd (KEYDOWN K_x) st
       = Some (try_pair st x y ((r + 1) mod 4))
     ∧ handle_input rnd (KEYDOWN K_c) st
       = Some (try_pair st x y ((r - 1) mod 4)))
  ∧ (game_over st = true →
     ∀ key, key ∈ pair_keys → handle_input rnd (KEYDOWN key) st = Some st).
Proof.
  intros Hm Hrot Hr.
  assert (∀ dx dy,
            can_move_pair st dx dy
            = pair_fits (pg_grid st) (x + dx) (y + dy) r) as Hmove.
  { intros dx dy. rewrite can_move_pair_current, can_place_pair_fits.
    - simpl. by rewrite Hm, Hrot.
    - simpl. by rewrite Hrot. }
  assert (can_rotate_pair st true
          = pair_fits (pg_grid st) x y ((r + 1) mod 4)) as Hcw.
  { rewrite can_rotate_pair_current, can_place_pair_fits.
    - simpl. by rewrite Hm, Hrot.
    - apply rotate_clockwise_range. }
  assert (can_rotate_pair st false
          = pair_fits (pg_grid st) x y ((r - 1) mod 4)) as Hccw.
  { rewrite can_rotate_pair_current, can_place_pair_fits.
    - simpl. by rewrite Hm, Hrot.
    - apply rotate_counter_clockwise_range. }
  assert (∀ dx dy,
            move_current st dx dy = with_pair st (x + dx) (y + dy) r) as Hmv.
  { intros dx dy. unfold move_current, set_current, move, set_main, with_pair.
    rewrite Hm, Hrot. reflexivity. }
  assert (set_current st (rotate_clockwise (current_pair st))
          = with_pair st x y ((r + 1) mod 4)) as Hrc.
  { unfold set_current, rotate_clockwise, set_rotation, with_pair.
    by rewrite Hm, Hrot. }
  assert (set_current st (rotate_counter_clockwise (current_pair st))
          = with_pair st x y ((r - 1) mod 4)) as Hrcc.
  { unfold set_current, rotate_counter_clockwise, set_rotation, with_pair.
    by rewrite Hm, Hrot. }
  split_and!; try done.
  - intros g p. apply can_place_pair_fits.
  - intros Hrun. unfold handle_input, try_pair. rewrite Hrun. cbn [negb].
    rewrite !Hmove, Hcw, Hccw, !Hmv, Hrc, Hrcc.
    replace (x + -1) with (x - 1) by lia.
    rewrite !Z.add_0_r. done.
  - intros Hover key Hkey. unfold handle_input. rewrite Hover. cbn [negb].
    destruct key; try done.
    exfalso. revert Hkey. unfold pair_keys.
    rewrite !elem_of_cons, elem_of_nil. intuition discriminate.
Qed.

Lemma moves_and_rotations_commit_witness :
  handle_input (λ _, 1) (KEYDOWN K_LEFT)
    (game_on default_grid (new_pair 1 2 4 0) (new_pair_default 3 4))
  = Some (game_on default_grid
            (mkPuyoPair (mkPosition 3 0) (mkPosition 5 0) 1 2 0)
            (new_pair_default 3 4))
  ∧ handle_input (λ _, 1) (KEYDOWN K_z)
      (game_on default_grid (new_pair 1 2 4 0) (new_pair_default 3 4))
    = Some (game_on default_grid
              (mkPuyoPair (mkPosition 4 0) (mkPosition 5 0) 1 2 1)
              (new_pair_default 3 4))
  ∧ handle_input (λ _, 1) (KEYDOWN K_z)
      (game_on default_grid (new_pair 1 2 2 11) (new_pair_default 3 4))
    = Some (game_on default_grid (new_pair 1 2 2 11) (new_pair_default 3 4))
  ∧ handle_input (λ _, 1) (KEYDOWN K_RIGHT)
      (game_on default_grid (new_pair 1 2 4 0) (new_pair_default 3 4))
    = Some (game_on default_grid (new_pair 1 2 4 0) (new_pair_default 3 4)).
Proof.
  destruct (moves_and_rotations_commit (λ _, 1)
              (game_on default_grid (new_pair 1 2 4 0) (new_pair_default 3 4))
              4 0 0 eq_refl eq_refl ltac:(lia))
    as (_ & _ & _ & _ & Hrun & _).
  destruct (Hrun eq_refl) as (Hleft & Hright & _ & Hz & _).
  destruct (moves_and_rotations_commit (λ _, 1)
              (game_on default_grid (new_pair 1 2 2 11)
                       (new_pair_default 3 4))
              2 11 0 eq_refl eq_refl ltac:(lia))
    as (_ & _ & _ & _ & Hrun' & _).
  destruct (Hrun' eq_refl) as (_ & _ & _ & Hz' & _).
  split_and!.
  - etrans; [exact Hleft|]. vm_compute. reflexivity.
  - etrans; [exact Hz|]. vm_compute. reflexivity.
  - etrans; [exact Hz'|]. vm_compute. reflexivity.
  - etrans; [exact Hright|]. vm_compute. reflexivity.
Defined.

(** C6: [spawn_new_pair] puts the next pair at the spawn anchor [(2, 0)]
    with rotation state 0, so that its cells are [(2, 0)] and [(3, 0)], and
    turns the game-over flag on iff these two cells are not both
    occupiable; it never turns the flag off and leaves the board alone.
    [restart_game] turns the flag off, sets score, chain count and timer to
    0 and starts from a new board: 12 rows of 6 empty cells each, every one
    of which the list access [grid[y][x]] finds and reads as 0. *)
Theorem spawn_and_restart (rnd : nat → Z) (st : PuyoGame) :
  (game_over st = false →
   (game_over (spawn_new_pair rnd st) = true
    ↔ ¬ (occupiable (pg_grid st) 2 0 ∧ occupiable (pg_grid st) 3 0)))
  ∧ (game_over st = true → game_over (spawn_new_pair rnd st) = true)
  ∧ get_positions (current_pair (spawn_new_pair rnd st))
    = (mkPosition 2 0, mkPosition 3 0)
  ∧ rotation_state (current_pair (spawn_new_pair rnd st)) = 0
  ∧ pg_grid (spawn_new_pair rnd st) = pg_grid st
  ∧ game_over (restart_game rnd st) = false
  ∧ score (restart_game rnd st) = 0
  ∧ chain_count (restart_game rnd st) = 0
  ∧ fall_timer (restart_game rnd st) = 0
  ∧ pg_grid (restart_game rnd st) = new_grid 6 12
  ∧ width (pg_grid (restart_game rnd st)) = 6
  ∧ height (pg_grid (restart_game rnd st)) = 12
  ∧ grid (pg_grid (restart_game rnd st))
    = replicate 12 (replicate 6 0)
  ∧ wf (pg_grid (restart_game rnd st))
  ∧ (∀ x y, 0 ≤ x < 6 → 0 ≤ y < 12 →
       py_cell (pg_grid (restart_game rnd st)) x y = Some 0)
  ∧ (∀ x y, cell (pg_grid (restart_game rnd st)) x y = 0)
  ∧ occupied (pg_grid (restart_game rnd st)) = 0%nat.
Proof.
  assert (∀ q, can_place_pair (pg_grid st)
                 (set_rotation
                    (set_main q (mkPosition (GRID_WIDTH / 2 - 1) 0)) 0)
               = is_valid_position (pg_grid st) 2 0
                 && is_valid_position (pg_grid st) 3 0) as Hcp by done.
  split_and!; try done.
  - intros Hrun. unfold spawn_new_pair, generate_new_pair.
    cbn [game_over pg_grid]. rewrite Hrun, Hcp.
    rewrite <-!is_valid_position_occupiable.
    destruct (is_valid_position (pg_grid st) 2 0),
             (is_valid_position (pg_grid st) 3 0); cbn;
      intuition congruence.
  - intros Hover. unfold spawn_new_pair, generate_new_pair.
    cbn [game_over]. rewrite Hover. by destruct (negb _).
  - apply wf_new_grid.
  - intros x y Hx Hy.
    rewrite py_cell_in_bounds; [|apply wf_new_grid|by split].
    f_equal. apply cell_new_grid.
  - intros x y. apply cell_new_grid.
Qed.

Lemma spawn_and_restart_witness :
  game_over (spawn_new_pair (λ _, 1) blocked_spawn_game) = true
  ∧ game_over
      (spawn_new_pair (λ _, 1)
         (game_on default_grid (new_pair_default 1 2) (new_pair_default 3 4)))
    = false
  ∧ game_over
      (restart_game (λ _, 1) (spawn_new_pair (λ _, 1) blocked_spawn_game))
    = false
  ∧ score
      (restart_game (λ _, 1) (spawn_new_pair (λ _, 1) blocked_spawn_game))
    = 0
  ∧ grid (pg_grid
            (restart_game (λ _, 1)
               (spawn_new_pair (λ _, 1) blocked_spawn_game)))
    = replicate 12 (replicate 6 0).
Proof.
  destruct (spawn_and_restart (λ _, 1) blocked_spawn_game)
    as (Hblocked & _).
  destruct (spawn_and_restart (λ _, 1)
              (game_on default_grid (new_pair_default 1 2)
                       (new_pair_default 3 4)))
    as (Hfree & _).
  destruct (spawn_and_restart (λ _, 1)
              (spawn_new_pair (λ _, 1) blocked_spawn_game))
    as (_ & _ & _ & _ & _ & Hflag & Hscore & _ & _ & _ & _ & _ & Hgrid & _).
  split_and!.
  - apply (Hblocked eq_refl). intros [_ [_ H]]. vm_compute in H. discriminate.
  - apply not_true_is_false. intros E. apply (proj1 (Hfree eq_refl) E).
    split; (split; [split; by vm_compute|by vm_compute]).
  - exact Hflag.
  - exact Hscore.
  - exact Hgrid.
Defined.

(** C8, the counterexample: the same initial state and the same three
    hard drops, with a random source that returns 1 and with one that
    returns 2, end on different boards: the third pair dropped has the
    colours drawn inside [spawn_new_pair]. *)
Lemma random_colors_change_the_board :
  pg_grid <$> run (λ _, 1) three_hard_drops
                  (game_on default_grid (new_pair_default 1 2)
                           (new_pair_default 3 4))
  ≠ pg_grid <$> run (λ _, 2) three_hard_drops
                    (game_on default_grid (new_pair_default 1 2)
                             (new_pair_default 3 4)).
Proof. vm_compute. discriminate. Qed.

(** C8, amended: the colours of a new pair are generated inside the core:
    every spawn draws two values from the random source, in this order the
    main and the sub colour of the new next pair.  The state after a run is
    a function of the initial state, the inputs and the values drawn: two
    runs with the same inputs and the same draws end in the same state. *)
Theorem run_determined_by_draws (rnd1 rnd2 : nat → Z)
    (inputs : list Input) (st : PuyoGame) :
  (∀ n, rnd1 n = rnd2 n) →
  run rnd1 inputs st = run rnd2 inputs st
  ∧ next_pair (spawn_new_pair rnd1 st)
    = new_pair_default (rnd1 (drawn st)) (rnd1 (S (drawn st)))
  ∧ drawn (spawn_new_pair rnd1 st) = S (S (drawn st))
  ∧ main_color (current_pair (spawn_new_pair rnd1 st))
    = main_color (next_pair st)
  ∧ sub_color (current_pair (spawn_new_pair rnd1 st))
    = sub_color (next_pair st).
Proof.
  intros Hdraws. split_and!; try done. by apply run_ext.
Qed.

Lemma run_determined_by_draws_witness :
  run (λ n, 1 + Z.of_nat n mod 5) three_hard_drops
      (game_on default_grid (new_pair_default 1 2) (new_pair_default 3 4))
  = run (λ n, 1 + Z.of_nat (n + 0) mod 5) three_hard_drops
        (game_on default_grid (new_pair_default 1 2) (new_pair_default 3 4)).
Proof.
  refine (proj1 (run_determined_by_draws
                   (λ n, 1 + Z.of_nat n mod 5)
                   (λ n, 1 + Z.of_nat (n + 0) mod 5) three_hard_drops
                   (game_on default_grid (new_pair_default 1 2)
                            (new_pair_default 3 4)) _)).
  intros n. by rewrite Nat.add_0_r.
Defined.

(** * Further properties of the code *)

(** X1: the two rotations undo each other and four quarter turns give the
    pair back, for a rotation state in [0 .. 3]; whatever the state was,
    a rotation leaves it in [0 .. 3] and keeps colours and anchor. *)
Theorem rotation_round_trip (p : PuyoPair) :
  0 ≤ rotation_state p < 4 →
  rotate_counter_clockwise (rotate_clockwise p) = p
  ∧ rotate_clockwise (rotate_counter_clockwise p) = p
  ∧ rotate_clockwise
      (rotate_clockwise (rotate_clockwise (rotate_clockwise p))) = p
  ∧ 0 ≤ rotation_state (rotate_clockwise p) < 4
  ∧ 0 ≤ rotation_state (rotate_counter_clockwise p) < 4.
Proof.
  intros Hr. destruct p as [m s mc sc r]. simpl in Hr.
  unfold rotate_clockwise, rotate_counter_clockwise, set_rotation. simpl.
  assert (r = 0 ∨ r = 1 ∨ r = 2 ∨ r = 3) as Hcases by lia.
  destruct Hcases as [-> | [-> | [-> | ->]]]; by vm_compute.
Qed.

Lemma rotation_round_trip_witness :
  rotate_counter_clockwise (rotate_clockwise upright_pair) = upright_pair
  ∧ rotate_clockwise (rotate_counter_clockwise upright_pair) = upright_pair.
Proof.
  destruct (rotation_round_trip upright_pair) as (H1 & H2 & _).
  - simpl. lia.
  - split; [exact H1|exact H2].
Defined.

(** X2: the sub cell of a pair is the right, lower, left or upper
    neighbour of the anchor for rotation state 0, 1, 2 or 3, and
    [can_place_pair] holds iff the anchor cell and that neighbour are both
    in range and empty. *)
Theorem can_place_pair_cells (g : GameGrid) (p : PuyoPair) :
  0 ≤ rotation_state p < 4 →
  (get_positions p).1 = main_puyo p
  ∧ sub_position p
    = pos_add (main_puyo p)
        (if bool_decide (rotation_state p = 0) then mkPosition 1 0
         else if bool_decide (rotation_state p = 1) then mkPosition 0 1
         else if bool_decide (rotation_state p = 2) then mkPosition (-1) 0
         else mkPosition 0 (-1))
  ∧ adjacent (pos_x (main_puyo p), pos_y (main_puyo p))
             (pos_x (sub_position p), pos_y (sub_position p))
  ∧ (can_place_pair g p = true
     ↔ occupiable g (pos_x (main_puyo p)) (pos_y (main_puyo p))
       ∧ occupiable g (pos_x (sub_position p)) (pos_y (sub_position p))).
Proof.
  intros Hr. unfold sub_position.
  assert (rotation_state p = 0 ∨ rotation_state p = 1
          ∨ rotation_state p = 2 ∨ rotation_state p = 3) as Hcases by lia.
  split_and!.
  - done.
  - unfold get_positions. simpl.
    destruct Hcases as [-> | [-> | [-> | ->]]]; done.
  - unfold get_positions, adjacent. simpl.
    destruct Hcases as [-> | [-> | [-> | ->]]]; simpl.
    + do 2 right; left. f_equal; lia.
    + left. f_equal; lia.
    + do 3 right. f_equal; lia.
    + right; left. f_equal; lia.
  - unfold can_place_pair. destruct (get_positions p) as [m s] eqn:E.
    assert (m = main_puyo p) as -> by (by injection E).
    simpl. rewrite andb_true_iff, !is_valid_position_occupiable. done.
Qed.

Lemma can_place_pair_cells_witness :
  can_place_pair default_grid upright_pair = true
  ↔ occupiable default_grid 2 11 ∧ occupiable default_grid 2 10.
Proof.
  destruct (can_place_pair_cells default_grid upright_pair) as (_ & _ & _ & H).
  - simpl. lia.
  - exact H.
Defined.

(** X3: [place_puyo] is permissive: outside the board it changes nothing
    and raises nothing; inside it writes the one cell and no other, on a
    board of the same size. *)
Theorem place_puyo_bounds (g : GameGrid) (x y c : Z) :
  wf g →
  wf (place_puyo g x y c)
  ∧ width (place_puyo g x y c) = width g
  ∧ height (place_puyo g x y c) = height g
  ∧ (¬ in_bounds g x y → place_puyo g x y c = g)
  ∧ (in_bounds g x y → cell (place_puyo g x y c) x y = c)
  ∧ ∀ x' y', in_bounds g x' y' → (x', y') ≠ (x, y) →
      cell (place_puyo g x y c) x' y' = cell g x' y'.
Proof.
  intros Hwf. split_and!.
  - by apply place_puyo_wf.
  - apply place_puyo_width.
  - apply place_puyo_height.
  - intros Hout. unfold place_puyo. by rewrite bool_decide_eq_false_2.
  - intros [Hx Hy]. rewrite place_puyo_cell by first [done|lia].
    by rewrite decide_True.
  - intros x' y' [Hx' Hy'] Hne. rewrite place_puyo_cell by first [done|lia].
    rewrite decide_False; [done|]. intros (_ & -> & ->). by apply Hne.
Qed.

Lemma place_puyo_bounds_witness :
  place_puyo two_groups_grid 6 0 3 = two_groups_grid
  ∧ cell (place_puyo two_groups_grid 5 0 3) 5 0 = 3.
Proof.
  destruct (place_puyo_bounds two_groups_grid 6 0 3) as (_ & _ & _ & H1 & _).
  { apply wf_decide. vm_compute. reflexivity. }
  destruct (place_puyo_bounds two_groups_grid 5 0 3) as (_ & _ & _ & _ & H2 & _).
  { apply wf_decide. vm_compute. reflexivity. }
  split.
  - apply H1. unfold in_bounds. simpl. lia.
  - apply H2. unfold in_bounds. simpl. lia.
Defined.

Lemma filter_nonzero_all (col : list Z) :
  Forall (λ c, c ≠ 0) col → filter (λ c, c ≠ 0) col = col.
Proof.
  induction 1 as [|a col Ha _ IH]; [done|].
  by rewrite filter_cons_True, IH.
Qed.

Lemma compact_cons_zero (col : list Z) : compact (0 :: col) = 0 :: compact col.
Proof.
  unfold compact. cbv zeta.
  rewrite filter_cons_False by (intros H; by apply H).
  cbn [length]. rewrite Nat.sub_succ_l by apply length_filter. done.
Qed.

(** A column that has nothing floating is its own compaction. *)
Lemma compact_fixed (col : list Z) :
  (∀ i j a b, col !! i = Some a → col !! j = Some b →
              (i < j)%nat → a ≠ 0 → b ≠ 0) →
  compact col = col.
Proof.
  induction col as [|a col IH]; intros H; [done|].
  assert (compact col = col) as Hcol.
  { apply IH. intros i j b d Hi Hj Hij.
    apply (H (S i) (S j)); [done|done|lia]. }
  destruct (decide (a = 0)) as [->|Ha].
  - by rewrite compact_cons_zero, Hcol.
  - assert (Forall (λ c, c ≠ 0) (a :: col)) as Hall.
    { constructor; [done|]. apply Forall_lookup. intros j b Hj.
      apply (H 0%nat (S j) a b); [done|done|lia|done]. }
    unfold compact. cbv zeta. rewrite filter_nonzero_all by done.
    by rewrite Nat.sub_diag.
Qed.

Lemma column_lookup_Some (g : GameGrid) (x : Z) (i : nat) (a : Z) :
  column g x !! i = Some a →
  a = cell g x (Z.of_nat i) ∧ Z.of_nat i < height g.
Proof.
  unfold column. rewrite list_lookup_fmap.
  destruct (seqZ 0 (height g) !! i) as [y|] eqn:E; [|done].
  apply lookup_seqZ in E as [-> ?]. simpl. intros [= <-]. split; [|done].
  by rewrite Z.add_0_l.
Qed.

(** Two well-formed grids of one size with the same columns are equal. *)
Lemma columns_ext (g1 g2 : GameGrid) :
  wf g1 → wf g2 → width g1 = width g2 → height g1 = height g2 →
  (∀ x, 0 ≤ x < width g1 → column g1 x = column g2 x) →
  g1 = g2.
Proof.
  intros Hwf1 Hwf2 Hw Hh Hcol. apply grid_ext; try done.
  intros x y [Hx Hy].
  pose proof (column_lookup g1 x y Hy) as L1.
  pose proof (column_lookup g2 x y) as L2.
  rewrite Hcol, L2 in L1 by first [done|lia]. by injection L1.
Qed.

Lemma apply_gravity_settled (g : GameGrid) : wf g → settled (apply_gravity g).
Proof.
  intros Hwf x y y' [Hx Hy] Hy' Hne.
  destruct (apply_gravity_spec g Hwf) as (Hwf' & Hw & Hh & Hc).
  rewrite Hw in Hx. rewrite Hh in Hy, Hy'.
  pose proof (column_lookup (apply_gravity g) x y) as L1.
  pose proof (column_lookup (apply_gravity g) x y') as L2.
  rewrite Hh, (Hc x Hx) in L1, L2.
  eapply (compact_settled _ (Z.to_nat y) (Z.to_nat y'));
    [apply L1|apply L2| |done]; lia.
Qed.

Lemma apply_gravity_of_settled (g : GameGrid) :
  wf g → settled g → apply_gravity g = g.
Proof.
  intros Hwf Hs.
  destruct (apply_gravity_spec g Hwf) as (Hwf' & Hw & Hh & Hc).
  apply columns_ext; try done.
  intros x Hx. rewrite Hw in Hx. rewrite (Hc x Hx).
  apply compact_fixed. intros i j a b Hi Hj Hij Ha.
  apply column_lookup_Some in Hi as [-> Hi], Hj as [-> Hj].
  apply (Hs x (Z.of_nat i)); [split| |done]; lia.
Qed.

(** X4: gravity has nothing more to do after one run: the board it leaves
    has no floating cell, a board with no floating cell is left exactly as
    it is, and so a second [apply_gravity] changes nothing. *)
Theorem apply_gravity_fixpoint (g : GameGrid) :
  wf g →
  settled (apply_gravity g)
  ∧ (settled g → apply_gravity g = g)
  ∧ apply_gravity (apply_gravity g) = apply_gravity g.
Proof.
  intros Hwf. split_and!.
  - by apply apply_gravity_settled.
  - by apply apply_gravity_of_settled.
  - apply apply_gravity_of_settled.
    + by apply apply_gravity_wf.
    + by apply apply_gravity_settled.
Qed.

Lemma apply_gravity_fixpoint_witness :
  settled (apply_gravity stacked_column_grid)
  ∧ apply_gravity (apply_gravity stacked_column_grid)
    = apply_gravity stacked_column_grid.
Proof.
  destruct (apply_gravity_fixpoint stacked_column_grid) as (H1 & _ & H2).
  - apply wf_decide. vm_compute. reflexivity.
  - split; [exact H1|exact H2].
Defined.

(** X5: the contract of [find_connected_puyos] for any [visited] set, with
    more nested calls allowed than there are unvisited cells: it returns,
    and what it returns are cells of the given colour, in range, not
    visited before and connected to the start through cells of that
    colour; exactly these are added to [visited].  It returns the empty set
    when the start is visited, out of range or of another colour, and the
    start itself otherwise. *)
Theorem find_connected_puyos_contract (g : GameGrid) (x y c : Z)
    (V : gset (Z * Z)) (depth : nat) :
  (unvisited g V < depth)%nat →
  ∃ R V',
    find_connected_puyos depth g x y c V = Some (R, V')
    ∧ V' = V ∪ R ∧ R ## V
    ∧ (∀ q, q ∈ R →
         inside g q ∧ color_at g q = c ∧ rtc (link g c) (x, y) q)
    ∧ ((x, y) ∈ V ∨ ¬ inside g (x, y) ∨ color_at g (x, y) ≠ c → R = ∅)
    ∧ ((x, y) ∉ V → inside g (x, y) → color_at g (x, y) = c →
       (x, y) ∈ R).
Proof.
  intros Hd.
  destruct (find_connected_puyos_ok g c depth x y V V Hd (closed_self g V))
    as (R & V' & Hcall & HV' & Hdisj & Hreach & _ & Hstart).
  exists R, V'. split_and!; try done.
  - intros q Hq. destruct (Hreach q Hq) as (Hin & Hc & Hr).
    destruct (reach_inside g c (x, y) q (Hreach q Hq)) as [? ?]. done.
  - intros Hedge. apply set_eq. intros q. split; [|set_solver].
    intros Hq. destruct (Hreach q Hq) as (Hin & Hc & _).
    destruct Hedge as [HV | [Hout | Hcol]]; [|done..].
    exfalso. destruct depth as [|d]; [lia|].
    cbn [find_connected_puyos] in Hcall.
    rewrite bool_decide_eq_true_2 in Hcall by done.
    injection Hcall as <- _. set_solver.
  - intros HnV Hin Hc. specialize (Hstart Hin Hc). set_solver.
Qed.

Lemma find_connected_puyos_contract_witness :
  ∃ R V',
    find_connected_puyos 73 two_groups_grid 0 10 1 ∅ = Some (R, V')
    ∧ V' = ∅ ∪ R ∧ R ## (∅ : gset (Z * Z)).
Proof.
  destruct (find_connected_puyos_contract two_groups_grid 0 10 1 ∅ 73)
    as (R & V' & H1 & H2 & H3 & _).
  - vm_compute. lia.
  - exists R, V'. split_and!; [exact H1|exact H2|exact H3].
Defined.

(** Counting in the scan: every group marked brings at least four new
    cells. *)
Lemma scan_cell_count (g : GameGrid) done V T k x y V' T' k' :
  scan_inv g done (V, T, k) → inside g (x, y) →
  scan_cell (fill_depth g) g (Some (V, T, k)) x y = Some (V', T', k') →
  4 * k ≤ Z.of_nat (size T) → 4 * k' ≤ Z.of_nat (size T').
Proof.
  intros (Hcl & _ & _ & HTV & _) Hin. unfold scan_cell.
  cbn [mbind option_bind]. case_bool_decide as Hcond.
  - destruct Hcond as [HpV Hcol].
    destruct (fill_component g V x y Hcl HpV Hin)
      as (R & V1 & Hcall & _ & Hdisj & _).
    rewrite Hcall. cbn [mbind option_bind].
    case_bool_decide as Hbig; intros [= <- <- <-]; [|done].
    intros Hk. rewrite size_union by set_solver. lia.
  - by intros [= <- <- <-].
Qed.

Lemma scan_fold_count (g : GameGrid) l : ∀ done V T k V' T' k',
  scan_inv g done (V, T, k) → (∀ p, p ∈ l → inside g p) →
  foldl (λ acc p, scan_cell (fill_depth g) g acc p.1 p.2)
        (Some (V, T, k)) l = Some (V', T', k') →
  4 * k ≤ Z.of_nat (size T) → 4 * k' ≤ Z.of_nat (size T').
Proof.
  induction l as [|[x y] l IH]; intros done V T k V' T' k' Hinv Hl.
  - by intros [= <- <- <-].
  - cbn [foldl fst snd].
    destruct (scan_cell_step g done V T k x y Hinv)
      as ([[V1 T1] k1] & Hs & Hinv1); [apply Hl; by left|].
    rewrite Hs. intros Hf Hk.
    eapply (IH _ _ _ _ _ _ _ Hinv1); [|exact Hf|].
    + intros p Hp. apply Hl. by right.
    + eapply scan_cell_count; [exact Hinv|apply Hl; by left|exact Hs|exact Hk].
Qed.

(** X6: what [find_and_clear_groups] returns on any board: the two
    counts are not negative, every group counted accounts for at least four
    cleared cells, one count is zero iff the other is, and with zero
    cleared cells the board is unchanged. *)
Theorem find_and_clear_groups_counts (g : GameGrid) :
  ∃ cleared groups g',
    find_and_clear_groups g = Some (cleared, groups, g')
    ∧ 0 ≤ groups ∧ 4 * groups ≤ cleared
    ∧ (cleared = 0 ↔ groups = 0)
    ∧ (cleared = 0 → g' = g).
Proof.
  destruct (scan_groups_spec g) as (V & T & reps & Hs & HT & Hsz & Hreps).
  assert (4 * Z.of_nat (length reps) ≤ Z.of_nat (size T)) as Hcount.
  { rewrite scan_groups_flat in Hs.
    eapply (scan_fold_count g (scan_order g) [] ∅ ∅ 0);
      [apply scan_inv_init| |exact Hs|by rewrite size_empty].
    intros p. apply elem_of_scan_order. }
  exists (Z.of_nat (size T)), (Z.of_nat (length reps)), (clear_cells g T).
  unfold find_and_clear_groups. rewrite Hs. cbn [mbind option_bind].
  split_and!; [done|lia|done| |].
  - split; [lia|]. intros Hz.
    assert (reps = []) as -> by (destruct reps; [done|simpl in Hz; lia]).
    assert (T = ∅) as ->; [|by rewrite size_empty].
    apply set_eq. intros p. split; [|set_solver].
    intros Hp%HT. destruct Hreps as (_ & _ & _ & Hcov).
    destruct (Hcov p Hp) as (r & Hr & _). by inversion Hr.
  - intros Hz. assert (T = ∅) as ->.
    { apply leibniz_equiv, size_empty_iff. lia. }
    apply clear_cells_empty.
Qed.

(** Settling a cell that is on the board: it is written where its scan
    stops. *)
Lemma settle_in_bounds (g : GameGrid) (x y c : Z) :
  wf g → in_bounds g x y →
  ∃ fy, settle g (mkPosition x y) c = Some (set_cell g x fy c)
        ∧ y ≤ fy < height g
        ∧ (∀ y', y < y' ≤ fy → cell g x y' = 0)
        ∧ (fy + 1 < height g → cell g x (fy + 1) ≠ 0).
Proof.
  intros Hwf [Hx Hy]. unfold settle. simpl pos_x. simpl pos_y.
  destruct (settle_row_scan (Z.to_nat (height g - y)) g x y Hwf Hx)
    as (fy & Hs & Hle & Hh & Hzero & Hstop); [lia..|].
  exists fy. rewrite Hs. cbn [mbind option_bind]. split_and!; try done.
  - unfold place_puyo. rewrite bool_decide_eq_true_2; [done|]. lia.
  - lia.
Qed.

Lemma set_cell_twice (g : GameGrid) (x y v v' : Z) :
  wf g → in_bounds g x y →
  set_cell (set_cell g x y v) x y v' = set_cell g x y v'.
Proof.
  intros Hwf [Hx Hy]. apply grid_ext; try done.
  - by do 2 apply set_cell_wf.
  - by apply set_cell_wf.
  - intros x' y' [Hx' Hy']. simpl in Hx', Hy'.
    rewrite !cell_set_cell by first [done|by apply set_cell_wf|simpl; lia].
    by destruct (decide (x' = x ∧ y' = y)).
Qed.

Lemma occupiable_in_bounds (g : GameGrid) (x y : Z) :
  occupiable g x y → in_bounds g x y.
Proof. by intros [? _]. Qed.

(** X7: a pair with its sub cell below the anchor (rotation state 1) that
    has landed, that is, stands on free cells and cannot move down.
    [place_pair] writes the main colour into the sub cell's row and then
    the sub colour over it: the board gains the sub colour only, in the
    row below the anchor, and the anchor's own cell stays empty. *)
Theorem landed_downward_pair_keeps_sub_only (g : GameGrid) (p : PuyoPair) :
  wf g → rotation_state p = 1 →
  can_place_pair g p = true → can_place_pair g (move p 0 1) = false →
  place_pair g p
  = Some (set_cell g (pos_x (main_puyo p)) (pos_y (main_puyo p) + 1)
            (sub_color p))
  ∧ settle g (main_puyo p) (main_color p)
    = Some (set_cell g (pos_x (main_puyo p)) (pos_y (main_puyo p) + 1)
              (main_color p))
  ∧ cell (set_cell g (pos_x (main_puyo p)) (pos_y (main_puyo p) + 1)
            (sub_color p))
         (pos_x (main_puyo p)) (pos_y (main_puyo p)) = 0
  ∧ (sub_color p ≠ 0 →
     occupied (set_cell g (pos_x (main_puyo p)) (pos_y (main_puyo p) + 1)
                 (sub_color p))
     = S (occupied g)).
Proof.
  intros Hwf Hrot Hplace Hland.
  destruct p as [[x y] s mc sc r]. simpl in *. subst r.
  unfold can_place_pair in Hplace, Hland. simpl in Hplace, Hland.
  rewrite !Z.add_0_r in Hplace, Hland.
  apply andb_true_iff in Hplace as [Hm Hs].
  apply is_valid_position_occupiable in Hm as [[Hx Hy] Hm0].
  apply is_valid_position_occupiable in Hs as [[_ Hy1] Hs0].
  rewrite (proj2 (is_valid_position_occupiable g x (y + 1)))
    in Hland by done.
  cbn [andb] in Hland.
  assert (¬ occupiable g x (y + 1 + 1)) as Hfloor.
  { intros Ho%is_valid_position_occupiable.
    rewrite Z.add_0_r in Hland. by rewrite Ho in Hland. }
  assert (∀ fy, y + 1 + 1 ≤ fy < height g → cell g x (y + 1 + 1) ≠ 0)
    as Hblock.
  { intros fy Hfy Hz. apply Hfloor. split; [split; lia|done]. }
  destruct (settle_in_bounds g x y mc Hwf) as (fm & Hsm & Hfm & Hzm & Hstop);
    [done|].
  assert (fm = y + 1) as ->.
  { destruct (decide (fm = y)) as [->|?].
    { exfalso. apply Hstop; [lia|done]. }
    destruct (decide (fm = y + 1)); [done|].
    destruct (Hblock fm); [lia|]. apply Hzm. lia. }
  set (g1 := set_cell g x (y + 1) mc) in *.
  assert (wf g1) as Hwf1 by by apply set_cell_wf.
  destruct (settle_in_bounds g1 x (y + 1) sc Hwf1)
    as (fs & Hss & Hfs & Hzs & _); [done|].
  assert (fs = y + 1) as ->.
  { destruct (decide (fs = y + 1)); [done|].
    destruct (Hblock fs); [simpl in Hfs; lia|].
    rewrite <-(Hzs (y + 1 + 1)) by lia. symmetry.
    apply cell_set_cell_ne; try done; try lia. intros [= ?]. lia. }
  split_and!.
  - unfold place_pair. simpl. rewrite Hsm.
    cbn [mbind option_bind]. unfold pos_add. simpl pos_x. simpl pos_y.
    rewrite Z.add_0_r, Hss. f_equal.
    by apply set_cell_twice.
  - done.
  - rewrite cell_set_cell_ne; try done; try lia. intros [= ?]. lia.
  - intros Hsc. by apply set_cell_occupied.
Qed.

Lemma landed_downward_pair_keeps_sub_only_witness :
  place_pair default_grid (set_rotation (new_pair 1 2 2 10) 1)
  = Some (set_cell default_grid 2 11 2).
Proof.
  apply (landed_downward_pair_keeps_sub_only default_grid
           (set_rotation (new_pair 1 2 2 10) 1)).
  - apply wf_decide. vm_compute. reflexivity.
  - reflexivity.
  - vm_compute. reflexivity.
  - vm_compute. reflexivity.
Defined.

(** Writing a colour into an empty cell, then another into another empty
    cell, adds two occupied cells. *)
Lemma set_two_cells_occupied (g : GameGrid) (x1 y1 c1 x2 y2 c2 : Z) :
  wf g → in_bounds g x1 y1 → in_bounds g x2 y2 → (x1, y1) ≠ (x2, y2) →
  cell g x1 y1 = 0 → cell g x2 y2 = 0 → c1 ≠ 0 → c2 ≠ 0 →
  occupied (set_cell (set_cell g x1 y1 c1) x2 y2 c2) = S (S (occupied g)).
Proof.
  intros Hwf H1 H2 Hne Hz1 Hz2 Hc1 Hc2.
  rewrite (set_cell_occupied (set_cell g x1 y1 c1));
    [|by apply set_cell_wf|done| |done].
  - by rewrite set_cell_occupied.
  - destruct H1, H2. rewrite cell_set_cell_ne; try done; lia.
Qed.

(** X8: in every other case a pair on free cells is placed whole: with
    rotation state 0, 2 or 3, or with rotation state 1 when the pair can
    still move down, each colour is written into a cell that was empty, at
    or below the cell's own row, the two cells differ, and the board gains
    two occupied cells. *)
Theorem placed_pair_keeps_both (g : GameGrid) (p : PuyoPair) :
  wf g → 0 ≤ rotation_state p < 4 →
  can_place_pair g p = true →
  (rotation_state p = 1 → can_place_pair g (move p 0 1) = true) →
  main_color p ≠ 0 → sub_color p ≠ 0 →
  ∃ fm fs,
    place_pair g p
    = Some (set_cell (set_cell g (pos_x (main_puyo p)) fm (main_color p))
              (pos_x (sub_position p)) fs (sub_color p))
    ∧ pos_y (main_puyo p) ≤ fm < height g
    ∧ pos_y (sub_position p) ≤ fs < height g
    ∧ (pos_x (main_puyo p), fm) ≠ (pos_x (sub_position p), fs)
    ∧ cell g (pos_x (main_puyo p)) fm = 0
    ∧ cell g (pos_x (sub_position p)) fs = 0
    ∧ occupied (set_cell (set_cell g (pos_x (main_puyo p)) fm (main_color p))
                  (pos_x (sub_position p)) fs (sub_color p))
      = S (S (occupied g)).
Proof.
  intros Hwf Hr Hplace Hfloat Hmc Hsc.
  unfold sub_position. unfold place_pair.
  unfold can_place_pair in Hplace.
  destruct (get_positions p) as [m [xs ys]] eqn:Epos.
  assert (m = main_puyo p) as -> by (by injection Epos).
  destruct (main_puyo p) as [xm ym] eqn:Emain.
  simpl in Hplace |- *.
  apply andb_true_iff in Hplace as [Hm Hs].
  apply is_valid_position_occupiable in Hm as [Hmb Hm0].
  apply is_valid_position_occupiable in Hs as [Hsb Hs0].
  destruct (settle_in_bounds g xm ym (main_color p) Hwf Hmb)
    as (fm & Hsm & Hfm & Hzm & Hstop).
  set (g1 := set_cell g xm fm (main_color p)) in *.
  assert (in_bounds g xm fm) as Hfmb by (destruct Hmb; split; lia).
  assert (wf g1) as Hwf1 by (apply set_cell_wf; done).
  assert (cell g xm fm = 0) as Hfm0.
  { destruct (decide (fm = ym)) as [->|?]; [done|]. apply Hzm. lia. }
  destruct (settle_in_bounds g1 xs ys (sub_color p) Hwf1 Hsb)
    as (fs & Hss & Hfs & Hzs & _).
  simpl in Hfs.
  assert ((xm, fm) ≠ (xs, fs)) as Hne.
  { intros [= <- <-].
    (* same column: the sub cell starts above the row the main cell took *)
    assert (ys < fm) as Hlt.
    { rewrite get_positions_rotation, Emain in Epos by done.
      simpl in Epos. apply (f_equal snd) in Epos. simpl in Epos.
      pose proof (f_equal pos_x Epos) as Ex.
      pose proof (f_equal pos_y Epos) as Ey. clear Epos.
      repeat case_bool_decide; simpl in Ex, Ey; try lia.
      (* rotation state 1: the pair can still move down *)
      assert (occupiable g xm (ym + 1 + 1)) as [[_ ?] Hz2].
      { specialize (Hfloat ltac:(done)). unfold can_place_pair in Hfloat.
        rewrite get_positions_rotation in Hfloat by done.
        simpl in Hfloat. rewrite Emain in Hfloat. simpl in Hfloat.
        rewrite (bool_decide_eq_false_2 (rotation_state p = 0)),
          (bool_decide_eq_true_2 (rotation_state p = 1)) in Hfloat by done.
        rewrite Z.add_0_r in Hfloat.
        apply andb_true_iff in Hfloat as [_ Hf].
        by apply is_valid_position_occupiable in Hf. }
      destruct (decide (fm = ym)) as [->|?].
      { destruct Hstop; [lia|]. subst ys. done. }
      destruct (decide (fm = ym + 1)) as [->|?]; [|lia].
      destruct Hstop; [lia|done]. }
    assert (cell g1 xm fm = 0) as Hbad by (apply Hzs; lia).
    unfold g1 in Hbad. rewrite cell_set_cell_eq in Hbad by (done || apply Hfmb).
    done. }
  assert (cell g xs fs = 0) as Hfs0.
  { assert (cell g1 xs fs = 0) as H1.
    { destruct (decide (fs = ys)) as [->|?]; [|apply Hzs; lia].
      unfold g1. destruct Hsb, Hfmb.
      rewrite cell_set_cell_ne; try done; try lia;
        try (intros [= -> ->]; by apply Hne). }
    unfold g1 in H1. destruct Hsb, Hfmb.
    rewrite cell_set_cell_ne in H1; try done; try lia;
      try (intros [= -> ->]; by apply Hne). }
  exists fm, fs. rewrite Hsm. cbn [mbind option_bind]. rewrite Hss.
  split_and!; try done; try lia.
  apply set_two_cells_occupied; try done.
  destruct Hsb. split; [done|lia].
Qed.

Lemma placed_pair_keeps_both_witness :
  ∃ fm fs,
    place_pair default_grid upright_pair
    = Some (set_cell (set_cell default_grid 2 fm 1) 2 fs 2)
    ∧ occupied (set_cell (set_cell default_grid 2 fm 1) 2 fs 2)
      = S (S (occupied default_grid)).
Proof.
  destruct (placed_pair_keeps_both default_grid upright_pair)
    as (fm & fs & H1 & _ & _ & _ & _ & _ & H2).
  - apply wf_decide. vm_compute. reflexivity.
  - simpl. lia.
  - vm_compute. reflexivity.
  - simpl. discriminate.
  - simpl. discriminate.
  - simpl. discriminate.
  - exists fm, fs. split; [exact H1|exact H2].
Defined.

(** ** The hard drop *)

Lemma move_zero (p : PuyoPair) : move p 0 0 = p.
Proof.
  destruct p as [[x y] s mc sc r]. unfold move, set_main. simpl.
  by rewrite !Z.add_0_r.
Qed.

Lemma move_move (p : PuyoPair) (dx dy dx' dy' : Z) :
  move (move p dx dy) dx' dy' = move p (dx + dx') (dy + dy').
Proof. unfold move, set_main. simpl. f_equal. f_equal; lia. Qed.

Lemma set_current_id (st : PuyoGame) : set_current st (current_pair st) = st.
Proof. by destruct st. Qed.

(** The loop of the hard drop, step by step. *)
Lemma drop_loop_steps (fuel : nat) : ∀ st,
  height (pg_grid st) - pos_y (main_puyo (current_pair st)) ≤ Z.of_nat fuel →
  ∃ k : nat,
    drop_loop fuel st
    = Some (set_current st (move (current_pair st) 0 (Z.of_nat k)))
    ∧ (∀ j, 0 < j ≤ Z.of_nat k →
         can_place_pair (pg_grid st) (move (current_pair st) 0 j) = true)
    ∧ can_place_pair (pg_grid st) (move (current_pair st) 0 (Z.of_nat k + 1))
      = false.
Proof.
  induction fuel as [|n IH]; intros st Hfuel; cbn [drop_loop];
    destruct (can_move_pair st 0 1) eqn:Em.
  - rewrite can_move_pair_current in Em. unfold can_place_pair in Em.
    simpl in Em. apply andb_true_iff in Em as [Em _].
    unfold is_valid_position in Em.
    rewrite !andb_true_iff, !bool_decide_eq_true in Em. lia.
  - exists 0%nat. rewrite move_zero, set_current_id.
    rewrite can_move_pair_current in Em. split_and!; [done|lia|done].
  - destruct (IH (move_current st 0 1)) as (k & Hd & Hok & Hstop).
    + rewrite can_move_pair_current in Em. unfold can_place_pair in Em.
      simpl in Em. apply andb_true_iff in Em as [Em _].
      unfold is_valid_position in Em.
      rewrite !andb_true_iff, !bool_decide_eq_true in Em. simpl. lia.
    + rewrite can_move_pair_current in Em.
      exists (S k). rewrite Hd.
      unfold move_current in Hok, Hstop |- *. simpl in Hok, Hstop |- *.
      split_and!.
      * rewrite move_move. do 3 f_equal. lia.
      * intros j Hj. destruct (decide (j = 1)) as [->|Hj1]; [done|].
        specialize (Hok (j - 1) ltac:(lia)). rewrite move_move in Hok.
        by replace (1 + (j - 1)) with j in Hok by lia.
      * rewrite move_move in Hstop.
        by replace (Z.of_nat (S k) + 1) with (1 + (Z.of_nat k + 1)) by lia.
  - exists 0%nat. rewrite move_zero, set_current_id.
    rewrite can_move_pair_current in Em. split_and!; [done|lia|done].
Qed.

(** X9: the hard drop.  The loop [while can_move_pair(0, 1): move(0, 1)]
    returns: it takes the pair [k] rows down, where every step on the way
    was onto free cells and the next step is not, so it stops at the first
    obstacle below and never passes one; nothing else of the state changes.
    A budget of [height - y] steps is enough, and a larger one gives the
    same state. *)
Theorem hard_drop_stops_at_first_obstacle (st : PuyoGame) :
  ∃ k : nat,
    drop_loop (drop_fuel st) st
    = Some (set_current st (move (current_pair st) 0 (Z.of_nat k)))
    ∧ (∀ j, 0 < j ≤ Z.of_nat k →
         can_place_pair (pg_grid st) (move (current_pair st) 0 j) = true)
    ∧ can_place_pair (pg_grid st) (move (current_pair st) 0 (Z.of_nat k + 1))
      = false
    ∧ ∀ fuel, (drop_fuel st ≤ fuel)%nat →
        drop_loop fuel st
        = Some (set_current st (move (current_pair st) 0 (Z.of_nat k))).
Proof.
  destruct (drop_loop_steps (drop_fuel st) st) as (k & Hd & Hok & Hstop).
  { unfold drop_fuel. lia. }
  exists k. split_and!; try done.
  intros fuel Hfuel.
  destruct (drop_loop_steps fuel st) as (k' & Hd' & Hok' & Hstop').
  { unfold drop_fuel in Hfuel. lia. }
  rewrite Hd'. destruct (decide (k' = k)) as [->|Hne]; [done|].
  exfalso. destruct (decide (k < k')%nat).
  - rewrite Hok' in Hstop by lia. done.
  - rewrite Hok in Hstop' by lia. done.
Qed.

(** ** The board after the chains *)

Lemma clear_pass_groups (g : GameGrid) :
  wf g →
  ∃ cleared groups g',
    find_and_clear_groups g = Some (cleared, groups, g')
    ∧ wf g' ∧ width g' = width g ∧ height g' = height g
    ∧ (∀ p, ¬ qualifies g' p)
    ∧ Z.of_nat (occupied g') = Z.of_nat (occupied g) - cleared
    ∧ ((cleared = 0 ∧ g' = g) ∨ (4 ≤ cleared ∧ 1 ≤ groups)).
Proof.
  intros Hwf.
  destruct (find_and_clear_groups_spec g) as (T & reps & Hs & HT & Hsz & Hreps).
  exists (Z.of_nat (size T)), (Z.of_nat (length reps)), (clear_cells g T).
  destruct (find_and_clear_groups_wf g _ _ _ Hwf Hs) as (Hwf' & Hw & Hh).
  split_and!; try done.
  - by apply clear_cells_no_group.
  - pose proof (clear_cells_occupied g T Hwf) as Ho. rewrite <-Ho; [lia|].
    intros p Hp. by apply qualifies_occupied, HT.
  - destruct Hsz as [-> | Hbig].
    + left. by rewrite size_empty, clear_cells_empty.
    + right. split; [done|].
      destruct (set_choose_L T) as [p Hp].
      { intros ->. rewrite size_empty in Hbig. lia. }
      destruct Hreps as (_ & _ & _ & Hcov).
      destruct (Hcov p (proj1 (HT p) Hp)) as (r & Hr & _).
      destruct reps; [by inversion Hr|simpl; lia].
Qed.

Lemma chain_passes_rest (fuel : nat) : ∀ g,
  wf g → (occupied g < 4 * fuel)%nat →
  ∃ passes g',
    chain_passes fuel g = Some (passes, g')
    ∧ wf g' ∧ width g' = width g ∧ height g' = height g
    ∧ settled g' ∧ (∀ p, ¬ qualifies g' p)
    ∧ Forall (λ pass, 4 ≤ pass.1 ∧ 1 ≤ pass.2) passes
    ∧ (4 * length passes + occupied g' ≤ occupied g)%nat
    ∧ (passes = [] → g' = apply_gravity g).
Proof.
  induction fuel as [|n IH]; intros g Hwf Hocc; [lia|].
  cbn [chain_passes].
  destruct (apply_gravity_spec g Hwf) as (Hwf1 & Hw1 & Hh1 & _).
  pose proof (apply_gravity_occupied g Hwf) as Hocc1.
  destruct (clear_pass_groups (apply_gravity g) Hwf1)
    as (cleared & groups & g' & Hs & Hwf' & Hw' & Hh' & Hno & Ho & Hc).
  rewrite Hs. cbn [mbind option_bind].
  case_bool_decide as Hz.
  - destruct Hc as [[_ ->] | [? _]]; [|lia].
    exists [], (apply_gravity g). split_and!; try done.
    + by apply apply_gravity_settled.
    + simpl. lia.
  - destruct Hc as [[? _] | [Hc Hg]]; [done|].
    destruct (IH g' Hwf')
      as (passes & g'' & Hp & Hwf'' & Hw'' & Hh'' & Hset & Hno' & Hall
          & Hlen & _); [lia|].
    rewrite Hp. cbn [mbind option_bind].
    exists ((cleared, groups) :: passes), g''.
    split_and!; try done; try congruence.
    + by constructor.
    + simpl. lia.
Qed.

Lemma chain_score_bound (passes : list (Z * Z)) : ∀ chain,
  0 ≤ chain →
  Forall (λ pass, 4 ≤ pass.1 ∧ 1 ≤ pass.2) passes →
  80 * chain * Z.of_nat (length passes)
  + 40 * Z.of_nat (length passes) * (Z.of_nat (length passes) + 1)
  ≤ chain_score chain passes.
Proof.
  induction passes as [|[c gr] passes IH]; intros chain Hchain Hall.
  - simpl. lia.
  - inversion Hall as [|? ? [Hc Hgr] Hall']; subst. simpl in Hc, Hgr.
    specialize (IH (chain + 1) ltac:(lia) Hall').
    cbn [chain_score length]. rewrite Z.max_r by lia.
    assert (80 * (chain + 1) ≤ c * 10 * ((chain + 1) * 2) * gr) by nia.
    nia.
Qed.

Lemma process_chains_passes (st : PuyoGame) :
  process_chains st
  = '(passes, g) ← chain_passes (chain_fuel (pg_grid st)) (pg_grid st);
    Some (mkPuyoGame g (current_pair st) (next_pair st)
            (score st + chain_score 0 passes) (Z.of_nat (length passes))
            (game_over st) (fall_timer st) (drawn st)).
Proof. unfold process_chains. by rewrite process_chains_loop_passes. Qed.

Lemma process_chains_at_rest (st : PuyoGame) :
  wf (pg_grid st) → settled (pg_grid st) → (∀ p, ¬ qualifies (pg_grid st) p) →
  process_chains st = Some (set_chain st 0).
Proof.
  intros Hwf Hset Hno. rewrite process_chains_passes.
  unfold chain_fuel. cbn [chain_passes].
  rewrite apply_gravity_of_settled, find_and_clear_groups_none by done.
  simpl. unfold set_chain. by rewrite Z.add_0_r.
Qed.

(** X10: [process_chains] leaves the board at rest.  It returns; on the
    board it leaves nothing floats and no group of four is left; the board
    keeps its size and loses at least four cells for every chain step
    counted; the pairs, the flag, the timer and the draws are untouched.
    On a board that is already at rest only the chain count is reset, so
    calling it a second time changes nothing but the chain count. *)
Theorem process_chains_leaves_board_at_rest (st : PuyoGame) :
  wf (pg_grid st) →
  ∃ st',
    process_chains st = Some st'
    ∧ wf (pg_grid st')
    ∧ width (pg_grid st') = width (pg_grid st)
    ∧ height (pg_grid st') = height (pg_grid st)
    ∧ settled (pg_grid st')
    ∧ (∀ p, ¬ qualifies (pg_grid st') p)
    ∧ 4 * chain_count st' + Z.of_nat (occupied (pg_grid st'))
      ≤ Z.of_nat (occupied (pg_grid st))
    ∧ current_pair st' = current_pair st
    ∧ next_pair st' = next_pair st
    ∧ game_over st' = game_over st
    ∧ fall_timer st' = fall_timer st
    ∧ drawn st' = drawn st
    ∧ (settled (pg_grid st) → (∀ p, ¬ qualifies (pg_grid st) p) →
       st' = set_chain st 0)
    ∧ process_chains st' = Some (set_chain st' 0).
Proof.
  intros Hwf.
  destruct (chain_passes_rest (chain_fuel (pg_grid st)) (pg_grid st) Hwf
              (chain_fuel_enough _))
    as (passes & g' & Hp & Hwf' & Hw' & Hh' & Hset & Hno & _ & Hlen & _).
  eexists. split_and!.
  - rewrite process_chains_passes, Hp. simpl. reflexivity.
  - done.
  - done.
  - done.
  - done.
  - done.
  - simpl. lia.
  - done.
  - done.
  - done.
  - done.
  - done.
  - intros Hset0 Hno0.
    pose proof (process_chains_at_rest st Hwf Hset0 Hno0) as Hrest.
    rewrite process_chains_passes, Hp in Hrest.
    cbn [mbind option_bind] in Hrest. congruence.
  - by apply process_chains_at_rest.
Qed.

Lemma process_chains_leaves_board_at_rest_witness :
  ∃ st',
    process_chains
      (game_on two_groups_grid (new_pair_default 1 2) (new_pair_default 3 4))
    = Some st'
    ∧ settled (pg_grid st')
    ∧ (∀ p, ¬ qualifies (pg_grid st') p).
Proof.
  destruct (process_chains_leaves_board_at_rest
              (game_on two_groups_grid (new_pair_default 1 2)
                       (new_pair_default 3 4)))
    as (st' & H1 & _ & _ & _ & H2 & H3 & _).
  - apply wf_decide. vm_compute. reflexivity.
  - exists st'. split_and!; [exact H1|exact H2|exact H3].
Defined.

(** X11: the points of [process_chains].  With [n] the chain count it
    ends on, the score grows by at least [40 * n * (n + 1)]: step number
    [i] clears at least four cells in at least one group with a chain
    bonus of [2 * i], which is at least 2, so the lower limit 1 of the
    bonus is never what is used.  With a chain count of 0 the score is
    unchanged and the board is the one gravity alone gives. *)
Theorem process_chains_points (st : PuyoGame) :
  wf (pg_grid st) →
  ∃ st',
    process_chains st = Some st'
    ∧ 0 ≤ chain_count st'
    ∧ score st + 40 * chain_count st' * (chain_count st' + 1) ≤ score st'
    ∧ (chain_count st' = 0 →
       score st' = score st ∧ pg_grid st' = apply_gravity (pg_grid st))
    ∧ (0 < chain_count st' → score st + 80 ≤ score st').
Proof.
  intros Hwf.
  destruct (chain_passes_rest (chain_fuel (pg_grid st)) (pg_grid st) Hwf
              (chain_fuel_enough _))
    as (passes & g' & Hp & _ & _ & _ & _ & _ & Hall & _ & Hnil).
  pose proof (chain_score_bound passes 0 ltac:(lia) Hall) as Hb.
  eexists. split_and!.
  - rewrite process_chains_passes, Hp. simpl. reflexivity.
  - simpl. lia.
  - simpl. lia.
  - simpl. intros Hz.
    assert (passes = []) as ->
      by (destruct passes; [done|simpl in Hz; lia]).
    split; [simpl; lia|by apply Hnil].
  - simpl. intros Hpos. nia.
Qed.

Lemma process_chains_points_witness :
  ∃ st',
    process_chains
      (game_on two_groups_grid (new_pair_default 1 2) (new_pair_default 3 4))
    = Some st'
    ∧ 0 + 40 * chain_count st' * (chain_count st' + 1) ≤ score st'.
Proof.
  destruct (process_chains_points
              (game_on two_groups_grid (new_pair_default 1 2)
                       (new_pair_default 3 4)))
    as (st' & H1 & _ & H2 & _).
  - apply wf_decide. vm_compute. reflexivity.
  - exists st'. split; [exact H1|exact H2].
Defined.

(** ** The states the game keeps to *)

(** A pair on free cells is placed without an error: both scans start on
    the board.  Every cell then holds what it held or one of the two
    colours. *)
Lemma place_pair_total (g : GameGrid) (p : PuyoPair) :
  wf g → can_place_pair g p = true →
  ∃ g', place_pair g p = Some g' ∧ wf g'
        ∧ width g' = width g ∧ height g' = height g
        ∧ ∀ x y, in_bounds g x y →
            cell g' x y = cell g x y ∨ cell g' x y = main_color p
            ∨ cell g' x y = sub_color p.
Proof.
  intros Hwf Hplace. unfold place_pair. unfold can_place_pair in Hplace.
  destruct (get_positions p) as [[xm ym] [xs ys]].
  simpl in Hplace |- *.
  apply andb_true_iff in Hplace as [Hm Hs].
  apply is_valid_position_occupiable in Hm as [Hmb _].
  apply is_valid_position_occupiable in Hs as [Hsb _].
  destruct (settle_in_bounds g xm ym (main_color p) Hwf Hmb)
    as (fm & Hsm & Hfm & _).
  rewrite Hsm. cbn [mbind option_bind].
  assert (wf (set_cell g xm fm (main_color p))) as Hwf1
    by (by apply set_cell_wf).
  destruct (settle_in_bounds _ xs ys (sub_color p) Hwf1 Hsb)
    as (fs & Hss & Hfs & _).
  simpl in Hfs. rewrite Hss. eexists. split; [done|].
  split_and!; [by apply set_cell_wf|done|done|].
  intros x y [Hx Hy]. destruct Hmb as [Hxm Hym], Hsb as [Hxs Hys].
  rewrite !cell_set_cell by first [done|simpl; lia].
  destruct (decide (x = xs ∧ y = fs)); [by do 2 right|].
  destruct (decide (x = xm ∧ y = fm)); [by right; left|by left].
Qed.

Lemma game_ok_set_current (st : PuyoGame) (p : PuyoPair) :
  game_ok st → 0 ≤ rotation_state p < 4 →
  can_place_pair (pg_grid st) p = true → game_ok (set_current st p).
Proof. intros (Hwf & _ & _) Hr Hp. split; [done|]. split; [done|]. done. Qed.

Lemma game_ok_set_timer (st : PuyoGame) (t : Z) :
  game_ok st → game_ok (set_timer st t).
Proof. by intros (Hwf & Hr & Hp). Qed.

Lemma new_game_ok (rnd : nat → Z) : game_ok (new_game rnd).
Proof. split; [apply wf_new_grid|]. split; [simpl; lia|done]. Qed.

Lemma restart_game_ok (rnd : nat → Z) (st : PuyoGame) :
  game_ok (restart_game rnd st).
Proof. split; [apply wf_new_grid|]. split; [simpl; lia|done]. Qed.

Lemma spawn_new_pair_ok (rnd : nat → Z) (st : PuyoGame) :
  wf (pg_grid st) → game_ok (spawn_new_pair rnd st).
Proof.
  intros Hwf. unfold spawn_new_pair, generate_new_pair, game_ok.
  cbn [pg_grid current_pair game_over rotation_state set_rotation].
  split; [done|]. split; [lia|].
  by destruct (can_place_pair _ _).
Qed.

(** The landing sequence on a pair that stands on free cells. *)
Lemma land_ok (rnd : nat → Z) (st : PuyoGame) :
  wf (pg_grid st) → can_place_pair (pg_grid st) (current_pair st) = true →
  ∃ st', land rnd st = Some st' ∧ game_ok st'
         ∧ score st ≤ score st' ∧ (drawn st ≤ drawn st')%nat
         ∧ fall_timer st' = fall_timer st
         ∧ settled (pg_grid st') ∧ (∀ p, ¬ qualifies (pg_grid st') p)
         ∧ width (pg_grid st') = width (pg_grid st)
         ∧ height (pg_grid st') = height (pg_grid st).
Proof.
  intros Hwf Hplace. unfold land, place_current_pair.
  destruct (place_pair_total _ _ Hwf Hplace) as (g1 & Hp & Hwf1 & Hw1 & Hh1 & _).
  rewrite Hp. cbn [fmap option_fmap option_map mbind option_bind].
  rewrite process_chains_passes. cbn [pg_grid set_grid].
  destruct (chain_passes_rest (chain_fuel g1) g1 Hwf1 (chain_fuel_enough _))
    as (passes & g2 & Hc & Hwf2 & Hw2 & Hh2 & Hset & Hno & Hall & _).
  rewrite Hc. cbn [mbind option_bind].
  pose proof (chain_score_bound passes 0 ltac:(lia) Hall) as Hb.
  eexists. split; [reflexivity|]. split_and!.
  - by apply spawn_new_pair_ok.
  - simpl. nia.
  - simpl. lia.
  - done.
  - done.
  - done.
  - simpl. congruence.
  - simpl. congruence.
Qed.

(** One input on a state the game keeps to. *)
Lemma step_ok (rnd : nat → Z) (i : Input) (st : PuyoGame) :
  game_ok st →
  ∃ st', step rnd i st = Some st' ∧ game_ok st'
         ∧ (is_restart i = false →
            score st ≤ score st' ∧ (drawn st ≤ drawn st')%nat).
Proof.
  intros Hok. pose proof Hok as (Hwf & Hr & Hp).
  assert (∀ dx dy,
            game_ok (if can_move_pair st dx dy then move_current st dx dy
                     else st)) as Hmove.
  { intros dx dy. destruct (can_move_pair st dx dy) eqn:Em; [|done].
    rewrite can_move_pair_current in Em. by apply game_ok_set_current. }
  assert (∀ cw,
            game_ok (if can_rotate_pair st cw
                     then set_current st
                            (if cw then rotate_clockwise (current_pair st)
                             else rotate_counter_clockwise (current_pair st))
                     else st)) as Hrot.
  { intros cw. destruct (can_rotate_pair st cw) eqn:Em; [|done].
    rewrite can_rotate_pair_current in Em.
    apply game_ok_set_current; [done| |done].
    destruct cw;
      [apply rotate_clockwise_range|apply rotate_counter_clockwise_range]. }
  assert (∀ dx dy,
            score (if can_move_pair st dx dy then move_current st dx dy
                   else st) = score st
            ∧ drawn (if can_move_pair st dx dy then move_current st dx dy
                     else st) = drawn st) as Hmove'.
  { intros dx dy. by destruct (can_move_pair st dx dy). }
  destruct i as [[key|]|dt down]; cbn [step handle_input].
  - destruct (game_over st) eqn:Eover; cbn [negb].
    + destruct key;
        try (exists st; split_and!; [done|done|intros _; split; lia]).
      exists (restart_game rnd st). split_and!; [done| |done].
      apply restart_game_ok.
    + specialize (Hp eq_refl).
      destruct key;
        try (eexists; split_and!;
             [reflexivity|apply Hmove|
              intros _; destruct (Hmove' (-1) 0), (Hmove' 1 0), (Hmove' 0 1);
              split; lia]);
        try (exists st; split_and!; [done|done|intros _; split; lia]).
      * destruct (drop_loop_steps (drop_fuel st) st) as (k & Hd & Hfree & _).
        { unfold drop_fuel. lia. }
        rewrite Hd. cbn [mbind option_bind].
        destruct (land_ok rnd
                    (set_current st (move (current_pair st) 0 (Z.of_nat k))))
          as (st' & Hl & Hok' & Hs & Hdr & _); [done| |].
        { destruct k as [|k]; [by rewrite move_zero|]. apply Hfree. lia. }
        exists st'. by split_and!.
      * eexists. split_and!; [reflexivity|apply (Hrot true)|].
        intros _. by destruct (can_rotate_pair st true).
      * eexists. split_and!; [reflexivity|apply (Hrot true)|].
        intros _. by destruct (can_rotate_pair st true).
      * eexists. split_and!; [reflexivity|apply (Hrot false)|].
        intros _. by destruct (can_rotate_pair st false).
  - exists st. split_and!; [done|done|intros _; split; lia].
  - unfold update. destruct (game_over st) eqn:Eover.
    { exists st. split_and!; [done|done|intros _; split; lia]. }
    specialize (Hp eq_refl). case_bool_decide.
    + destruct (can_move_pair _ 0 1) eqn:Em.
      * rewrite can_move_pair_current in Em.
        eexists. split_and!; [reflexivity| |intros _; split; simpl; lia].
        apply game_ok_set_current; [|done|done]. by apply game_ok_set_timer.
      * destruct (land_ok rnd (set_timer (set_timer st (fall_timer st + dt)) 0))
          as (st' & Hl & Hok' & Hs & Hdr & _); [done|done|].
        exists st'. by split_and!.
    + eexists. split_and!; [reflexivity| |intros _; split; simpl; lia].
      by apply game_ok_set_timer.
Qed.

(** X12: a finished game is frozen.  With the game-over flag set, every
    input but the restart key, a clock tick included, leaves the state
    exactly as it is, for any number of inputs; the restart key gives the
    restarted game.  While the game runs the restart key does nothing. *)
Theorem finished_game_is_frozen (rnd : nat → Z) (inputs : list Input)
    (st : PuyoGame) :
  game_over st = true →
  Forall (λ i, is_restart i = false) inputs →
  run rnd inputs st = Some st
  ∧ run rnd (inputs ++ [IEvent (KEYDOWN K_r)]) st = Some (restart_game rnd st)
  ∧ ∀ st0, game_over st0 = false →
      step rnd (IEvent (KEYDOWN K_r)) st0 = Some st0.
Proof.
  intros Hover Hin.
  assert (∀ tail, run rnd (inputs ++ tail) st = run rnd tail st) as Hrun.
  { intros tail. induction Hin as [|i inputs Hi _ IH]; [done|].
    cbn [app run].
    assert (step rnd i st = Some st) as ->; [|done].
    destruct i as [[key|]|dt down]; cbn [step handle_input]; [|done|].
    - rewrite Hover. cbn [negb]. by destruct key.
    - unfold update. by rewrite Hover. }
  split_and!.
  - rewrite <-(app_nil_r inputs). by rewrite Hrun.
  - rewrite Hrun. cbn [run step handle_input]. by rewrite Hover.
  - intros st0 Hrunning. cbn [step handle_input]. by rewrite Hrunning.
Qed.

Lemma finished_game_is_frozen_witness :
  run (λ _, 1) [ITick 1000 true; IEvent (KEYDOWN K_UP)]
      (spawn_new_pair (λ _, 1)
         (game_on (set_cell default_grid 3 0 5) (new_pair_default 1 2)
                  (new_pair_default 3 4)))
  = Some (spawn_new_pair (λ _, 1)
            (game_on (set_cell default_grid 3 0 5) (new_pair_default 1 2)
                     (new_pair_default 3 4))).
Proof.
  refine (proj1 (finished_game_is_frozen (λ _, 1)
                   [ITick 1000 true; IEvent (KEYDOWN K_UP)]
                   (spawn_new_pair (λ _, 1)
                      (game_on (set_cell default_grid 3 0 5) (new_pair_default 1 2)
                               (new_pair_default 3 4))) _ _)).
  - vm_compute. reflexivity.
  - repeat constructor.
Defined.

(** X15: [is_game_over], the test on the top row, is stricter than the
    test the game makes.  On a board at least four cells wide, when
    [is_game_over] is false the spawn finds its two cells free and leaves
    the game-over flag as it was; but a cell of the top row outside the
    two spawn cells makes [is_game_over] true without ending the game. *)
Theorem spawn_ignores_is_game_over (rnd : nat → Z) (st : PuyoGame) :
  3 < width (pg_grid st) → 0 < height (pg_grid st) →
  (is_game_over (pg_grid st) = false →
   game_over (spawn_new_pair rnd st) = game_over st)
  ∧ ∀ x, 0 ≤ x < width (pg_grid st) → cell (pg_grid st) x 0 ≠ 0 →
         cell (pg_grid st) 2 0 = 0 → cell (pg_grid st) 3 0 = 0 →
         is_game_over (pg_grid st) = true
         ∧ game_over (spawn_new_pair rnd st) = game_over st.
Proof.
  intros Hw Hh.
  assert (cell (pg_grid st) 2 0 = 0 → cell (pg_grid st) 3 0 = 0 →
          game_over (spawn_new_pair rnd st) = game_over st) as Hspawn.
  { intros H2 H3. unfold spawn_new_pair, generate_new_pair.
    cbn [pg_grid game_over].
    assert (∀ q, can_place_pair (pg_grid st)
                   (set_rotation
                      (set_main q (mkPosition (GRID_WIDTH / 2 - 1) 0)) 0)
                 = is_valid_position (pg_grid st) 2 0
                   && is_valid_position (pg_grid st) 3 0) as -> by done.
    rewrite !(proj2 (is_valid_position_occupiable _ _ _)); [done| |].
    - split; [split; lia|done].
    - split; [split; lia|done]. }
  split.
  - intros Htop. unfold is_game_over in Htop.
    apply bool_decide_eq_false in Htop.
    assert (∀ x, 0 ≤ x < width (pg_grid st) → cell (pg_grid st) x 0 = 0)
      as Hrow.
    { intros x Hx. destruct (decide (cell (pg_grid st) x 0 = 0)); [done|].
      destruct Htop. apply Exists_exists. exists x. split; [|done].
      apply elem_of_seqZ. lia. }
    apply Hspawn; apply Hrow; lia.
  - intros x Hx Hne H2 H3. split; [|by apply Hspawn].
    unfold is_game_over. apply bool_decide_eq_true.
    apply Exists_exists. exists x. split; [|done]. apply elem_of_seqZ. lia.
Qed.

Lemma spawn_ignores_is_game_over_witness :
  game_over
    (spawn_new_pair (λ _, 1)
       (game_on default_grid (new_pair_default 1 2) (new_pair_default 3 4)))
  = false.
Proof.
  refine (proj1 (spawn_ignores_is_game_over (λ _, 1)
                   (game_on default_grid (new_pair_default 1 2)
                            (new_pair_default 3 4)) _ _) _).
  - vm_compute. reflexivity.
  - vm_compute. reflexivity.
  - vm_compute. reflexivity.
Defined.

(** ** The board between two inputs *)

Lemma new_grid_at_rest (w h : Z) :
  settled (new_grid w h) ∧ ∀ p, ¬ qualifies (new_grid w h) p.
Proof.
  split.
  - intros x y y' _ _ Hne. by rewrite cell_new_grid in Hne.
  - intros p (_ & Hc & _). unfold color_at in Hc.
    by rewrite cell_new_grid in Hc.
Qed.

(** An input leaves the board alone or leaves it at rest. *)
Lemma step_grid (rnd : nat → Z) (i : Input) (st st' : PuyoGame) :
  game_ok st → step rnd i st = Some st' →
  pg_grid st' = pg_grid st
  ∨ (settled (pg_grid st') ∧ ∀ p, ¬ qualifies (pg_grid st') p).
Proof.
  intros Hok. pose proof Hok as (Hwf & Hr & Hp).
  assert (∀ s, pg_grid s = pg_grid st →
               can_place_pair (pg_grid st) (current_pair s) = true →
               land rnd s = Some st' →
               settled (pg_grid st') ∧ ∀ p, ¬ qualifies (pg_grid st') p)
    as Hland.
  { intros s Hg Hc Hl.
    destruct (land_ok rnd s) as (s' & Hl' & _ & _ & _ & _ & H1 & H2 & _);
      [by rewrite Hg|by rewrite Hg|].
    rewrite Hl in Hl'. injection Hl' as <-. done. }
  destruct i as [[key|]|dt down]; cbn [step handle_input].
  - destruct (game_over st) eqn:Eover; cbn [negb].
    + destruct key; intros [= <-]; try (by left).
      right. apply new_grid_at_rest.
    + specialize (Hp eq_refl).
      destruct key;
        try (intros [= <-]; left; done);
        try (intros [= <-]; left; by destruct (can_move_pair _ _ _));
        try (intros [= <-]; left; by destruct (can_rotate_pair _ _)).
      destruct (drop_loop_steps (drop_fuel st) st) as (k & Hd & Hfree & _).
      { unfold drop_fuel. lia. }
      rewrite Hd. cbn [mbind option_bind]. intros Hl. right.
      eapply Hland; [| |exact Hl]; [done|]. simpl.
      destruct k as [|k]; [by rewrite move_zero|]. apply Hfree. lia.
  - intros [= <-]. by left.
  - unfold update. destruct (game_over st) eqn:Eover.
    { intros [= <-]. by left. }
    specialize (Hp eq_refl). case_bool_decide; [|intros [= <-]; by left].
    destruct (can_move_pair _ 0 1) eqn:Em; [intros [= <-]; by left|].
    intros Hl. right. eapply Hland; [| |exact Hl]; done.
Qed.

(** ** Placing a pair on a board at rest *)

Lemma set_cell_settled (g : GameGrid) (x y c : Z) :
  wf g → settled g → in_bounds g x y → c ≠ 0 →
  (y + 1 < height g → cell g x (y + 1) ≠ 0) →
  settled (set_cell g x y c).
Proof.
  intros Hwf Hs [Hx Hy] Hc Hbelow x' y1 y2 [Hx' Hy1] Hy2 Hne.
  simpl in Hx', Hy1, Hy2.
  rewrite cell_set_cell in Hne by first [done|lia].
  rewrite cell_set_cell by first [done|lia].
  destruct (decide (x' = x ∧ y2 = y)) as [[-> ->]|Hn2]; [done|].
  destruct (decide (x' = x ∧ y1 = y)) as [[-> ->]|Hn1].
  - destruct (decide (y2 = y + 1)) as [->|?]; [apply Hbelow; lia|].
    apply (Hs x (y + 1) y2); [split; lia|lia|apply Hbelow; lia].
  - apply (Hs x' y1 y2); [split; lia|lia|done].
Qed.

Lemma settle_settled (g : GameGrid) (x y c : Z) :
  wf g → settled g → in_bounds g x y → c ≠ 0 →
  ∃ g', settle g (mkPosition x y) c = Some g'
        ∧ wf g' ∧ width g' = width g ∧ height g' = height g ∧ settled g'.
Proof.
  intros Hwf Hs Hb Hc.
  destruct (settle_in_bounds g x y c Hwf Hb) as (fy & Hsm & Hfy & _ & Hstop).
  exists (set_cell g x fy c).
  split_and!; [done|by apply set_cell_wf|done|done|].
  destruct Hb. apply set_cell_settled; try done. split; [done|lia].
Qed.

(** X17: placing a pair keeps a board settled.  On a board where nothing
    floats, a pair on free cells with two colours is placed so that again
    nothing floats, whatever its rotation state and whether it has landed
    or not: the gravity pass that opens [process_chains] then changes
    nothing, gravity only matters after a clear. *)
Theorem place_pair_keeps_settled (g : GameGrid) (p : PuyoPair) :
  wf g → settled g → can_place_pair g p = true →
  main_color p ≠ 0 → sub_color p ≠ 0 →
  ∃ g', place_pair g p = Some g'
        ∧ wf g' ∧ width g' = width g ∧ height g' = height g
        ∧ settled g' ∧ apply_gravity g' = g'.
Proof.
  intros Hwf Hset Hplace Hmc Hsc. unfold place_pair.
  unfold can_place_pair in Hplace.
  destruct (get_positions p) as [[xm ym] [xs ys]].
  simpl in Hplace.
  apply andb_true_iff in Hplace as [Hm Hs].
  apply is_valid_position_occupiable in Hm as [Hmb _].
  apply is_valid_position_occupiable in Hs as [Hsb _].
  destruct (settle_settled g xm ym (main_color p))
    as (g1 & Hs1 & Hwf1 & Hw1 & Hh1 & Hset1); try done.
  rewrite Hs1. cbn [mbind option_bind].
  destruct (settle_settled g1 xs ys (sub_color p))
    as (g2 & Hs2 & Hwf2 & Hw2 & Hh2 & Hset2); try done.
  { unfold in_bounds. rewrite Hw1, Hh1. done. }
  exists g2. split_and!; try done; try congruence.
  by apply apply_gravity_of_settled.
Qed.

Lemma place_pair_keeps_settled_witness :
  ∃ g', place_pair default_grid upright_pair = Some g'
        ∧ settled g' ∧ apply_gravity g' = g'.
Proof.
  destruct (place_pair_keeps_settled default_grid upright_pair)
    as (g' & H1 & _ & _ & _ & H2 & H3).
  - apply wf_new_grid.
  - apply new_grid_at_rest.
  - vm_compute. reflexivity.
  - simpl. discriminate.
  - simpl. discriminate.
  - exists g'. split_and!; [exact H1|exact H2|exact H3].
Defined.

(** ** The cases of one input *)

(** An input on a running game only moves or turns the pair, restarts, or
    lands a pair that stands on free cells. *)
Lemma step_cases (rnd : nat → Z) (i : Input) (st st' : PuyoGame) :
  game_ok st → step rnd i st = Some st' →
  (pg_grid st' = pg_grid st ∧ next_pair st' = next_pair st
   ∧ main_color (current_pair st') = main_color (current_pair st)
   ∧ sub_color (current_pair st') = sub_color (current_pair st))
  ∨ st' = restart_game rnd st
  ∨ ∃ s, pg_grid s = pg_grid st ∧ next_pair s = next_pair st
         ∧ main_color (current_pair s) = main_color (current_pair st)
         ∧ sub_color (current_pair s) = sub_color (current_pair st)
         ∧ can_place_pair (pg_grid s) (current_pair s) = true
         ∧ land rnd s = Some st'.
Proof.
  intros (Hwf & Hr & Hp).
  destruct i as [[key|]|dt down]; cbn [step handle_input].
  - destruct (game_over st) eqn:Eover; cbn [negb].
    + destruct key; intros [= <-]; try (by left). right. by left.
    + specialize (Hp eq_refl).
      destruct key;
        try (intros [= <-]; left; done);
        try (intros [= <-]; left; by destruct (can_move_pair _ _ _));
        try (intros [= <-]; left; by destruct (can_rotate_pair _ _)).
      destruct (drop_loop_steps (drop_fuel st) st) as (k & Hd & Hfree & _).
      { unfold drop_fuel. lia. }
      rewrite Hd. cbn [mbind option_bind]. intros Hl. do 2 right.
      eexists. split_and!; [| | | | |exact Hl]; try done.
      simpl. destruct k as [|k]; [by rewrite move_zero|]. apply Hfree. lia.
  - intros [= <-]. by left.
  - unfold update. destruct (game_over st) eqn:Eover.
    { intros [= <-]. by left. }
    specialize (Hp eq_refl). case_bool_decide; [|intros [= <-]; by left].
    destruct (can_move_pair _ 0 1) eqn:Em; [intros [= <-]; by left|].
    intros Hl. do 2 right. eexists. split_and!; [| | | | |exact Hl]; done.
Qed.

(** ** What the chains do to a column *)

Lemma filter_fmap_sublist {A} (f h : A → Z) (l : list A) :
  (∀ a, a ∈ l → f a = 0 ∨ f a = h a) →
  filter (λ c, c ≠ 0) (f <$> l) `sublist_of` filter (λ c, c ≠ 0) (h <$> l).
Proof.
  induction l as [|a l IH]; intros H; [done|].
  rewrite !fmap_cons.
  assert (filter (λ c, c ≠ 0) (f <$> l)
            `sublist_of` filter (λ c, c ≠ 0) (h <$> l)) as IH'.
  { apply IH. intros b Hb. apply H. by right. }
  destruct (decide (h a ≠ 0)) as [Hh|Hh].
  - rewrite (filter_cons_True _ (h a)) by done.
    destruct (H a ltac:(by left)) as [E|E].
    + rewrite filter_cons_False by (intros Hf; by apply Hf).
      by apply sublist_cons.
    + rewrite E, filter_cons_True by done. by apply sublist_skip.
  - rewrite (filter_cons_False _ (h a)) by done.
    rewrite filter_cons_False; [done|].
    intros Hf. destruct (H a ltac:(by left)) as [E|E]; [done|].
    apply Hh. by rewrite <-E.
Qed.

Lemma elem_of_stack (g : GameGrid) (x c : Z) :
  c ∈ stack g x ↔ c ≠ 0 ∧ ∃ y, 0 ≤ y < height g ∧ cell g x y = c.
Proof.
  unfold stack, column. rewrite list_elem_of_filter, list_elem_of_fmap.
  split.
  - intros [Hc (y & -> & Hy%elem_of_seqZ)]. split; [done|].
    exists y. split; [lia|done].
  - intros [Hc (y & Hy & <-)]. split; [done|].
    exists y. split; [done|]. apply elem_of_seqZ. lia.
Qed.

Lemma clear_pass_stack (g g' : GameGrid) (cleared groups x : Z) :
  wf g → find_and_clear_groups g = Some (cleared, groups, g') →
  0 ≤ x → stack g' x `sublist_of` stack g x.
Proof.
  intros Hwf Hf Hx.
  destruct (find_and_clear_groups_spec g) as (T & reps & Hs & HT & _).
  rewrite Hs in Hf. injection Hf as _ _ <-.
  destruct (clear_cells_spec g T Hwf) as (_ & _ & Hh & Hc).
  { intros p Hp. by apply qualifies_occupied, HT. }
  unfold stack, column. rewrite Hh. apply filter_fmap_sublist.
  intros y Hy%elem_of_seqZ. rewrite Hc by lia.
  destruct (decide ((x, y) ∈ T)); [by left|by right].
Qed.

Lemma apply_gravity_stack (g : GameGrid) (x : Z) :
  wf g → 0 ≤ x < width g → stack (apply_gravity g) x = stack g x.
Proof.
  intros Hwf Hx. destruct (apply_gravity_spec g Hwf) as (_ & _ & _ & Hc).
  unfold stack. by rewrite Hc, compact_filter.
Qed.

Lemma chain_passes_stack (fuel : nat) : ∀ g passes g' x,
  wf g → chain_passes fuel g = Some (passes, g') → 0 ≤ x < width g →
  stack g' x `sublist_of` stack g x.
Proof.
  induction fuel as [|n IH]; intros g passes g' x Hwf Hc Hx; [done|].
  cbn [chain_passes] in Hc.
  destruct (apply_gravity_spec g Hwf) as (Hwf1 & Hw1 & _ & _).
  destruct (find_and_clear_groups (apply_gravity g))
    as [[[cleared groups] g1]|] eqn:Ef; [|done].
  cbn [mbind option_bind] in Hc.
  pose proof (clear_pass_stack _ _ _ _ x Hwf1 Ef ltac:(lia)) as Hsub.
  rewrite apply_gravity_stack in Hsub by done.
  destruct (find_and_clear_groups_wf _ _ _ _ Hwf1 Ef) as (Hwf' & Hw' & _).
  case_bool_decide.
  - by injection Hc as _ <-.
  - destruct (chain_passes n g1) as [[passes' g2]|] eqn:Ec; [|done].
    cbn [mbind option_bind] in Hc. injection Hc as _ <-.
    etrans; [|exact Hsub]. eapply IH; [done|exact Ec|]. lia.
Qed.

(** X18: the chains only remove.  In every column, the colours left
    after [process_chains], read from the top, are the colours that were
    there before with some of them removed: nothing is added, nothing
    changes column and the order is kept.  So every cell that is not empty
    afterwards holds a colour that was in its column before. *)
Theorem chains_only_remove (st : PuyoGame) (x : Z) :
  wf (pg_grid st) → 0 ≤ x < width (pg_grid st) →
  ∃ st',
    process_chains st = Some st'
    ∧ stack (pg_grid st') x `sublist_of` stack (pg_grid st) x
    ∧ ∀ y, 0 ≤ y < height (pg_grid st') → cell (pg_grid st') x y ≠ 0 →
        ∃ y0, 0 ≤ y0 < height (pg_grid st)
              ∧ cell (pg_grid st) x y0 = cell (pg_grid st') x y.
Proof.
  intros Hwf Hx.
  destruct (chain_passes_rest (chain_fuel (pg_grid st)) (pg_grid st) Hwf
              (chain_fuel_enough _)) as (passes & g' & Hp & _).
  pose proof (chain_passes_stack _ _ _ _ x Hwf Hp Hx) as Hsub.
  eexists. split_and!.
  - rewrite process_chains_passes, Hp. simpl. reflexivity.
  - done.
  - simpl. intros y Hy Hne.
    assert (cell g' x y ∈ stack g' x) as Hin.
    { apply elem_of_stack. split; [done|]. by exists y. }
    pose proof (elem_of_sublist _ _ _ Hin Hsub) as Hin0.
    apply elem_of_stack in Hin0 as [_ (y0 & Hy0 & E)]. by exists y0.
Qed.

Lemma chains_only_remove_witness :
  ∃ st',
    process_chains
      (game_on two_groups_grid (new_pair_default 1 2) (new_pair_default 3 4))
    = Some st'
    ∧ stack (pg_grid st') 0 `sublist_of` stack two_groups_grid 0.
Proof.
  destruct (chains_only_remove
              (game_on two_groups_grid (new_pair_default 1 2)
                       (new_pair_default 3 4)) 0)
    as (st' & H1 & H2 & _).
  - apply wf_decide. vm_compute. reflexivity.
  - vm_compute. split; [discriminate|reflexivity].
  - exists st'. split; [exact H1|exact H2].
Defined.

(** ** Colours *)

Lemma land_colors (rnd : nat → Z) (st st' : PuyoGame) :
  (∀ n, 1 ≤ rnd n ≤ 5) →
  wf (pg_grid st) → can_place_pair (pg_grid st) (current_pair st) = true →
  colors_ok st → land rnd st = Some st' → colors_ok st'.
Proof.
  intros Hrnd Hwf Hplace (Hcells & Hm & Hs & Hnm & Hns).
  unfold land, place_current_pair.
  destruct (place_pair_total _ _ Hwf Hplace)
    as (g1 & Hp & Hwf1 & Hw1 & Hh1 & Hc1).
  rewrite Hp. cbn [fmap option_fmap option_map mbind option_bind].
  rewrite process_chains_passes. cbn [pg_grid set_grid].
  destruct (chain_passes_rest (chain_fuel g1) g1 Hwf1 (chain_fuel_enough _))
    as (passes & g2 & Hc & Hwf2 & Hw2 & Hh2 & _).
  rewrite Hc. cbn [mbind option_bind]. intros [= <-].
  unfold colors_ok, spawn_new_pair, generate_new_pair.
  cbn [pg_grid current_pair next_pair main_color sub_color set_rotation
       set_main new_pair_default new_pair].
  split_and!; try done; try apply Hrnd; try lia.
  intros x y [Hx Hy]. rewrite Hw2, Hw1 in Hx. rewrite Hh2, Hh1 in Hy.
  destruct (decide (cell g2 x y = 0)) as [->|Hne]; [lia|].
  assert (cell g2 x y ∈ stack g2 x) as Hin.
  { apply elem_of_stack. split; [done|]. exists y. split; [lia|done]. }
  assert (stack g2 x `sublist_of` stack g1 x) as Hsub.
  { eapply (chain_passes_stack _ g1); [done|exact Hc|lia]. }
  pose proof (elem_of_sublist _ _ _ Hin Hsub) as Hin1.
  apply elem_of_stack in Hin1 as [_ (y0 & Hy0 & E)]. rewrite <-E.
  assert (in_bounds (pg_grid st) x y0) as Hb by (split; lia).
  specialize (Hcells x y0 Hb).
  destruct (Hc1 x y0 Hb) as [-> | [-> | ->]]; lia.
Qed.

(** X19: colours stay in range.  When the random source returns values
    from 1 to 5, as [random.randint(1, 5)] does, then from a new game, or
    from a state the game keeps to with such colours, every run ends in a
    state whose board holds only values from 0 to 5 and whose two pairs
    have colours from 1 to 5. *)
Theorem colors_stay_in_range (rnd : nat → Z) (inputs : list Input)
    (st : PuyoGame) :
  (∀ n, 1 ≤ rnd n ≤ 5) →
  st = new_game rnd ∨ (game_ok st ∧ colors_ok st) →
  ∃ st', run rnd inputs st = Some st' ∧ colors_ok st'.
Proof.
  intros Hrnd Hst.
  assert (∀ n, colors_ok
                 (mkPuyoGame default_grid
                    (new_pair_default (rnd n) (rnd (S n)))
                    (new_pair_default (rnd (S (S n))) (rnd (S (S (S n)))))
                    0 0 false 0 (S (S (S (S n)))))) as Hnew.
  { intros n. unfold colors_ok. simpl. split_and!; try apply Hrnd.
    intros x y _. rewrite (cell_new_grid GRID_WIDTH GRID_HEIGHT). lia. }
  assert (game_ok st ∧ colors_ok st) as (Hok & Hcol).
  { destruct Hst as [-> | ?]; [|done]. split; [apply new_game_ok|apply Hnew]. }
  clear Hst. revert st Hok Hcol.
  induction inputs as [|i inputs IH]; intros st Hok Hcol; [by exists st|].
  cbn [run]. destruct (step_ok rnd i st Hok) as (st1 & Hs & Hok1 & _).
  rewrite Hs. cbn [mbind option_bind]. apply IH; [done|].
  destruct (step_cases rnd i st st1 Hok Hs)
    as [(Hg & Hn & Hm & Hsb) | [-> | (s & Hg & Hn & Hm & Hsb & Hc & Hl)]].
  - destruct Hcol as (Hcells & ? & ? & ? & ?).
    unfold colors_ok. rewrite Hg, Hn, Hm, Hsb. done.
  - apply Hnew.
  - eapply (land_colors rnd s); [done| |done| |exact Hl].
    + rewrite Hg. apply Hok.
    + destruct Hcol as (Hcells & ? & ? & ? & ?).
      unfold colors_ok. rewrite Hg, Hn, Hm, Hsb. done.
Qed.

Lemma colors_stay_in_range_witness :
  ∃ st', run (λ n, 1 + Z.of_nat n mod 5) three_hard_drops
             (new_game (λ n, 1 + Z.of_nat n mod 5)) = Some st'
         ∧ colors_ok st'.
Proof.
  refine (colors_stay_in_range (λ n, 1 + Z.of_nat n mod 5) three_hard_drops
            (new_game (λ n, 1 + Z.of_nat n mod 5)) _ _).
  - intros n. pose proof (Z.mod_pos_bound (Z.of_nat n) 5). lia.
  - left. reflexivity.
Defined.

(** * The game as it is played *)

(** ** The redraw *)

Lemma elem_of_PUYO_COLORS (c : Z) : c ∈ PUYO_COLORS ↔ 0 ≤ c ≤ 5.
Proof. unfold PUYO_COLORS. rewrite !elem_of_cons, elem_of_nil. lia. Qed.

Lemma draw_puyo_Some (x y c : Z) : draw_puyo x y c = Some () ↔ 0 ≤ c ≤ 5.
Proof.
  unfold draw_puyo. rewrite <-elem_of_PUYO_COLORS.
  case_bool_decide; split; done.
Qed.

(** [get_positions] is the list access where the list access succeeds:
    for a rotation state from [-4] to [3], and only there. *)
Lemma get_positions_checked_spec (p : PuyoPair) :
  (-4 ≤ rotation_state p < 4 →
   get_positions_checked p = Some (get_positions p))
  ∧ (¬ -4 ≤ rotation_state p < 4 → get_positions_checked p = None).
Proof.
  unfold get_positions_checked, get_positions. split; intros Hr.
  - assert (rotation_state p = -4 ∨ rotation_state p = -3
            ∨ rotation_state p = -2 ∨ rotation_state p = -1
            ∨ rotation_state p = 0 ∨ rotation_state p = 1
            ∨ rotation_state p = 2 ∨ rotation_state p = 3) as Hcases by lia.
    destruct Hcases as [-> | [-> | [-> | [-> | [-> | [-> | [-> | ->]]]]]]];
      reflexivity.
  - unfold py_get. cbn [length offsets].
    case_bool_decide as H0.
    + rewrite (proj2 (lookup_ge_None _ _)); [done|]. simpl. lia.
    + rewrite bool_decide_eq_false_2; [done|]. simpl. lia.
Qed.

Lemma draw_row_ok (g : GameGrid) (y : Z) (l : list Z) :
  wf g → (∀ x, x ∈ l → in_bounds g x y) →
  (∀ x y, in_bounds g x y → 0 ≤ cell g x y ≤ 5) →
  foldl (λ acc x,
           _ ← acc;
           color ← py_cell g x y;
           if bool_decide (color ≠ 0) then draw_puyo x y color else Some ())
        (Some ()) l
  = Some ().
Proof.
  intros Hwf Hl Hcells. induction l as [|x l IH]; [done|].
  cbn [foldl mbind option_bind].
  rewrite py_cell_in_bounds by (done || apply Hl; by left).
  cbn [mbind option_bind].
  assert (draw_puyo x y (cell g x y) = Some ()) as Hd.
  { apply draw_puyo_Some, Hcells, Hl. by left. }
  rewrite Hd.
  assert ((if bool_decide (cell g x y ≠ 0) then Some () else Some ())
          = Some ()) as -> by (by case_bool_decide).
  apply IH. intros x' Hx'. apply Hl. by right.
Qed.

(** On the 6 x 12 board with colours from 0 to 5 and pairs with colours
    from 1 to 5 the redraw finds all it looks up. *)
Lemma draw_ok (st : PuyoGame) :
  wf (pg_grid st) →
  width (pg_grid st) = GRID_WIDTH → height (pg_grid st) = GRID_HEIGHT →
  colors_ok st → 0 ≤ rotation_state (current_pair st) < 4 →
  draw st = Some ().
Proof.
  intros Hwf Hw Hh (Hcells & Hm & Hs & Hnm & Hns) Hr.
  unfold draw, draw_grid, draw_next_puyo.
  assert (foldl (λ acc y,
                   foldl (λ acc x,
                            _ ← acc;
                            color ← py_cell (pg_grid st) x y;
                            if bool_decide (color ≠ 0)
                            then draw_puyo x y color else Some ())
                         acc (seqZ 0 GRID_WIDTH))
                (Some ()) (seqZ 0 GRID_HEIGHT) = Some ()) as ->.
  { assert (∀ l, (∀ y, y ∈ l → 0 ≤ y < GRID_HEIGHT) →
              foldl (λ acc y,
                       foldl (λ acc x,
                                _ ← acc;
                                color ← py_cell (pg_grid st) x y;
                                if bool_decide (color ≠ 0)
                                then draw_puyo x y color else Some ())
                             acc (seqZ 0 GRID_WIDTH))
                    (Some ()) l = Some ()) as Hrows.
    { induction l as [|y l IH]; intros Hl; [done|].
      cbn [foldl]. rewrite draw_row_ok; try done.
      - apply IH. intros y' Hy'. apply Hl. by right.
      - intros x Hx%elem_of_seqZ. split; [lia|].
        rewrite Hh. apply Hl. by left. }
    apply Hrows. intros y Hy%elem_of_seqZ. lia. }
  cbn [mbind option_bind].
  assert (draw_next : ∀ c, 1 ≤ c ≤ 5 → bool_decide (c ∈ PUYO_COLORS) = true).
  { intros c Hc. apply bool_decide_eq_true, elem_of_PUYO_COLORS. lia. }
  rewrite !draw_next by done. cbn [mbind option_bind].
  destruct (game_over st); cbn [negb]; [done|].
  rewrite (proj1 (get_positions_checked_spec _)) by lia.
  cbn [mbind option_bind].
  destruct (get_positions (current_pair st)) as [main_pos sub_pos].
  assert (∀ x y c, 1 ≤ c ≤ 5 → draw_puyo x y c = Some ()) as Hd.
  { intros x y c Hc. apply draw_puyo_Some. lia. }
  rewrite !Hd by done. by repeat case_bool_decide.
Qed.

(** One pass of the chain loop keeps the colours of the board. *)
Lemma pass_colors (g g' : GameGrid) (cleared groups : Z) :
  wf g →
  find_and_clear_groups (apply_gravity g) = Some (cleared, groups, g') →
  (∀ x y, in_bounds g x y → 0 ≤ cell g x y ≤ 5) →
  wf g' ∧ width g' = width g ∧ height g' = height g
  ∧ ∀ x y, in_bounds g' x y → 0 ≤ cell g' x y ≤ 5.
Proof.
  intros Hwf Hf Hcells.
  destruct (apply_gravity_spec g Hwf) as (Hwf1 & Hw1 & Hh1 & _).
  destruct (find_and_clear_groups_wf _ _ _ _ Hwf1 Hf) as (Hwf' & Hw' & Hh').
  split_and!; [done|congruence|congruence|].
  intros x y [Hx Hy]. rewrite Hw', Hw1 in Hx. rewrite Hh', Hh1 in Hy.
  destruct (decide (cell g' x y = 0)) as [->|Hne]; [lia|].
  assert (cell g' x y ∈ stack g' x) as Hin.
  { apply elem_of_stack. split; [done|]. exists y. split; [lia|done]. }
  pose proof (clear_pass_stack _ _ _ _ x Hwf1 Hf ltac:(lia)) as Hsub.
  rewrite apply_gravity_stack in Hsub by done.
  pose proof (elem_of_sublist _ _ _ Hin Hsub) as Hin0.
  apply elem_of_stack in Hin0 as [_ (y0 & Hy0 & E)]. rewrite <-E.
  apply Hcells. split; lia.
Qed.

(** With such colours the redraw never stops the chain loop. *)
Lemma process_chains_redraw_loop_agrees (fuel : nat) : ∀ st,
  wf (pg_grid st) →
  width (pg_grid st) = GRID_WIDTH → height (pg_grid st) = GRID_HEIGHT →
  colors_ok st → 0 ≤ rotation_state (current_pair st) < 4 →
  process_chains_redraw_loop fuel st = process_chains_loop fuel st.
Proof.
  induction fuel as [|n IH]; intros st Hwf Hw Hh Hcol Hr; [done|].
  cbn [process_chains_redraw_loop process_chains_loop].
  destruct (find_and_clear_groups (apply_gravity (pg_grid st)))
    as [[[cleared groups] g']|] eqn:Ef; [|done].
  cbn [mbind option_bind]. case_bool_decide; [done|].
  destruct Hcol as (Hcells & Hm & Hs & Hnm & Hns).
  destruct (pass_colors _ _ _ _ Hwf Ef Hcells) as (Hwf' & Hw' & Hh' & Hc').
  set (st1 := set_score _ _).
  assert (colors_ok st1) as Hcol1 by (split; [done|simpl; lia]).
  rewrite draw_ok; cbn [mbind option_bind]; try done;
    try (simpl; congruence).
  apply IH; try done; simpl; congruence.
Qed.

Lemma process_chains_redraw_agrees (st : PuyoGame) :
  wf (pg_grid st) →
  width (pg_grid st) = GRID_WIDTH → height (pg_grid st) = GRID_HEIGHT →
  colors_ok st → 0 ≤ rotation_state (current_pair st) < 4 →
  process_chains_redraw st = process_chains st.
Proof.
  intros. unfold process_chains_redraw, process_chains.
  by apply process_chains_redraw_loop_agrees.
Qed.

Lemma land_redraw_agrees (rnd : nat → Z) (st : PuyoGame) :
  wf (pg_grid st) →
  width (pg_grid st) = GRID_WIDTH → height (pg_grid st) = GRID_HEIGHT →
  colors_ok st → 0 ≤ rotation_state (current_pair st) < 4 →
  can_place_pair (pg_grid st) (current_pair st) = true →
  land_redraw rnd st = land rnd st.
Proof.
  intros Hwf Hw Hh (Hcells & Hm & Hs & Hnm & Hns) Hr Hplace.
  unfold land_redraw, land, place_current_pair.
  destruct (place_pair_total _ _ Hwf Hplace)
    as (g1 & Hp & Hwf1 & Hw1 & Hh1 & Hc1).
  rewrite Hp. cbn [fmap option_fmap option_map mbind option_bind].
  rewrite process_chains_redraw_agrees; try done.
  - simpl. congruence.
  - simpl. congruence.
  - split; [|simpl; lia]. simpl. intros x y [Hx Hy].
    rewrite Hw1 in Hx. rewrite Hh1 in Hy.
    assert (in_bounds (pg_grid st) x y) as Hb by done.
    specialize (Hcells x y Hb).
    destruct (Hc1 x y Hb) as [-> | [-> | ->]]; lia.
Qed.

(** ** One input *)

Lemma step_redraw_agrees (rnd : nat → Z) (i : Input) (st : PuyoGame) :
  playable st → step_redraw rnd i st = step rnd i st.
Proof.
  intros ((Hwf & Hr & Hp) & Hcol & Hw & Hh).
  destruct i as [[key|]|dt down];
    cbn [step_redraw step handle_input_redraw handle_input]; [|done|].
  - destruct (game_over st) eqn:Eover; cbn [negb]; [done|].
    specialize (Hp eq_refl). destruct key; try done.
    destruct (drop_loop_steps (drop_fuel st) st) as (k & Hd & Hfree & _).
    { unfold drop_fuel. lia. }
    rewrite Hd. cbn [mbind option_bind].
    apply land_redraw_agrees; try done.
    simpl. destruct k as [|k]; [by rewrite move_zero|]. apply Hfree. lia.
  - unfold update_redraw, update. destruct (game_over st) eqn:Eover; [done|].
    specialize (Hp eq_refl). case_bool_decide; [|done].
    destruct (can_move_pair _ 0 1); [done|].
    by apply land_redraw_agrees.
Qed.

Lemma new_game_playable (rnd : nat → Z) :
  (∀ n, 1 ≤ rnd n ≤ 5) → playable (new_game rnd).
Proof.
  intros Hrnd. split_and!; [apply new_game_ok| |done|done].
  unfold colors_ok. simpl. split_and!; try apply Hrnd.
  intros x y _. rewrite (cell_new_grid GRID_WIDTH GRID_HEIGHT). lia.
Qed.

Lemma restart_game_playable (rnd : nat → Z) (st : PuyoGame) :
  (∀ n, 1 ≤ rnd n ≤ 5) → playable (restart_game rnd st).
Proof.
  intros Hrnd. split_and!; [apply restart_game_ok| |done|done].
  unfold colors_ok. simpl. split_and!; try apply Hrnd.
  intros x y _. rewrite (cell_new_grid GRID_WIDTH GRID_HEIGHT). lia.
Qed.

(** One input on a state of the game as it is played. *)
Lemma step_playable (rnd : nat → Z) (i : Input) (st : PuyoGame) :
  (∀ n, 1 ≤ rnd n ≤ 5) → playable st →
  ∃ st', step rnd i st = Some st' ∧ playable st'
         ∧ (is_restart i = false →
            score st ≤ score st' ∧ (drawn st ≤ drawn st')%nat)
         ∧ (pg_grid st' = pg_grid st
            ∨ (settled (pg_grid st') ∧ ∀ p, ¬ qualifies (pg_grid st') p)).
Proof.
  intros Hrnd (Hok & Hcol & Hw & Hh).
  destruct (step_ok rnd i st Hok) as (st' & Hs & Hok' & Hmono).
  exists st'. split_and!; [done| |done|by eapply step_grid].
  destruct (step_cases rnd i st st' Hok Hs)
    as [(Hg & Hn & Hm & Hsb) | [-> | (s & Hg & Hn & Hm & Hsb & Hc & Hl)]].
  - split_and!; [done| |congruence|congruence].
    destruct Hcol as (Hcells & ? & ? & ? & ?).
    unfold colors_ok. rewrite Hg, Hn, Hm, Hsb. done.
  - by apply restart_game_playable.
  - assert (wf (pg_grid s)) as Hwfs by (rewrite Hg; apply Hok).
    split_and!; [done| | |].
    + eapply (land_colors rnd s); [done|done|done| |exact Hl].
      destruct Hcol as (Hcells & ? & ? & ? & ?).
      unfold colors_ok. rewrite Hg, Hn, Hm, Hsb. done.
    + destruct (land_ok rnd s Hwfs Hc) as (s' & Hl' & Hrest).
      rewrite Hl in Hl'. injection Hl' as <-.
      destruct Hrest as (_ & _ & _ & _ & _ & _ & -> & _). congruence.
    + destruct (land_ok rnd s Hwfs Hc) as (s' & Hl' & Hrest).
      rewrite Hl in Hl'. injection Hl' as <-.
      destruct Hrest as (_ & _ & _ & _ & _ & _ & _ & ->). congruence.
Qed.

(** X13: the game never raises.  With colours drawn from 1 to 5, from a
    new game, or from any state as the game is played (a rectangular
    6 x 12 board with colours from 0 to 5, pairs with colours from 1 to 5,
    a rotation state in [0 .. 3] and, while running, a current pair on free
    cells), every sequence of inputs is processed to the end: no list
    access of [place_current_pair] is out of range, and every loop and the
    flood fill return within their budgets (for the flood fill one nested
    call per cell of the board and one more).  The state reached is again
    such a state, so the falling pair never overlaps a settled cell and
    never leaves the board. *)
Theorem game_never_raises (rnd : nat → Z) (inputs : list Input)
    (st : PuyoGame) :
  (∀ n, 1 ≤ rnd n ≤ 5) →
  st = new_game rnd ∨ playable st →
  ∃ st', run rnd inputs st = Some st' ∧ playable st'.
Proof.
  intros Hrnd Hst. assert (playable st) as Hok.
  { destruct Hst as [-> | ?]; [by apply new_game_playable|done]. }
  clear Hst. revert st Hok.
  induction inputs as [|i inputs IH]; intros st Hok; [by exists st|].
  cbn [run]. destruct (step_playable rnd i st Hrnd Hok) as (st1 & Hs & Hok1 & _).
  rewrite Hs. cbn [mbind option_bind]. by apply IH.
Qed.

Lemma game_never_raises_witness :
  ∃ st', run (λ _, 1) three_hard_drops (new_game (λ _, 1)) = Some st'
         ∧ playable st'.
Proof.
  refine (game_never_raises (λ _, 1) three_hard_drops (new_game (λ _, 1))
            _ _).
  - intros n. lia.
  - left. reflexivity.
Defined.

(** X14: the score never goes down and the random source is only read
    forward: with colours drawn from 1 to 5, along inputs without the
    restart key, from a state of the game as it is played, the score and
    the number of values drawn do not decrease. *)
Theorem score_never_decreases (rnd : nat → Z) (inputs : list Input)
    (st : PuyoGame) :
  (∀ n, 1 ≤ rnd n ≤ 5) →
  playable st →
  Forall (λ i, is_restart i = false) inputs →
  ∃ st', run rnd inputs st = Some st'
         ∧ score st ≤ score st' ∧ (drawn st ≤ drawn st')%nat.
Proof.
  intros Hrnd Hok Hin. revert st Hok.
  induction Hin as [|i inputs Hi _ IH]; intros st Hok.
  - exists st. split_and!; [done|lia|lia].
  - cbn [run].
    destruct (step_playable rnd i st Hrnd Hok)
      as (st1 & Hs & Hok1 & Hmono & _).
    destruct (Hmono Hi) as [Hsc Hdr].
    rewrite Hs. cbn [mbind option_bind].
    destruct (IH st1 Hok1) as (st' & Hr & Hsc' & Hdr').
    exists st'. split_and!; [done|lia|lia].
Qed.

Lemma score_never_decreases_witness :
  ∃ st', run (λ _, 1) three_hard_drops (new_game (λ _, 1)) = Some st'
         ∧ 0 ≤ score st' ∧ (4 ≤ drawn st')%nat.
Proof.
  refine (score_never_decreases (λ _, 1) three_hard_drops
            (new_game (λ _, 1)) _ _ _).
  - intros n. lia.
  - apply new_game_playable. intros n. lia.
  - repeat constructor.
Defined.

(** X16: between two inputs the board is at rest.  With colours drawn
    from 1 to 5, from a new game, or from a state of the game as it is
    played whose board is at rest, every run ends on a board on which
    nothing floats and no group of four is left: floating cells and groups
    only exist inside [process_chains]. *)
Theorem board_at_rest_between_inputs (rnd : nat → Z) (inputs : list Input)
    (st : PuyoGame) :
  (∀ n, 1 ≤ rnd n ≤ 5) →
  st = new_game rnd
  ∨ (playable st ∧ settled (pg_grid st)
     ∧ ∀ p, ¬ qualifies (pg_grid st) p) →
  ∃ st', run rnd inputs st = Some st'
         ∧ settled (pg_grid st') ∧ ∀ p, ¬ qualifies (pg_grid st') p.
Proof.
  intros Hrnd Hst.
  assert (playable st ∧ settled (pg_grid st)
          ∧ ∀ p, ¬ qualifies (pg_grid st) p) as (Hok & Hrest).
  { destruct Hst as [-> | ?]; [|done].
    split; [by apply new_game_playable|apply new_grid_at_rest]. }
  clear Hst. revert st Hok Hrest.
  induction inputs as [|i inputs IH]; intros st Hok Hrest; [by exists st|].
  cbn [run].
  destruct (step_playable rnd i st Hrnd Hok) as (st1 & Hs & Hok1 & _ & Hg).
  rewrite Hs. cbn [mbind option_bind]. apply IH; [done|].
  destruct Hg as [-> | ?]; done.
Qed.

Lemma board_at_rest_between_inputs_witness :
  ∃ st', run (λ _, 1) three_hard_drops (new_game (λ _, 1)) = Some st'
         ∧ settled (pg_grid st') ∧ ∀ p, ¬ qualifies (pg_grid st') p.
Proof.
  refine (board_at_rest_between_inputs (λ _, 1) three_hard_drops
            (new_game (λ _, 1)) _ _).
  - intros n. lia.
  - left. reflexivity.
Defined.

(** X20: the redraw inside [process_chains] never raises in the game as it
    is played.  On a state as the game is played [draw] finds every row,
    every cell and every colour it looks up, and [process_chains] with its
    redraw does what [process_chains] without it does; so with colours
    drawn from 1 to 5, from a new game or any such state, a run with the
    redraw gives the same state as the run without, and returns.  Off the
    palette the redraw does raise: on a board with a cell of colour 6 it
    stops the first clearing pass with a [KeyError] where the loop without
    the redraw goes on to the end. *)
Theorem redraw_never_raises (rnd : nat → Z) (inputs : list Input)
    (st : PuyoGame) :
  (∀ n, 1 ≤ rnd n ≤ 5) →
  st = new_game rnd ∨ playable st →
  draw st = Some ()
  ∧ process_chains_redraw st = process_chains st
  ∧ run_redraw rnd inputs st = run rnd inputs st
  ∧ (∃ st', run_redraw rnd inputs st = Some st' ∧ playable st')
  ∧ process_chains_redraw off_palette_game = None
  ∧ process_chains off_palette_game
    = Some (mkPuyoGame (set_cell default_grid 5 11 6) (new_pair_default 1 2)
              (new_pair_default 3 4) 320 1 false 0 0).
Proof.
  intros Hrnd Hst. assert (playable st) as Hok.
  { destruct Hst as [-> | ?]; [by apply new_game_playable|done]. }
  clear Hst.
  assert (∀ ins s, playable s →
            run_redraw rnd ins s = run rnd ins s) as Hrun.
  { intros ins. induction ins as [|i ins IH]; [done|].
    intros s Hs. cbn [run_redraw run].
    rewrite step_redraw_agrees by done.
    destruct (step_playable rnd i s Hrnd Hs) as (s1 & Hstep & Hs1 & _).
    rewrite Hstep. cbn [mbind option_bind]. by apply IH. }
  pose proof Hok as ((Hwf & Hr & _) & Hcol & Hw & Hh).
  split_and!.
  - by apply draw_ok.
  - by apply process_chains_redraw_agrees.
  - by apply Hrun.
  - rewrite Hrun by done. clear Hwf Hr Hcol Hw Hh. revert st Hok.
    induction inputs as [|i inputs IH]; intros st Hok; [by exists st|].
    cbn [run].
    destruct (step_playable rnd i st Hrnd Hok) as (st1 & Hs & Hok1 & _).
    rewrite Hs. cbn [mbind option_bind]. by apply IH.
  - vm_compute. reflexivity.
  - vm_compute. reflexivity.
Qed.

Lemma redraw_never_raises_witness :
  run_redraw (λ _, 1) three_hard_drops (new_game (λ _, 1))
  = run (λ _, 1) three_hard_drops (new_game (λ _, 1))
  ∧ ∃ st', run_redraw (λ _, 1) three_hard_drops (new_game (λ _, 1))
           = Some st' ∧ playable st'.
Proof.
  destruct (redraw_never_raises (λ _, 1) three_hard_drops
              (new_game (λ _, 1)))
    as (_ & _ & H1 & H2 & _).
  - intros n. lia.
  - left. reflexivity.
  - split; [exact H1|exact H2].
Defined.
